(** * env-verifier: the resolver and the redactor of [src/index.ts]

    A shallow embedding of the TypeScript program and the properties its
    specification states about it.

    Conventions of the embedding.
    - A string is a [string] of the standard library: a sequence of code
      units below 256.
    - A plain JavaScript object that the program uses as a record of
      values ([MappedConfig], the environment, the accumulators of the
      redactor) is a finite map [gmap string _] of its own enumerable
      properties; reading [o[k]] is [o !! k], with [None] for [undefined].
      The enumeration order of such an object is not represented, and
      neither are the members it inherits from [Object.prototype],
      except where the program reads one: the lookup of the environment
      ([inherited_values]) and the redactor ([object_prototype_members]).
    - The schema is enumerated by [Object.keys(config).map(...)]; it is a
      list of entries in that order.
    - A transform function is a pure function of Rocq that returns a
      value or throws.
    - A call of the resolver or of an entry point ends by returning or by
      throwing, [completion]; [None] in its place says that the call
      leaves the model (it reaches a value that [value] does not hold).
    - The state that outlives a call is explicit: [verify] takes the
      realm it runs in and returns the realm it leaves. *)

From stdpp Require Import gmap strings list fin_maps.
From Stdlib Require Import ZArith Ascii.
Set Warnings "-register-all,-clear-no-such-hyp".

(** ** Values *)

(** What a resolved configuration can hold ([any] in the source): the
    values of JSON and [undefined]. *)
Inductive value : Type :=
| VUndef
| VNull
| VBool (b : bool)
| VNum (n : Z)
| VStr (s : string)
| VArr (xs : list value)
| VObj (props : gmap string value).

(** [interface MappedConfig { [key: string]: any | string | undefined | MappedConfig }] *)
Abbreviation MappedConfig := (gmap string value).

(** [env: { [key: string]: string | undefined }] *)
Abbreviation Env := (gmap string string).

(** ** How a call ends *)

(** What a call throws: [new Error(message)], a [TypeError] of the
    engine, or any other value. *)
Inductive thrown : Type :=
| ErrorThrown (message : string)
| TypeErrorThrown
| ValueThrown (v : value).

(** A call returns a value or throws. *)
Inductive completion (A : Type) : Type :=
| Return (a : A)
| Throw (t : thrown).
Arguments Return {A} a.
Arguments Throw {A} t.

(** One call after another: the second is made with what the first
    returns; what the first throws is thrown, and a call that leaves the
    model takes the whole with it. *)
Definition after {A B} (m : option (completion A)) (f : A → option (completion B))
  : option (completion B) :=
  match m with
  | Some (Return a) => f a
  | Some (Throw t) => Some (Throw t)
  | None => None
  end.

Notation "'let*' x := m 'in' f" := (after m (λ x, f))
  (at level 10, x pattern, m at level 100, f at level 200,
   format "'[v' 'let*'  x  :=  m  'in' '/' f ']'").

(** [list.map(f)]: the calls are made from left to right, and the first
    that throws ends the whole. *)
Section traverse.
Context {A B : Type} (f : A → option (completion B)).

Fixpoint traverse (l : list A) : option (completion (list B)) :=
  match l with
  | [] => Some (Return [])
  | x :: rest =>
      let* y := f x in
      let* ys := traverse rest in
      Some (Return (y :: ys))
  end.

End traverse.

(** [interface TransformFn { (envValue: string): any }] *)
Abbreviation TransformFn := (string → completion value).

(** ** The schema *)

(** A value of the schema is either wrapped by [secret(...)], an instance
    of [class SecretValue], or not. *)
Inductive maybeSecret (A : Type) : Type :=
| Plain (a : A)
| SecretValue (secret : A).
Arguments Plain {A} a.
Arguments SecretValue {A} secret.

(** [NotASecretObject]: what [unwrapMaybeSecret] returns, and what
    [getMapConfigFunction] dispatches on, in the order of the source:
    an [InsertValue], an array [[envKey, transformFn]], a string, and
    otherwise a nested [ConfigWithEnvKeys]. *)
Inductive node : Type :=
| Insert (v : value)
| Transform (envKey : string) (transformFn : TransformFn)
| EnvKey (name : string)
| Nested (props : list (string * maybeSecret node)).

(** [interface ConfigWithEnvKeys]: the entries in the order of [Object.keys]. *)
Abbreviation ConfigWithEnvKeys := (list (string * maybeSecret node)).

(** [insert(value)] and [secret(value)] of the source. *)
Definition insert (v : value) : node := Insert v.
Definition secret (n : node) : maybeSecret node := SecretValue n.

(** The wrapped value, secret or not. *)
Definition payload {A} (m : maybeSecret A) : A :=
  match m with Plain a => a | SecretValue a => a end.

(** ** The resolver *)

(** An [Error] object is its message. *)
Record Error : Type := mkError { message : string }.

Definition missing_message (key subPath : string) : string :=
  "environment value " +:+ key +:+ " is missing from config object at " +:+ subPath.

(** The names under which [env[key]] finds a value although [env] has
    no such property: the members of [Object.prototype] whose [length]
    is not [0].  These are the functions [constructor],
    [hasOwnProperty], [isPrototypeOf], [propertyIsEnumerable],
    [__lookupGetter__] and [__lookupSetter__] (of length 1),
    [__defineGetter__] and [__defineSetter__] (of length 2), and
    [__proto__], which is [Object.prototype] itself and has no
    [length].  The other three members, [toLocaleString], [toString]
    and [valueOf], are functions of length [0], which
    [envValue.length === 0] takes for a missing value. *)
Definition inherited_values : list string :=
  [ "constructor"; "hasOwnProperty"; "isPrototypeOf"; "propertyIsEnumerable";
    "__lookupGetter__"; "__lookupSetter__"; "__defineGetter__"; "__defineSetter__";
    "__proto__" ].

(** [getEnvValueOrErrorCurried(env, subPath)(key)]; in the pair
    returned, [None] is [undefined].  [env[key]] reads a property of
    [env] or, when [env] has none of that name, of [Object.prototype].
    For a name of [inherited_values] the call returns that member and
    no error; [value] does not hold it, and the call leaves the model. *)
Definition getEnvValueOrErrorCurried (env : Env) (subPath key : string)
  : option (option string * list Error) :=
  match env !! key with
  | None =>
      if bool_decide (key ∈ inherited_values) then None
      else Some (None, [mkError (missing_message key subPath)])
  | Some envValue =>
      if String.length envValue =? 0
      then Some (None, [mkError (missing_message key subPath)])
      else Some (Some envValue, [])
  end.

(** [unwrapMaybeSecret(maybeSecret, path)] *)
Definition unwrapMaybeSecret (m : maybeSecret node) (path : string)
  : node * list string :=
  match m with
  | SecretValue s => (s, [path])
  | Plain v => (v, [])
  end.

(** [path.length === 0 ? key : `${path}.${key}`] *)
Definition subPathOf (path key : string) : string :=
  if String.length path =? 0 then key else path +:+ "." +:+ key.

(** [envValue && transformFn(envValue)]: the left operand when it is
    falsy ([undefined], the empty string), the call otherwise. *)
Definition and_then (envValue : option string) (transformFn : TransformFn)
  : completion value :=
  match envValue with
  | None => Return VUndef
  | Some s => if String.length s =? 0 then Return (VStr s) else transformFn s
  end.

(** A string or [undefined] as a value. *)
Definition of_envValue (envValue : option string) : value :=
  match envValue with None => VUndef | Some s => VStr s end.

(** The accumulator of [reduceConf], the result of [recursiveVerify]. *)
Record Verified : Type := mkVerified {
  config : MappedConfig;
  errors : list Error;
  secrets : list string
}.

(** What [getMapConfigFunction(...)(key)] returns:
    [[ConfigWithEnvKeys, Error[], string[]]]. *)
Abbreviation Mapped := (MappedConfig * list Error * list string)%type.

(** [reduceConf]: [{...acc.config, ...config}] lets the right operand win. *)
Definition reduceConf (acc : Verified) (m : Mapped) : Verified :=
  let '(c, e, s) := m in
  {| config := c ∪ config acc;
     errors := errors acc ++ e;
     secrets := secrets acc ++ s |}.

Definition emptyVerified : Verified :=
  {| config := ∅; errors := []; secrets := [] |}.

(** The body of [getMapConfigFunction] after the unwrapping: the dispatch
    on the unwrapped [value], with [secrets] what the unwrapping
    recorded.  The last case is the recursive call of [recursiveVerify]
    on the nested object, written out: the map over its entries and the
    reduction with [reduceConf]. *)
Fixpoint dispatch (env : Env) (key subPath : string) (secrets0 : list string)
    (value0 : node) {struct value0} : option (completion Mapped) :=
  match value0 with
  | Insert v => Some (Return ({[ key := v ]}, [], secrets0))
  | Transform envKey transformFn =>
      match getEnvValueOrErrorCurried env subPath envKey with
      | None => None
      | Some (envValue, errs) =>
          let* transforedValue := Some (and_then envValue transformFn) in
          Some (Return ({[ key := transforedValue ]}, errs, secrets0))
      end
  | EnvKey name =>
      match getEnvValueOrErrorCurried env subPath name with
      | None => None
      | Some (envValue, errs) =>
          Some (Return ({[ key := of_envValue envValue ]}, errs, secrets0))
      end
  | Nested props =>
      let* mappedConf :=
        traverse (λ entry : string * maybeSecret node,
                    let sp := subPathOf subPath entry.1 in
                    match entry.2 with
                    | SecretValue s => dispatch env entry.1 sp [sp] s
                    | Plain v => dispatch env entry.1 sp [] v
                    end) props in
      let sub := foldl reduceConf emptyVerified mappedConf in
      Some (Return ({[ key := VObj (config sub) ]}, errors sub, secrets sub))
  end.

(** [getMapConfigFunction({config, env, path})(key)], on the entry
    [(key, config[key])]. *)
Definition getMapConfigFunction (env : Env) (path : string)
    (entry : string * maybeSecret node) : option (completion Mapped) :=
  let key := entry.1 in
  let subPath := subPathOf path key in
  let '(value0, secrets0) := unwrapMaybeSecret entry.2 subPath in
  dispatch env key subPath secrets0 value0.

(** [recursiveVerify({config, env, path})] *)
Definition recursiveVerify (env : Env) (cfg : ConfigWithEnvKeys) (path : string)
  : option (completion Verified) :=
  let* mappedConf := traverse (getMapConfigFunction env path) cfg in
  Some (Return (foldl reduceConf emptyVerified mappedConf)).

(** ** The redactor *)

(** How a call of the redactor ends.  [TypeError]: the engine raises one
    ([Object.keys] of [undefined] or [null], [split] of [undefined],
    [concat] of a member inherited from [Object.prototype]).  [OffType]:
    the [config] reached is not an object (a string, a number, a boolean,
    an array), against the declared parameter type [MappedConfig]; what
    the engine does there is outside the model. *)
Inductive outcome (A : Type) : Type :=
| Returns (a : A)
| TypeError
| OffType.
Arguments Returns {A} a.
Arguments TypeError {A}.
Arguments OffType {A}.

Definition returned {A} (o : outcome A) : option A :=
  match o with Returns a => Some a | _ => None end.

Definition off_type {A} (o : outcome A) : bool :=
  match o with OffType => true | _ => false end.

(** [s.split('.')] *)
Fixpoint split_dot (s : string) : list string :=
  match s with
  | EmptyString => [EmptyString]
  | String c rest =>
      if Ascii.eqb c "."%char then EmptyString :: split_dot rest
      else match split_dot rest with
           | [] => [String c EmptyString]
           | h :: t => String c h :: t
           end
  end.

(** [seperateSecretsByNestLevel(secrets)] *)
Definition seperateSecretsByNestLevel (secrets0 : list string)
  : list string * list string :=
  let nestedSecrets := filter (λ s, 1 < length (split_dot s)) secrets0 in
  let nonNested := filter (λ s, s ∉ nestedSecrets) secrets0 in
  (nonNested, nestedSecrets).

(** The characters that [.] of a regular expression does not match
    (among the code units below 256): line feed and carriage return. *)
Definition line_terminator (c : ascii) : bool :=
  Ascii.eqb c (Ascii.ascii_of_nat 10) || Ascii.eqb c (Ascii.ascii_of_nat 13).

(** What [(.+)] captures from the start of [s]: up to the end of the line. *)
Fixpoint rest_of_line (s : string) : string :=
  match s with
  | EmptyString => EmptyString
  | String c rest =>
      if line_terminator c then EmptyString else String c (rest_of_line rest)
  end.

(** [seperateParentFromChildren(path)], that is [path.split(/\.(.+)/)],
    as the two elements [[parent, children]] that the caller takes from
    it.  The expression matches at the first [.] that a character other
    than a line terminator follows; without a match the array is
    [[path]] and [children] is [undefined]. *)
Fixpoint seperateParentFromChildren (path : string) : string * option string :=
  match path with
  | EmptyString => (EmptyString, None)
  | String c rest =>
      let matches :=
        Ascii.eqb c "."%char &&
        match rest with
        | EmptyString => false
        | String d _ => negb (line_terminator d)
        end in
      if matches then (EmptyString, Some (rest_of_line rest))
      else let '(parent, children) := seperateParentFromChildren rest in
           (String c parent, children)
  end.

(** The properties that an object literal inherits from
    [Object.prototype]: for these names [acc[parent]] is not [undefined]
    when [acc] has no such property of its own. *)
Definition object_prototype_members : list string :=
  [ "constructor"; "hasOwnProperty"; "isPrototypeOf"; "propertyIsEnumerable";
    "toLocaleString"; "toString"; "valueOf"; "__proto__";
    "__defineGetter__"; "__defineSetter__"; "__lookupGetter__"; "__lookupSetter__" ].

(** One step of the reduction that builds [groupedNestedSecrets]:
    [{...acc, [parent]: acc[parent] ? acc[parent].concat(children) : [children]}].
    An inherited member is truthy and has no [concat]. *)
Definition group_step (acc : outcome (gmap string (list (option string))))
    (pc : string * option string) : outcome (gmap string (list (option string))) :=
  match acc with
  | Returns acc =>
      let '(parent, children) := pc in
      match acc !! parent with
      | Some cs => Returns (<[ parent := cs ++ [children] ]> acc)
      | None =>
          if bool_decide (parent ∈ object_prototype_members) then TypeError
          else Returns (<[ parent := [children] ]> acc)
      end
  | e => e
  end.

Definition groupedNestedSecrets (deepSecrets : list string)
  : outcome (gmap string (list (option string))) :=
  foldl group_step (Returns ∅) (map seperateParentFromChildren deepSecrets).

(** The secrets of a recursive call are the [children] collected for a
    parent; the call reads [secret.split('.')] of each, a [TypeError]
    when one is [undefined]. *)
Fixpoint all_defined (children : list (option string)) : option (list string) :=
  match children with
  | [] => Some []
  | None :: _ => None
  | Some c :: rest => cons c <$> all_defined rest
  end.

(** The results of the calls made for the parents, as one outcome: the
    object of the results when every call returns. *)
Definition collect {A} (m : gmap string (outcome A)) : outcome (gmap string A) :=
  if decide (map_Forall (λ _ o, is_Some (returned o)) m) then Returns (omap returned m)
  else if decide (map_Forall (λ _ o, off_type o = false) m) then TypeError
  else OffType.

(** The redaction marker. *)
Definition marker : value := VStr "[secret]".

(** The body of [recursiveToString(secrets, config)], with [self] for
    the function in its recursive call.  [Object.keys(config)] raises
    for [undefined] and [null].  The three reductions build
    [groupedNestedSecrets], then [nestedSanatizedSecrets] (one recursive
    call per parent, on [groupedNestedSecrets[parent]] and
    [config[parent]]) and [sanatizedSecrets]; in the object returned,
    [{ ...config, ...sanatizedSecrets, ...nestedSanatizedSecrets }],
    a later operand wins. *)
Definition recursiveToString_body
    (self : list string → value → outcome MappedConfig)
    (secrets0 : list string) (cfg : value) : outcome MappedConfig :=
  let '(secretsAtThisLevel, deepSecrets) := seperateSecretsByNestLevel secrets0 in
  match cfg with
  | VUndef | VNull => TypeError
  | VObj config0 =>
      let secretKeys := filter (λ kv, kv.1 ∈ secretsAtThisLevel) config0 in
      match groupedNestedSecrets deepSecrets with
      | Returns grouped =>
          let calls :=
            merge (λ children child,
                     match children with
                     | None => None
                     | Some cs =>
                         Some match all_defined cs with
                              | None => TypeError
                              | Some cs' => self cs' (default VUndef child)
                              end
                     end) grouped config0 in
          match collect calls with
          | Returns nested =>
              let nestedSanatizedSecrets := VObj <$> nested in
              let sanatizedSecrets := (λ _, marker) <$> secretKeys in
              Returns (nestedSanatizedSecrets ∪ (sanatizedSecrets ∪ config0))
          | TypeError => TypeError
          | OffType => OffType
          end
      | TypeError => TypeError
      | OffType => OffType
      end
  | _ => OffType
  end.

(** [recursiveToString], by recursion on a bound [n] on the depth of the
    nested calls.  A call passes on only [children] strings, each shorter
    than the path it was cut from, so a bound above the length of every
    secret is never used up ([recursiveToString_unfold] below). *)
Fixpoint recursiveToString_upto (n : nat) : list string → value → outcome MappedConfig :=
  match n with
  | O => λ _ _, OffType
  | S n' => recursiveToString_body (recursiveToString_upto n')
  end.

(** A bound above the length of every secret. *)
Definition depth_bound (secrets0 : list string) : nat :=
  S (foldr (λ s, Nat.max (String.length s)) 0 secrets0).

Definition recursiveToString (secrets0 : list string) (cfg : value)
  : outcome MappedConfig :=
  recursiveToString_upto (depth_bound secrets0) secrets0 cfg.

(** [JSON.parse(JSON.stringify(v))]: a property whose value is
    [undefined] is left out, an element of an array that is [undefined]
    becomes [null]. *)
Fixpoint json_copy (v : value) : value :=
  match v with
  | VArr xs =>
      VArr (map (λ x, match x with VUndef => VNull | _ => json_copy x end) xs)
  | VObj props =>
      VObj (omap (λ x, match x with VUndef => None | _ => Some (json_copy x) end) props)
  | _ => v
  end.

(** [toStringCurried(secrets, config)()], before the last step
    [JSON.stringify(sanatizedConfig, null, 2)], which prints this object. *)
Definition toStringCurried (secrets0 : list string) (config0 : MappedConfig)
  : outcome MappedConfig :=
  recursiveToString secrets0 (json_copy (VObj config0)).

(** ** The public entry points *)

(** [toStringCurried(secrets, config)]: the function value, which holds
    the two arguments it was built from. *)
Record closure : Type := mkClosure {
  closure_secrets : list string;
  closure_config : MappedConfig
}.

(** The state outside a call that the program writes:
    [Object.prototype.toString], the [toString] that every plain object
    inherits.  [None] is the built-in function. *)
Record realm : Type := mkRealm {
  ObjectPrototype_toString : option closure
}.

Definition initial_realm : realm := {| ObjectPrototype_toString := None |}.

(** What [verify] returns: [{ config: builtConfig, errors: errorMessages }]. *)
Record VerifyResult : Type := mkVerifyResult {
  built : MappedConfig;
  messages : list string
}.

(** [verify(config, env)], in a realm: how the call ends and the realm
    it leaves.  What [recursiveVerify] throws is thrown.  [builtConfig]
    is made by object spreads, so [builtConfig.__proto__] is
    [Object.prototype] unless [builtConfig] has an own property of that
    name.  Then the assignment of [toString] is to the value of that
    property: a [TypeError] for [undefined] and [null]; for any other
    value the call leaves the model. *)
Definition verify (cfg : ConfigWithEnvKeys) (env : Env) (r : realm)
  : option (completion VerifyResult * realm) :=
  match recursiveVerify env cfg EmptyString with
  | None => None
  | Some (Throw t) => Some (Throw t, r)
  | Some (Return v) =>
      let builtConfig := config v in
      let errorMessages := map message (errors v) in
      let result := {| built := builtConfig; messages := errorMessages |} in
      if length (secrets v) =? 0 then Some (Return result, r)
      else
        match builtConfig !! "__proto__" with
        | None =>
            let toString := mkClosure (secrets v) builtConfig in
            Some (Return result, {| ObjectPrototype_toString := Some toString |})
        | Some VUndef | Some VNull => Some (Throw TypeErrorThrown, r)
        | Some _ => None
        end
  end.

(** The line feed of [errors.join('\n')]. *)
Definition LF : string := String (Ascii.ascii_of_nat 10) EmptyString.

(** [Array.prototype.join] on strings. *)
Fixpoint join (sep : string) (l : list string) : string :=
  match l with
  | [] => EmptyString
  | [x] => x
  | x :: rest => x +:+ sep +:+ join sep rest
  end.

(** [strictVerify(config, env)] *)
Definition strictVerify (cfg : ConfigWithEnvKeys) (env : Env) (r : realm)
  : option (completion MappedConfig * realm) :=
  match verify cfg env r with
  | None => None
  | Some (Throw t, r') => Some (Throw t, r')
  | Some (Return res, r') =>
      if 0 <? length (messages res)
      then Some (Throw (ErrorThrown ("Missing configuration values: " +:+
                                     join LF (messages res))), r')
      else Some (Return (built res), r')
  end.

(** What [obj.toString()] gives for a plain object [obj] in a realm. *)
Inductive rendering : Type :=
| BuiltIn
| Sanitized (o : outcome MappedConfig)
| NotAFunction.

(** [obj.toString()]: an own property of that name comes first, and no
    [value] is a function; otherwise the call goes to
    [Object.prototype.toString], the built-in (which gives
    ["[object Object]"]) or the function that [verify] stored there. *)
Definition call_toString (r : realm) (obj : MappedConfig) : rendering :=
  match obj !! "toString" with
  | Some _ => NotAFunction
  | None =>
      match ObjectPrototype_toString r with
      | None => BuiltIn
      | Some f => Sanitized (toStringCurried (closure_secrets f) (closure_config f))
      end
  end.

(** ** Objects and references *)

(** The redactor on a heap, to tell a copy from a reference.  An object
    or an array is a cell of the heap; a property or an element holds a
    primitive value or the location of a cell. *)
Inductive prim : Type :=
| PUndef
| PNull
| PBool (b : bool)
| PNum (n : Z)
| PStr (s : string).

Inductive slot : Type :=
| Prim (p : prim)
| Ref (l : nat).

Inductive cell : Type :=
| Obj (props : gmap string slot)
| Arr (elems : list slot).

(** A heap grows by allocation at its end; no cell is ever removed. *)
Abbreviation heap := (list cell).

Definition value_of_prim (p : prim) : value :=
  match p with
  | PUndef => VUndef
  | PNull => VNull
  | PBool b => VBool b
  | PNum n => VNum n
  | PStr s => VStr s
  end.

(** The cell [c] holds a reference to [l]. *)
Definition points (c : cell) (l : nat) : Prop :=
  match c with
  | Obj props => ∃ k, props !! k = Some (Ref l)
  | Arr elems => Ref l ∈ elems
  end.

(** The locations that can be reached from a slot. *)
Inductive reach (h : heap) : slot → nat → Prop :=
| reach_here l : reach h (Ref l) l
| reach_step l c l' l'' :
    h !! l = Some c → points c l' → reach h (Ref l') l'' → reach h (Ref l) l''.

(** Every reference of the heap is to one of its cells. *)
Definition closed (h : heap) : Prop :=
  ∀ l c l', h !! l = Some c → points c l' → l' < length h.

Definition valid (h : heap) (s : slot) : Prop :=
  match s with
  | Ref l => l < length h
  | Prim _ => True
  end.

(** A map of options as an option of a map. *)
Definition all_Some {A} (m : gmap string (option A)) : option (gmap string A) :=
  if decide (map_Forall (λ _ o, is_Some o) m) then Some (omap id m) else None.

(** The value that a slot stands for, read to the depth [n]. *)
Fixpoint reify (n : nat) (h : heap) (s : slot) : option value :=
  match s with
  | Prim p => Some (value_of_prim p)
  | Ref l =>
      match n with
      | O => None
      | S n' =>
          match h !! l with
          | Some (Obj props) => VObj <$> all_Some (reify n' h <$> props)
          | Some (Arr elems) => VArr <$> mapM (reify n' h) elems
          | None => None
          end
      end
  end.

(** One step of the reduction over [Object.keys(groupedNestedSecrets)]:
    the recursive call for [parent], on the heap that the calls before
    it left, and its result under [parent] in the accumulator. *)
Definition nested_step (self : list string → slot → heap → outcome (nat * heap))
    (config0 : gmap string slot)
    (acc : outcome (gmap string nat * heap))
    (entry : string * list (option string)) : outcome (gmap string nat * heap) :=
  match acc with
  | Returns (nested, h) =>
      match all_defined entry.2 with
      | None => TypeError
      | Some cs' =>
          match self cs' (default (Prim PUndef) (config0 !! entry.1)) h with
          | Returns (l, h') => Returns (<[ entry.1 := l ]> nested, h')
          | TypeError => TypeError
          | OffType => OffType
          end
      end
  | TypeError => TypeError
  | OffType => OffType
  end.

(** The body of [recursiveToString] on the heap: [config] is a slot, and
    the object returned is a new cell.  The spread [...config] copies
    the slots of [config], references included. *)
Definition recursiveToString_at_body
    (self : list string → slot → heap → outcome (nat * heap))
    (secrets0 : list string) (cfg : slot) (h : heap) : outcome (nat * heap) :=
  let '(secretsAtThisLevel, deepSecrets) := seperateSecretsByNestLevel secrets0 in
  match cfg with
  | Prim PUndef | Prim PNull => TypeError
  | Prim _ => OffType
  | Ref l =>
      match h !! l with
      | Some (Obj config0) =>
          let secretKeys := filter (λ kv, kv.1 ∈ secretsAtThisLevel) config0 in
          match groupedNestedSecrets deepSecrets with
          | Returns grouped =>
              match foldl (nested_step self config0) (Returns (∅, h))
                      (map_to_list grouped) with
              | Returns (nested, h') =>
                  let nestedSanatizedSecrets := Ref <$> nested in
                  let sanatizedSecrets := (λ _, Prim (PStr "[secret]")) <$> secretKeys in
                  Returns (length h',
                           h' ++ [Obj (nestedSanatizedSecrets ∪ (sanatizedSecrets ∪ config0))])
              | TypeError => TypeError
              | OffType => OffType
              end
          | TypeError => TypeError
          | OffType => OffType
          end
      | _ => OffType
      end
  end.

Fixpoint recursiveToString_at_upto (n : nat)
  : list string → slot → heap → outcome (nat * heap) :=
  match n with
  | O => λ _ _ _, OffType
  | S n' => recursiveToString_at_body (recursiveToString_at_upto n')
  end.

(** [recursiveToString(secrets, config)] for the object at [cfg] in [h]:
    the location of the object returned, and the heap after the call. *)
Definition recursiveToString_at (secrets0 : list string) (cfg : slot) (h : heap)
  : outcome (nat * heap) :=
  recursiveToString_at_upto (depth_bound secrets0) secrets0 cfg h.

(** What [JSON.parse(JSON.stringify(config))] leaves behind: the heap
    [h1] extends the heap [h0] of the caller, [copy] is in [h1] and
    reaches new cells only, and it reads as the value [v]. *)
Definition parsed (h0 : heap) (v : value) (copy : slot) (h1 : heap) (m : nat) : Prop :=
  h0 `prefix_of` h1 ∧ closed h1 ∧ valid h1 copy
  ∧ (∀ l, reach h1 copy l → length h0 ≤ l)
  ∧ reify m h1 copy = Some v.

(** ** The notions of the specification *)

(** An environment value that is absent or the empty string. *)
Definition missing (env : Env) (key : string) : Prop :=
  env !! key = None ∨ env !! key = Some EmptyString.

#[global] Instance missing_dec env key : Decision (missing env key).
Proof. unfold missing. apply _. Defined.

(** A leaf that looks [envKey] up: a plain string, or a transform tuple. *)
Definition looks_up (n : node) (envKey : string) : Prop :=
  n = EnvKey envKey ∨ ∃ transformFn, n = Transform envKey transformFn.

(** The dotted path of a chain of keys. *)
Definition dotted (keys : list string) : string := join "." keys.

(** The lookups of a subtree in the order of a depth-first traversal
    that follows the order of the keys: the name looked up and the path
    of the leaf. *)
Fixpoint lookups (subPath : string) (n : node) : list (string * string) :=
  match n with
  | Insert _ => []
  | Transform envKey _ => [(envKey, subPath)]
  | EnvKey name => [(name, subPath)]
  | Nested props =>
      concat (map (λ e : string * maybeSecret node,
                     lookups (subPathOf subPath e.1) (payload e.2)) props)
  end.

Definition lookups_of (path : string) (cfg : ConfigWithEnvKeys)
  : list (string * string) :=
  concat (map (λ e : string * maybeSecret node,
                 lookups (subPathOf path e.1) (payload e.2)) cfg).

(** The error of a lookup that finds nothing. *)
Definition error_of (l : string * string) : Error :=
  mkError (missing_message l.1 l.2).

Definition is_secret {A} (m : maybeSecret A) : bool :=
  match m with SecretValue _ => true | Plain _ => false end.

(** The paths of the secret leaves of a subtree, in the same order. *)
Fixpoint secret_leaves (subPath : string) (wrapped : bool) (n : node) : list string :=
  match n with
  | Nested props =>
      concat (map (λ e : string * maybeSecret node,
                     secret_leaves (subPathOf subPath e.1) (is_secret e.2) (payload e.2))
                props)
  | _ => if wrapped then [subPath] else []
  end.

Definition secret_leaves_of (path : string) (cfg : ConfigWithEnvKeys) : list string :=
  concat (map (λ e : string * maybeSecret node,
                 secret_leaves (subPathOf path e.1) (is_secret e.2) (payload e.2)) cfg).

(** The schema is an object at every depth: no key occurs twice. *)
Inductive unique_keys : ConfigWithEnvKeys → Prop :=
| unique_keys_intro props :
    NoDup props.*1 →
    (∀ k ms sub, (k, ms) ∈ props → payload ms = Nested sub → unique_keys sub) →
    unique_keys props.

(** The resolved object [c] has the keys of the schema, at every depth. *)
Inductive same_keys : ConfigWithEnvKeys → MappedConfig → Prop :=
| same_keys_intro props (c : MappedConfig) :
    dom c = list_to_set props.*1 →
    (∀ k ms sub, (k, ms) ∈ props → payload ms = Nested sub →
       ∃ c', c !! k = Some (VObj c') ∧ same_keys sub c') →
    same_keys props c.

(** ** The redaction that the specification describes *)

(** A key that a dotted path can carry: without [.] and without a line
    terminator. *)
Fixpoint sep_free (s : string) : bool :=
  match s with
  | EmptyString => true
  | String c rest =>
      negb (Ascii.eqb c ".") && negb (line_terminator c) && sep_free rest
  end.

(** A chain of keys, from the root to a value. *)
Abbreviation chain := (list string).

Definition chain_ok (c : chain) : Prop :=
  c ≠ [] ∧ Forall (λ k, sep_free k = true) c.

(** The chains listed under the key [k], cut after it. *)
Definition below (k : string) (chains : list chain) : list chain :=
  chains ≫= λ c,
    match c with
    | k' :: (_ :: _) as t => if decide (k' = k) then [t] else []
    | _ => []
    end.

(** Redaction along chains of keys.  In an object, the value of a key
    with chains listed below it is redacted along those; otherwise it is
    replaced by the marker when the key itself is listed. *)
Fixpoint redact (chains : list chain) (v : value) {struct v} : value :=
  match v with
  | VObj props =>
      VObj (map_imap (λ k x,
              Some (match below k chains with
                    | [] => if decide ([k] ∈ chains) then marker else x
                    | deeper => redact deeper x
                    end)) props)
  | _ => v
  end.

(** [v[k1][k2]...], by own properties; [undefined] where there is none. *)
Fixpoint get_path (keys : chain) (v : value) : value :=
  match keys with
  | [] => v
  | k :: rest =>
      match v with
      | VObj props =>
          match props !! k with
          | Some x => get_path rest x
          | None => VUndef
          end
      | _ => VUndef
      end
  end.

(** The chain [keys], or a chain above it, is listed. *)
Definition listed_above (chains : list chain) (keys : chain) : Prop :=
  ∃ p, p ∈ chains ∧ p `prefix_of` keys.

(** A listed chain runs through [keys] and ends below it. *)
Definition listed_below (chains : list chain) (keys : chain) : Prop :=
  ∃ c, c ∈ chains ∧ keys `prefix_of` c ∧ keys ≠ c.

(** The value at [keys], or an object that holds it, shows as the marker. *)
Definition shown_as_marker (out : MappedConfig) (keys : chain) : Prop :=
  ∃ p, p ≠ [] ∧ p `prefix_of` keys ∧ get_path p (VObj out) = marker.

(** The guarantee of the redactor, for the secret paths [chains], the
    resolved configuration [input] and its sanitized form [out]: a value
    of the configuration shows as the marker when its chain or one above
    it is listed, and as it is serialized, [json_copy], when no listed
    chain is above it, at it or below it. *)
Definition redaction_exact (chains : list chain) (input out : MappedConfig) : Prop :=
  ∀ keys, keys ≠ [] →
    (listed_above chains keys → get_path keys (VObj input) ≠ VUndef →
       shown_as_marker out keys)
    ∧ (¬ listed_above chains keys → ¬ listed_below chains keys →
       get_path keys (VObj out) = json_copy (get_path keys (VObj input))).

(** No listed chain is above another. *)
Definition separate (chains : list chain) : Prop :=
  ∀ c c', c ∈ chains → c' ∈ chains → c `prefix_of` c' → c = c'.

(** The chain [keys] runs through objects of [v]: every key but the last
    is a property whose value is an object, under a name that
    [Object.prototype] does not have. *)
Fixpoint through_objects (keys : chain) (v : value) : Prop :=
  match keys with
  | k :: (_ :: _) as rest =>
      (k ∉ object_prototype_members) ∧
      match v with
      | VObj props =>
          match props !! k with
          | Some (VObj o) => through_objects rest (VObj o)
          | _ => False
          end
      | _ => False
      end
  | _ => True
  end.

(** ** Secret paths and the keys they name *)

(** A key that is not empty and carries no separator. *)
Definition plain_key (k : string) : Prop :=
  k ≠ EmptyString ∧ sep_free k = true.

(** The chain [keys] leads through own properties of [v]. *)
Fixpoint has_path (keys : chain) (v : value) : Prop :=
  match keys with
  | [] => True
  | k :: rest =>
      match v with
      | VObj props =>
          match props !! k with
          | Some x => has_path rest x
          | None => False
          end
      | _ => False
      end
  end.

(** The chains of keys of the secret leaves of a subtree, in the order
    of the traversal. *)
Fixpoint leaf_chains (wrapped : bool) (n : node) : list chain :=
  match n with
  | Nested props =>
      concat (map (λ e : string * maybeSecret node,
                     cons e.1 <$> leaf_chains (is_secret e.2) (payload e.2)) props)
  | _ => if wrapped then [[]] else []
  end.

Definition secret_chains (cfg : ConfigWithEnvKeys) : list chain :=
  leaf_chains false (Nested cfg).

(** A schema with unique plain keys at every depth, in which [secret]
    wraps leaves only. *)
Inductive secrets_on_leaves : ConfigWithEnvKeys → Prop :=
| secrets_on_leaves_intro props :
    NoDup props.*1 →
    Forall plain_key props.*1 →
    (∀ k ms sub, (k, ms) ∈ props → payload ms = Nested sub →
       is_secret ms = false ∧ secrets_on_leaves sub) →
    secrets_on_leaves props.

(** The recorded path [p] names a key of the resolved object: it is the
    dotted path of a chain of keys that leads to one; the chain has one
    key when [p] has no [.] and more otherwise, and then no object on the
    way is recorded as secret. *)
Definition references_key (r : Verified) (p : string) : Prop :=
  ∃ keys, keys ≠ [] ∧ dotted keys = p ∧ has_path keys (VObj (config r))
    ∧ (1 < length (split_dot p) ↔ 1 < length keys)
    ∧ ∀ q, q ≠ [] → q `prefix_of` keys → q ≠ keys → dotted q ∉ secrets r.

Definition recorded_paths_reference_keys (r : Verified) : Prop :=
  ∀ p, p ∈ secrets r → references_key r p.

(** No key of the schema, at any depth, is a name that [Object.prototype]
    has. *)
Inductive keys_not_inherited : ConfigWithEnvKeys → Prop :=
| keys_not_inherited_intro props :
    Forall (λ k, k ∉ object_prototype_members) props.*1 →
    (∀ k ms sub, (k, ms) ∈ props → payload ms = Nested sub → keys_not_inherited sub) →
    keys_not_inherited props.

(** ** Further notions *)

(** The string holds a [.]. *)
Fixpoint contains_dot (s : string) : bool :=
  match s with
  | EmptyString => false
  | String c rest => Ascii.eqb c "." || contains_dot rest
  end.

(** The node that the chain of keys [keys] leads to in a schema. *)
Inductive at_path : chain → ConfigWithEnvKeys → maybeSecret node → Prop :=
| at_path_here k ms cfg :
    (k, ms) ∈ cfg → at_path [k] cfg ms
| at_path_below k ms sub rest cfg target :
    (k, ms) ∈ cfg → payload ms = Nested sub → at_path rest sub target →
    at_path (k :: rest) cfg target.

(** The path that the resolver has built when it has gone down the keys
    [keys] from [path]: one [subPath] after another. *)
Definition descend (path : string) (keys : chain) : string :=
  foldl subPathOf path keys.

(** The schema with every [secret(...)] taken off. *)
Fixpoint unwrapped (n : node) : node :=
  match n with
  | Nested props =>
      Nested (map (λ e : string * maybeSecret node,
                     (e.1, Plain (unwrapped (payload e.2)))) props)
  | _ => n
  end.

Definition unwrapped_of (cfg : ConfigWithEnvKeys) : ConfigWithEnvKeys :=
  map (λ e : string * maybeSecret node, (e.1, Plain (unwrapped (payload e.2)))) cfg.

(** The lookups of a schema in the order of a depth-first traversal
    along the keys: the name looked up and the chain of keys of the
    leaf. *)
Fixpoint lookup_chains (n : node) : list (string * chain) :=
  match n with
  | Insert _ => []
  | Transform envKey _ => [(envKey, [])]
  | EnvKey name => [(name, [])]
  | Nested props =>
      concat (map (λ e : string * maybeSecret node,
                     (λ l : string * chain, (l.1, e.1 :: l.2)) <$>
                       lookup_chains (payload e.2)) props)
  end.

Definition lookup_chains_of (cfg : ConfigWithEnvKeys) : list (string * chain) :=
  lookup_chains (Nested cfg).

(** A chain of keys that does not go through an empty top-level key. *)
Definition rooted (keys : chain) : Prop :=
  ∀ rest, keys = EmptyString :: rest → rest = [].

(** The message of the error for the name [key], looked up by the leaf
    at the chain [keys]. *)
Definition message_at (key : string) (keys : chain) : string :=
  "environment value " +:+ key +:+ " is missing from config object at " +:+
  String.concat "." keys.

(** No lookup of the schema reads a member of [Object.prototype] for a
    value: a name of [inherited_values] that is looked up is a property
    of the environment. *)
Definition reads_own (env : Env) (cfg : ConfigWithEnvKeys) : Prop :=
  ∀ l, l ∈ lookup_chains_of cfg → l.1 ∈ inherited_values → is_Some (env !! l.1).

(** The calls of transform functions that a traversal makes, in its
    order: one for every transform tuple whose environment value is
    there and not empty. *)
Fixpoint calls (env : Env) (n : node) : list (completion value) :=
  match n with
  | Transform envKey transformFn =>
      match env !! envKey with
      | Some s => if String.length s =? 0 then [] else [transformFn s]
      | None => []
      end
  | Nested props =>
      concat (map (λ e : string * maybeSecret node, calls env (payload e.2)) props)
  | _ => []
  end.

Definition calls_of (env : Env) (cfg : ConfigWithEnvKeys) : list (completion value) :=
  calls env (Nested cfg).

(** What the first call that throws, throws. *)
Fixpoint first_thrown (cs : list (completion value)) : option thrown :=
  match cs with
  | [] => None
  | Return _ :: rest => first_thrown rest
  | Throw t :: _ => Some t
  end.


(** ** What a run returns *)

(** The values that a run of the resolver builds, as total functions: a
    lookup that stays in the model, and a transform function that
    returns.  A run that returns, returns these ([dispatch_ends]
    below); they say nothing about a run that throws or leaves the
    model. *)
Definition lookup_result (env : Env) (subPath key : string)
  : option string * list Error :=
  match env !! key with
  | None => (None, [mkError (missing_message key subPath)])
  | Some envValue =>
      if String.length envValue =? 0
      then (None, [mkError (missing_message key subPath)])
      else (Some envValue, [])
  end.

Definition call_result (c : completion value) : value :=
  match c with Return v => v | Throw _ => VUndef end.

Fixpoint node_result (env : Env) (key subPath : string) (secrets0 : list string)
    (value0 : node) {struct value0} : Mapped :=
  match value0 with
  | Insert v => ({[ key := v ]}, [], secrets0)
  | Transform envKey transformFn =>
      let '(envValue, errs) := lookup_result env subPath envKey in
      ({[ key := call_result (and_then envValue transformFn) ]}, errs, secrets0)
  | EnvKey name =>
      let '(envValue, errs) := lookup_result env subPath name in
      ({[ key := of_envValue envValue ]}, errs, secrets0)
  | Nested props =>
      let sub :=
        foldl reduceConf emptyVerified
          (map (λ entry : string * maybeSecret node,
                  let sp := subPathOf subPath entry.1 in
                  match entry.2 with
                  | SecretValue s => node_result env entry.1 sp [sp] s
                  | Plain v => node_result env entry.1 sp [] v
                  end) props) in
      ({[ key := VObj (config sub) ]}, errors sub, secrets sub)
  end.

Definition entry_result (env : Env) (path : string)
    (entry : string * maybeSecret node) : Mapped :=
  let key := entry.1 in
  let subPath := subPathOf path key in
  let '(value0, secrets0) := unwrapMaybeSecret entry.2 subPath in
  node_result env key subPath secrets0 value0.

Definition schema_result (env : Env) (cfg : ConfigWithEnvKeys) (path : string)
  : Verified :=
  foldl reduceConf emptyVerified (map (entry_result env path) cfg).

(** No lookup of the node reads a member of [Object.prototype] for a
    value. *)
Definition own_lookups (env : Env) (n : node) : Prop :=
  ∀ l, l ∈ lookup_chains n → l.1 ∈ inherited_values → is_Some (env !! l.1).

(** * Dotted paths *)

Lemma append_String c k r : String c k +:+ r = String c (k +:+ r).
Proof. reflexivity. Qed.

Lemma append_assoc a b c : (a +:+ b) +:+ c = a +:+ (b +:+ c).
Proof. induction a as [|x a IH]; [done|]. rewrite !append_String. by rewrite IH. Qed.

Lemma dotted_cons k t : t ≠ [] → dotted (k :: t) = k +:+ "." +:+ dotted t.
Proof. by destruct t. Qed.

Lemma dotted_empty t :
  dotted t = EmptyString → t = [] ∨ t = [EmptyString].
Proof.
  destruct t as [|k [|k' t]]; [by left| |].
  - cbn. intros ->. by right.
  - rewrite dotted_cons by done. by destruct k.
Qed.

Lemma dotted_snoc parents k :
  parents ≠ [] → dotted (parents ++ [k]) = dotted parents +:+ "." +:+ k.
Proof.
  induction parents as [|p parents IH]; [done|]. intros _.
  destruct parents as [|p' parents].
  - done.
  - change ((p :: p' :: parents) ++ [k]) with (p :: ((p' :: parents) ++ [k])).
    rewrite dotted_cons by done. rewrite IH by done.
    rewrite (dotted_cons p (p' :: parents)) by done.
    by rewrite !append_assoc.
Qed.

Lemma dotted_nonempty c :
  c ≠ [] → Forall (λ k, k ≠ EmptyString) c → dotted c ≠ EmptyString.
Proof.
  intros Hne Hall Hd. apply dotted_empty in Hd as [->| ->]; [done|].
  by apply Forall_cons in Hall as [? _].
Qed.

(** The path that the resolver computes below a chain of keys, none of
    them empty: the dotted path of the chain. *)
Lemma subPathOf_dotted parents k :
  Forall (λ k, k ≠ EmptyString) parents →
  subPathOf (dotted parents) k = dotted (parents ++ [k]).
Proof.
  intros Hall. unfold subPathOf. destruct parents as [|p parents]; [done|].
  rewrite dotted_snoc by done.
  pose proof (dotted_nonempty (p :: parents) ltac:(done) Hall) as Hne.
  destruct (dotted (p :: parents)); done.
Qed.

Lemma plain_keys_nonempty (c : list string) :
  Forall plain_key c → Forall (λ k, k ≠ EmptyString) c.
Proof. intros H. eapply Forall_impl; [exact H|]. by intros k [? _]. Qed.

(** * What a run returns *)

Section node_induction.
Variable P : node → Prop.
Hypothesis HInsert : ∀ v, P (Insert v).
Hypothesis HTransform : ∀ envKey transformFn, P (Transform envKey transformFn).
Hypothesis HEnvKey : ∀ name, P (EnvKey name).
Hypothesis HNested : ∀ props, Forall (λ e, P (payload e.2)) props → P (Nested props).

Fixpoint node_induction (n : node) : P n :=
  match n with
  | Insert v => HInsert v
  | Transform envKey transformFn => HTransform envKey transformFn
  | EnvKey name => HEnvKey name
  | Nested props =>
      HNested props
        ((fix go (l : list (string * maybeSecret node)) : Forall (λ e, P (payload e.2)) l :=
            match l with
            | [] => @List.Forall_nil _ _
            | e :: l' =>
                @List.Forall_cons _ (λ e, P (payload e.2)) e l'
                  (match e as e0 return P (payload e0.2) with
                   | (_, Plain a) => node_induction a
                   | (_, SecretValue a) => node_induction a
                   end)
                  (go l')
            end) props)
  end.
End node_induction.

Lemma entry_result_eq env path key ms :
  entry_result env path (key, ms) =
  node_result env key (subPathOf path key)
    (match ms with SecretValue _ => [subPathOf path key] | Plain _ => [] end)
    (payload ms).
Proof. destruct ms; reflexivity. Qed.

Lemma node_result_Nested env key subPath secrets0 props :
  node_result env key subPath secrets0 (Nested props) =
  let sub := schema_result env props subPath in
  ({[ key := VObj (config sub) ]}, errors sub, secrets sub).
Proof.
  cbn [node_result]. unfold schema_result.
  replace (map (entry_result env subPath) props) with
    (map (λ entry : string * maybeSecret node,
            let sp := subPathOf subPath entry.1 in
            match entry.2 with
            | SecretValue s => node_result env entry.1 sp [sp] s
            | Plain v => node_result env entry.1 sp [] v
            end) props); [done|].
  apply map_ext. intros [k [v|s]]; reflexivity.
Qed.

(** The value that [node_result] binds to the key. *)
Lemma node_result_singleton env key subPath secrets0 n :
  ∃ v, (node_result env key subPath secrets0 n).1.1 = {[ key := v ]}.
Proof.
  destruct n; cbn [node_result].
  - eauto.
  - destruct (lookup_result _ _ _); eauto.
  - destruct (lookup_result _ _ _); eauto.
  - eauto.
Qed.

Lemma entry_result_singleton env path e :
  ∃ v, (entry_result env path e).1.1 = {[ e.1 := v ]}.
Proof. destruct e as [k ms]. rewrite entry_result_eq. apply node_result_singleton. Qed.

(** [reduce(reduceConf, acc)] over a list of results. *)
Lemma foldl_reduceConf_errors ms acc :
  errors (foldl reduceConf acc ms) = errors acc ++ concat (map (λ m, m.1.2) ms).
Proof.
  revert acc. induction ms as [|[[c e] s] ms IH]; intros acc; cbn.
  - by rewrite app_nil_r.
  - rewrite IH. cbn. by rewrite <- app_assoc.
Qed.

Lemma foldl_reduceConf_secrets ms acc :
  secrets (foldl reduceConf acc ms) = secrets acc ++ concat (map (λ m, m.2) ms).
Proof.
  revert acc. induction ms as [|[[c e] s] ms IH]; intros acc; cbn.
  - by rewrite app_nil_r.
  - rewrite IH. cbn. by rewrite <- app_assoc.
Qed.

Lemma foldl_reduceConf_config ms acc :
  config (foldl reduceConf acc ms) = foldl (λ c m, m.1.1 ∪ c) (config acc) ms.
Proof.
  revert acc. induction ms as [|[[c e] s] ms IH]; intros acc; cbn; [done|].
  by rewrite IH.
Qed.

Lemma schema_result_errors env cfg path :
  errors (schema_result env cfg path) =
  concat (map (λ e, (entry_result env path e).1.2) cfg).
Proof.
  unfold schema_result. rewrite foldl_reduceConf_errors. cbn.
  by rewrite map_map.
Qed.

Lemma schema_result_secrets env cfg path :
  secrets (schema_result env cfg path) =
  concat (map (λ e, (entry_result env path e).2) cfg).
Proof.
  unfold schema_result. rewrite foldl_reduceConf_secrets. cbn.
  by rewrite map_map.
Qed.

(** The resolved object, key by key: a key that the schema does not have
    is absent, and the entry of a key decides its value. *)
Lemma foldl_union_lookup_notin env path (cfg : ConfigWithEnvKeys) c0 k :
  k ∉ cfg.*1 →
  foldl (λ c m, m.1.1 ∪ c) c0 (map (entry_result env path) cfg) !! k = c0 !! k.
Proof.
  revert c0. induction cfg as [|e cfg IH]; intros c0 Hk; cbn; [done|].
  rewrite fmap_cons in Hk. apply not_elem_of_cons in Hk as [Hne Hk].
  rewrite IH by done.
  destruct (entry_result_singleton env path e) as [v ->].
  rewrite lookup_union_r; [done|]. by rewrite lookup_singleton_ne.
Qed.

Lemma schema_result_lookup_notin env cfg path k :
  k ∉ cfg.*1 → config (schema_result env cfg path) !! k = None.
Proof.
  intros Hk. unfold schema_result. rewrite foldl_reduceConf_config.
  by rewrite foldl_union_lookup_notin.
Qed.

Lemma schema_result_lookup env cfg path k ms :
  NoDup cfg.*1 → (k, ms) ∈ cfg →
  config (schema_result env cfg path) !! k =
  (entry_result env path (k, ms)).1.1 !! k.
Proof.
  unfold schema_result. rewrite foldl_reduceConf_config. cbn [config emptyVerified].
  generalize (∅ : MappedConfig) as c0.
  induction cfg as [|e cfg IH]; intros c0 Hnd Hin; [by apply elem_of_nil in Hin|].
  rewrite fmap_cons in Hnd. apply NoDup_cons in Hnd as [Hnotin Hnd].
  apply elem_of_cons in Hin as [<-|Hin]; cbn.
  - rewrite foldl_union_lookup_notin by done.
    destruct (entry_result_singleton env path (k, ms)) as [v Hv].
    simpl in Hv. rewrite Hv. rewrite lookup_union_l'; [done|].
    rewrite lookup_singleton_eq. eauto.
  - by apply IH.
Qed.

Lemma schema_result_dom env cfg path :
  dom (config (schema_result env cfg path)) = list_to_set cfg.*1.
Proof.
  unfold schema_result. rewrite foldl_reduceConf_config. cbn [config emptyVerified].
  assert (∀ c0 : MappedConfig,
    dom (foldl (λ c m, m.1.1 ∪ c) c0 (map (entry_result env path) cfg))
    = list_to_set cfg.*1 ∪ dom c0) as H.
  { induction cfg as [|e cfg IH]; intros c0; cbn.
    - set_solver.
    - rewrite IH. destruct (entry_result_singleton env path e) as [v ->].
      rewrite dom_union_L, dom_singleton_L. set_solver. }
  rewrite H. set_solver.
Qed.

(** ** Leaves *)

Lemma lookup_result_missing env subPath key :
  missing env key →
  lookup_result env subPath key =
  (None, [mkError (missing_message key subPath)]).
Proof. unfold lookup_result. by intros [-> | ->]. Qed.

Lemma lookup_result_present env subPath key s :
  env !! key = Some s → s ≠ EmptyString →
  lookup_result env subPath key = (Some s, []).
Proof.
  unfold lookup_result. intros -> Hs.
  destruct s; [done|]. reflexivity.
Qed.

Lemma not_missing env key :
  ¬ missing env key ↔ ∃ s, env !! key = Some s ∧ s ≠ EmptyString.
Proof.
  unfold missing. split.
  - intros H. destruct (env !! key) as [s|]; [|tauto].
    exists s. split; [done|]. intros ->. tauto.
  - intros (s & -> & Hs) [?|?]; congruence.
Qed.

(** ** The traversal *)

Lemma node_result_errors env key subPath secrets0 n :
  (node_result env key subPath secrets0 n).1.2 =
  error_of <$> filter (λ l, missing env l.1) (lookups subPath n).
Proof.
  revert key subPath secrets0. induction n as [v|envKey fn|name|props IH] using node_induction;
    intros key subPath secrets0.
  - done.
  - cbn [node_result lookups]. rewrite filter_cons, filter_nil. cbn.
    destruct (decide (missing env envKey)) as [Hm|Hm].
    + by rewrite lookup_result_missing.
    + apply not_missing in Hm as (s & Hs & Hne).
      by rewrite (lookup_result_present _ _ _ s).
  - cbn [node_result lookups]. rewrite filter_cons, filter_nil. cbn.
    destruct (decide (missing env name)) as [Hm|Hm].
    + by rewrite lookup_result_missing.
    + apply not_missing in Hm as (s & Hs & Hne).
      by rewrite (lookup_result_present _ _ _ s).
  - rewrite node_result_Nested. cbn [fst snd lookups]. rewrite schema_result_errors.
    induction IH as [|e props Hhd Htl IHprops]; [done|]. destruct e as [k ms].
    cbn [map concat]. rewrite filter_app, fmap_app. f_equal; [|apply IHprops].
    rewrite entry_result_eq. apply Hhd.
Qed.

Lemma node_result_secrets env key subPath (wrapped : bool) n :
  (node_result env key subPath (if wrapped then [subPath] else []) n).2 =
  secret_leaves subPath wrapped n.
Proof.
  revert key subPath wrapped. induction n as [v|envKey fn|name|props IH] using node_induction;
    intros key subPath wrapped.
  - done.
  - cbn [node_result secret_leaves]. by destruct (lookup_result _ _ _).
  - cbn [node_result secret_leaves]. by destruct (lookup_result _ _ _).
  - rewrite node_result_Nested. cbn [fst snd secret_leaves]. rewrite schema_result_secrets.
    induction IH as [|e props Hhd Htl IHprops]; [done|]. destruct e as [k ms].
    cbn [map concat]. f_equal; [|apply IHprops].
    rewrite entry_result_eq. cbn [fst snd].
    specialize (Hhd k (subPathOf subPath k) (is_secret ms)). by destruct ms.
Qed.

Lemma schema_result_same_keys env cfg path :
  unique_keys cfg → same_keys cfg (config (schema_result env cfg path)).
Proof.
  intros Hu.
  cut (∀ n, ∀ sub, n = Nested sub → unique_keys sub →
         ∀ p, same_keys sub (config (schema_result env sub p))).
  { intros H. by apply (H (Nested cfg)). }
  clear. intros n. induction n as [v|envKey fn|name|props IH] using node_induction;
    intros sub Hn Hu p; try discriminate.
  injection Hn as ->. destruct Hu as [props Hnd Hsub].
  constructor; [apply schema_result_dom|].
  intros k ms sub Hin Hms.
  rewrite (schema_result_lookup _ _ _ _ _ Hnd Hin).
  rewrite entry_result_eq, Hms, node_result_Nested. cbn [fst].
  eexists. split; [apply lookup_singleton_eq|].
  rewrite Forall_forall in IH. apply (IH _ Hin); [done|]. eauto.
Qed.

(** * Properties of the redactor *)

(** ** Cutting a path *)

Lemma rest_of_line_length s : String.length (rest_of_line s) ≤ String.length s.
Proof. induction s as [|c s IH]; cbn; [lia|]. destruct (line_terminator c); cbn; lia. Qed.

Lemma seperateParentFromChildren_length s parent children :
  seperateParentFromChildren s = (parent, Some children) →
  String.length parent + String.length children < String.length s.
Proof.
  revert parent. induction s as [|c s IH]; intros parent; cbn; [done|].
  destruct (_ && _).
  - intros [= <- <-]. pose proof (rest_of_line_length s). cbn. lia.
  - destruct (seperateParentFromChildren s) as [p ch].
    intros [= <- ->]. specialize (IH p eq_refl). cbn. lia.
Qed.

(** ** [groupedNestedSecrets] *)

(** The [children] cut from the paths under [parent], in their order. *)
Definition children_of (parent : string) (cut : list (string * option string))
  : list (option string) :=
  (filter (λ pc, pc.1 = parent) cut).*2.

Lemma children_of_cons_eq parent c cut :
  children_of parent ((parent, c) :: cut) = c :: children_of parent cut.
Proof. unfold children_of. by rewrite filter_cons_True. Qed.

Lemma children_of_cons_ne parent p c cut :
  p ≠ parent → children_of parent ((p, c) :: cut) = children_of parent cut.
Proof. intros. unfold children_of. by rewrite filter_cons_False. Qed.

Lemma elem_of_children_of parent cut c :
  c ∈ children_of parent cut ↔ (parent, c) ∈ cut.
Proof.
  unfold children_of. rewrite list_elem_of_fmap. split.
  - intros ([p c'] & -> & [Hp Hin]%list_elem_of_filter). cbn in *. by subst.
  - intros Hin. exists (parent, c). split; [done|]. by apply list_elem_of_filter.
Qed.

Lemma foldl_group_step_TypeError cut : foldl group_step TypeError cut = TypeError.
Proof. by induction cut. Qed.

Lemma foldl_group_step_OffType cut : foldl group_step OffType cut = OffType.
Proof. by induction cut. Qed.

Lemma foldl_group_step_Returns cut acc grouped :
  foldl group_step (Returns acc) cut = Returns grouped →
  ∀ k, grouped !! k =
       match acc !! k with
       | Some cs => Some (cs ++ children_of k cut)
       | None => match children_of k cut with [] => None | cs => Some cs end
       end.
Proof.
  revert acc. induction cut as [|[p c] cut IH]; intros acc; cbn [foldl].
  - intros [= <-] k. destruct (acc !! k); [by rewrite app_nil_r|done].
  - cbn [group_step]. destruct (acc !! p) as [cs|] eqn:Hp.
    + intros H k. rewrite (IH _ H). destruct (decide (p = k)) as [<-|Hne].
      * rewrite lookup_insert_eq, Hp, children_of_cons_eq. by rewrite <- app_assoc.
      * by rewrite lookup_insert_ne, children_of_cons_ne.
    + case_bool_decide; [by rewrite foldl_group_step_TypeError|].
      intros Hf k. rewrite (IH _ Hf). destruct (decide (p = k)) as [<-|Hne].
      * by rewrite lookup_insert_eq, Hp, children_of_cons_eq.
      * by rewrite lookup_insert_ne, children_of_cons_ne.
Qed.

Lemma groupedNestedSecrets_Returns deep grouped :
  groupedNestedSecrets deep = Returns grouped →
  ∀ k, grouped !! k =
       match children_of k (seperateParentFromChildren <$> deep) with
       | [] => None
       | cs => Some cs
       end.
Proof.
  intros H k. unfold groupedNestedSecrets in H.
  by rewrite (foldl_group_step_Returns _ _ _ H), lookup_empty.
Qed.

Lemma foldl_group_step_total cut acc :
  Forall (λ pc, pc.1 ∉ object_prototype_members) cut →
  ∃ grouped, foldl group_step (Returns acc) cut = Returns grouped.
Proof.
  revert acc. induction cut as [|[p c] cut IH]; intros acc Hall; cbn [foldl]; [eauto|].
  apply Forall_cons in Hall as [Hp Hall]. cbn [group_step].
  destruct (acc !! p); [by apply IH|].
  rewrite bool_decide_eq_false_2 by done. by apply IH.
Qed.

(** What a group holds when every element of it is defined. *)
Lemma all_defined_Some cs cs' : all_defined cs = Some cs' ↔ cs = Some <$> cs'.
Proof.
  revert cs'. induction cs as [|[c|] cs IH]; intros cs'; cbn.
  - split; [by intros [= <-]|]. by destruct cs'.
  - destruct (all_defined cs) as [l|]; cbn.
    + split.
      * intros [= <-]. cbn. f_equal. by apply IH.
      * destruct cs' as [|c' l']; [done|]. intros [= -> H]. f_equal. f_equal.
        apply IH in H. congruence.
    + split; [done|]. destruct cs' as [|c' l']; [done|]. intros [= -> H].
      apply IH in H. done.
  - split; [done|]. by destruct cs'.
Qed.

(** ** [collect] *)

Lemma collect_Returns {A} (m : gmap string (outcome A)) r :
  collect m = Returns r ↔ m = Returns <$> r.
Proof.
  unfold collect. split.
  - destruct (decide _) as [Hall|]; [|by destruct (decide _)].
    intros [= <-]. apply map_eq. intros k. rewrite lookup_fmap, lookup_omap.
    destruct (m !! k) as [o|] eqn:Hk; [|done]. cbn.
    destruct (Hall k o Hk) as [a Ha]. destruct o; by simplify_eq/=.
  - intros ->. rewrite decide_True.
    + f_equal. apply map_eq. intros k. rewrite lookup_omap, lookup_fmap.
      by destruct (r !! k).
    + intros k o. rewrite lookup_fmap. destruct (r !! k); intros [= <-]. by eexists.
Qed.

(** ** One call *)

(** The call that the body makes for a parent. *)
Definition call_for (self : list string → value → outcome MappedConfig)
    (children : option (list (option string))) (child : option value)
  : option (outcome MappedConfig) :=
  match children with
  | None => None
  | Some cs =>
      Some match all_defined cs with
           | None => TypeError
           | Some cs' => self cs' (default VUndef child)
           end
  end.

(** The object returned: [{ ...config, ...sanatizedSecrets, ...nestedSanatizedSecrets }]. *)
Definition assembled (flat : list string) (nested : gmap string MappedConfig)
    (config0 : MappedConfig) : MappedConfig :=
  (VObj <$> nested) ∪ (((λ _, marker) <$> filter (λ kv, kv.1 ∈ flat) config0) ∪ config0).

(** A property of [{ ...config, ...sanatizedSecrets, ...nestedSanatizedSecrets }]. *)
Lemma lookup_spread {A B} (f : B → A) (mk : A) (flat : list string)
    (nested : gmap string B) (config0 : gmap string A) k :
  ((f <$> nested) ∪ (((λ _, mk) <$> filter (λ kv, kv.1 ∈ flat) config0) ∪ config0)) !! k =
  match nested !! k with
  | Some c => Some (f c)
  | None => (λ v, if decide (k ∈ flat) then mk else v) <$> config0 !! k
  end.
Proof.
  rewrite lookup_union, lookup_fmap.
  destruct (nested !! k) as [c|]; cbn.
  - by rewrite union_Some_l.
  - rewrite left_id_L by apply _. rewrite lookup_union, lookup_fmap.
    destruct (config0 !! k) as [v|] eqn:Hk; cbn.
    + destruct (decide (k ∈ flat)) as [Hin|Hin].
      * rewrite (proj2 (map_lookup_filter_Some _ _ k v)) by done. done.
      * rewrite (proj2 (map_lookup_filter_None _ _ k)); [done|].
        right. intros v' _. done.
    + rewrite (proj2 (map_lookup_filter_None _ _ k)); [done|]. by left.
Qed.

Lemma lookup_assembled flat nested config0 k :
  assembled flat nested config0 !! k =
  match nested !! k with
  | Some c => Some (VObj c)
  | None => (λ v, if decide (k ∈ flat) then marker else v) <$> config0 !! k
  end.
Proof. apply lookup_spread. Qed.

Lemma fmap_Returns_inj {A} (m1 m2 : gmap string A) :
  Returns <$> m1 = Returns <$> m2 → m1 = m2.
Proof.
  intros H. apply map_eq. intros k. apply (f_equal (.!! k)) in H.
  rewrite !lookup_fmap in H. destruct (m1 !! k), (m2 !! k); by simplify_eq/=.
Qed.

Lemma recursiveToString_body_VObj self secrets0 config0 out :
  recursiveToString_body self secrets0 (VObj config0) = Returns out ↔
  ∃ grouped nested,
    groupedNestedSecrets (seperateSecretsByNestLevel secrets0).2 = Returns grouped
    ∧ merge (call_for self) grouped config0 = Returns <$> nested
    ∧ out = assembled (seperateSecretsByNestLevel secrets0).1 nested config0.
Proof.
  unfold recursiveToString_body. cbn [seperateSecretsByNestLevel fst snd].
  fold (call_for self).
  destruct (groupedNestedSecrets _) as [grouped| |]; [|naive_solver..].
  destruct (collect _) as [nested| |] eqn:Hc.
  - apply collect_Returns in Hc. split.
    + intros [= <-]. by exists grouped, nested.
    + intros (g & n & [= <-] & Hm & ->). rewrite Hc in Hm.
      by rewrite (fmap_Returns_inj _ _ Hm).
  - split; [done|]. intros (g & n & [= <-] & Hm & _).
    apply collect_Returns in Hm. congruence.
  - split; [done|]. intros (g & n & [= <-] & Hm & _).
    apply collect_Returns in Hm. congruence.
Qed.

Lemma recursiveToString_body_Returns self secrets0 cfg out :
  recursiveToString_body self secrets0 cfg = Returns out →
  ∃ config0, cfg = VObj config0.
Proof. destruct cfg; try done. eauto. Qed.

(** The calls, parent by parent. *)
Lemma calls_lookup self grouped config0 (nested : gmap string MappedConfig) k :
  merge (call_for self) grouped config0 = Returns <$> nested →
  match grouped !! k with
  | None => nested !! k = None
  | Some cs =>
      ∃ cs' c, all_defined cs = Some cs'
               ∧ self cs' (default VUndef (config0 !! k)) = Returns c
               ∧ nested !! k = Some c
  end.
Proof.
  intros Hm. apply (f_equal (.!! k)) in Hm.
  rewrite lookup_merge, lookup_fmap in Hm.
  destruct (grouped !! k) as [cs|]; cbn in Hm.
  - destruct (config0 !! k), (nested !! k) as [c|]; cbn in Hm; try done;
      destruct (all_defined cs) as [cs'|]; try done; injection Hm as Hm; eauto.
  - destruct (config0 !! k), (nested !! k); cbn in Hm; done.
Qed.

(** ** Idempotence *)

Lemma recursiveToString_body_idempotent self secrets0 cfg out :
  (∀ cs v o, self cs v = Returns o → self cs (VObj o) = Returns o) →
  recursiveToString_body self secrets0 cfg = Returns out →
  recursiveToString_body self secrets0 (VObj out) = Returns out.
Proof.
  intros Hself H.
  destruct (recursiveToString_body_Returns _ _ _ _ H) as [config0 ->].
  apply recursiveToString_body_VObj in H as (grouped & nested & Hg & Hm & Hout).
  apply recursiveToString_body_VObj. exists grouped, nested.
  split; [done|]. split.
  - apply map_eq. intros k. pose proof (calls_lookup _ _ _ _ k Hm) as Hk.
    rewrite lookup_merge, lookup_fmap.
    destruct (grouped !! k) as [cs|].
    + destruct Hk as (cs' & c & Hcs & Hcall & Hn).
      rewrite Hn, Hout, lookup_assembled, Hn. cbn. rewrite Hcs.
      by rewrite (Hself _ _ _ Hcall).
    + rewrite Hk. by destruct (out !! k).
  - apply map_eq. intros k. rewrite lookup_assembled.
    rewrite Hout at 1. rewrite lookup_assembled.
    destruct (nested !! k) eqn:Hn; [done|].
    rewrite Hout, lookup_assembled, Hn.
    destruct (config0 !! k); cbn; [|done].
    by destruct (decide _).
Qed.

Lemma recursiveToString_upto_idempotent n secrets0 cfg out :
  recursiveToString_upto n secrets0 cfg = Returns out →
  recursiveToString_upto n secrets0 (VObj out) = Returns out.
Proof.
  revert secrets0 cfg out. induction n as [|n IH]; intros secrets0 cfg out; [done|].
  cbn [recursiveToString_upto]. apply recursiveToString_body_idempotent. apply IH.
Qed.


(** ** The bound is never used up *)

Lemma elem_of_deepSecrets secrets0 s :
  s ∈ (seperateSecretsByNestLevel secrets0).2 → s ∈ secrets0.
Proof. cbn. by intros [_ ?]%list_elem_of_filter. Qed.

(** The secrets of a recursive call are cut from secrets of the caller. *)
Lemma group_is_cut secrets0 grouped k cs cs' c :
  groupedNestedSecrets (seperateSecretsByNestLevel secrets0).2 = Returns grouped →
  grouped !! k = Some cs → all_defined cs = Some cs' → c ∈ cs' →
  ∃ s, s ∈ (seperateSecretsByNestLevel secrets0).2
       ∧ seperateParentFromChildren s = (k, Some c).
Proof.
  intros Hg Hk Hcs Hc. rewrite (groupedNestedSecrets_Returns _ _ Hg) in Hk.
  apply all_defined_Some in Hcs as ->.
  assert (Some c ∈ children_of k (seperateParentFromChildren <$>
            (seperateSecretsByNestLevel secrets0).2)) as Hin.
  { destruct (children_of _ _); [done|]. injection Hk as ->.
    by apply list_elem_of_fmap_2. }
  apply elem_of_children_of, list_elem_of_fmap in Hin as (s & Hs & Hin). eauto.
Qed.

Lemma group_nonempty deep grouped k cs cs' :
  groupedNestedSecrets deep = Returns grouped →
  grouped !! k = Some cs → all_defined cs = Some cs' → cs' ≠ [].
Proof.
  intros Hg Hk Hcs. rewrite (groupedNestedSecrets_Returns _ _ Hg) in Hk.
  apply all_defined_Some in Hcs as ->. destruct cs'; [|done].
  cbn in Hk. by destruct (children_of _ _).
Qed.

Lemma recursiveToString_body_ext self1 self2 secrets0 cfg :
  (∀ cs v,
     cs ≠ [] →
     (∀ c, c ∈ cs → ∃ s p, s ∈ secrets0 ∧ seperateParentFromChildren s = (p, Some c)) →
     self1 cs v = self2 cs v) →
  recursiveToString_body self1 secrets0 cfg = recursiveToString_body self2 secrets0 cfg.
Proof.
  intros Hext. unfold recursiveToString_body.
  change (seperateSecretsByNestLevel secrets0) with
    ((seperateSecretsByNestLevel secrets0).1, (seperateSecretsByNestLevel secrets0).2).
  cbv beta iota. destruct cfg as [| | | | | |config0]; try done.
  destruct (groupedNestedSecrets _) as [grouped| |] eqn:Hg; try done.
  fold (call_for self1). fold (call_for self2).
  replace (merge (call_for self1) grouped config0)
    with (merge (call_for self2) grouped config0); [done|].
  apply map_eq. intros k. rewrite !lookup_merge.
  destruct (grouped !! k) as [cs|] eqn:Hk; [|done]. cbn.
  destruct (all_defined cs) as [cs'|] eqn:Hcs; [|done].
  rewrite Hext; [by destruct (config0 !! k)| |].
  - by eapply group_nonempty.
  - intros c Hc. destruct (group_is_cut _ _ _ _ _ _ Hg Hk Hcs Hc) as (s & Hs & Hcut).
    exists s, k. split; [|done]. by apply elem_of_deepSecrets.
Qed.

Lemma recursiveToString_upto_enough n m secrets0 cfg :
  (∀ s, s ∈ secrets0 → String.length s < n) →
  (∀ s, s ∈ secrets0 → String.length s < m) →
  0 < n → 0 < m →
  recursiveToString_upto n secrets0 cfg = recursiveToString_upto m secrets0 cfg.
Proof.
  revert m secrets0 cfg. induction n as [|n IH]; intros m secrets0 cfg Hn Hm Hn0 Hm0; [lia|].
  destruct m as [|m]; [lia|]. cbn [recursiveToString_upto].
  apply recursiveToString_body_ext. intros cs v Hne Hcut.
  assert (∀ c, c ∈ cs → String.length c < n ∧ String.length c < m) as Hlen.
  { intros c Hc. destruct (Hcut c Hc) as (s & p & Hs & Hsplit).
    apply seperateParentFromChildren_length in Hsplit.
    specialize (Hn s Hs). specialize (Hm s Hs). lia. }
  destruct cs as [|c0 cs0]; [done|].
  destruct (Hlen c0) as [? ?]; [by left|].
  apply IH; try lia; intros s Hs; by apply Hlen.
Qed.

Lemma depth_bound_above secrets0 s :
  s ∈ secrets0 → String.length s < depth_bound secrets0.
Proof.
  unfold depth_bound. induction secrets0 as [|s0 l IH]; [by intros ?%elem_of_nil|].
  intros [->|Hin]%elem_of_cons; cbn; [lia|]. specialize (IH Hin). lia.
Qed.

(** The equation of the source: [recursiveToString] calls itself. *)
Theorem recursiveToString_unfold secrets0 cfg :
  recursiveToString secrets0 cfg =
  recursiveToString_body recursiveToString secrets0 cfg.
Proof.
  unfold recursiveToString at 1. unfold depth_bound. cbn [recursiveToString_upto].
  apply recursiveToString_body_ext. intros cs v Hne Hcut.
  assert (∀ c, c ∈ cs →
            String.length c < foldr (λ s, Nat.max (String.length s)) 0 secrets0) as Hlen.
  { intros c Hc. destruct (Hcut c Hc) as (s & p & Hs & Hsplit).
    apply seperateParentFromChildren_length in Hsplit.
    pose proof (depth_bound_above _ _ Hs) as Hb. unfold depth_bound in Hb. lia. }
  destruct cs as [|c0 cs0]; [done|].
  pose proof (Hlen c0 ltac:(by left)).
  apply recursiveToString_upto_enough; try done; try lia.
  - apply depth_bound_above.
  - unfold depth_bound. lia.
Qed.

(** ** Dotted paths of chains *)

Lemma split_dot_nonempty s : split_dot s ≠ [].
Proof.
  destruct s as [|c s]; cbn [split_dot]; [done|].
  destruct (Ascii.eqb c "."); [done|]. by destruct (split_dot s).
Qed.

Lemma split_dot_sep_free k : sep_free k = true → split_dot k = [k].
Proof.
  induction k as [|c k IH]; cbn [split_dot sep_free]; [done|].
  intros [[Hc _]%andb_true_iff Hk]%andb_true_iff.
  apply negb_true_iff in Hc. rewrite Hc, (IH Hk). done.
Qed.

Lemma split_dot_app k rest :
  sep_free k = true → split_dot (k +:+ "." +:+ rest) = k :: split_dot rest.
Proof.
  induction k as [|c k IH]; [done|]. rewrite ?(append_String c k); cbn [split_dot sep_free].
  intros [[Hc _]%andb_true_iff Hk]%andb_true_iff.
  apply negb_true_iff in Hc. rewrite Hc, (IH Hk). done.
Qed.

(** A dotted path has a [.] when its chain has two keys or more. *)
Lemma nested_dotted c :
  chain_ok c → 1 < length (split_dot (dotted c)) ↔ 1 < length c.
Proof.
  intros [Hne Hall]. destruct c as [|k [|k' t]]; [done| |].
  - apply Forall_cons in Hall as [Hk _]. cbn [dotted join].
    rewrite split_dot_sep_free by done. done.
  - apply Forall_cons in Hall as [Hk _]. rewrite dotted_cons by done.
    rewrite split_dot_app by done. cbn [length].
    pose proof (split_dot_nonempty (dotted (k' :: t))).
    destruct (split_dot _); [done|]. cbn [length]. split; lia.
Qed.

Lemma rest_of_line_app a b :
  sep_free a = true → rest_of_line (a +:+ b) = a +:+ rest_of_line b.
Proof.
  induction a as [|c a IH]; [done|]. rewrite (append_String c a); cbn [rest_of_line sep_free].
  intros [[_ Hc]%andb_true_iff Ha]%andb_true_iff.
  apply negb_true_iff in Hc. rewrite Hc, (IH Ha). done.
Qed.

Lemma rest_of_line_sep_free k : sep_free k = true → rest_of_line k = k.
Proof.
  induction k as [|c k IH]; [done|]. cbn [rest_of_line sep_free].
  intros [[_ Hc]%andb_true_iff Hk]%andb_true_iff.
  apply negb_true_iff in Hc. rewrite Hc, (IH Hk). done.
Qed.

Lemma rest_of_line_dotted t :
  Forall (λ k, sep_free k = true) t → rest_of_line (dotted t) = dotted t.
Proof.
  induction t as [|k t IH]; [done|]. intros [Hk Ht]%Forall_cons.
  destruct t as [|k' t].
  - by apply rest_of_line_sep_free.
  - rewrite dotted_cons by done. rewrite rest_of_line_app by done.
    f_equal. change ("." +:+ dotted (k' :: t)) with (String "." (dotted (k' :: t))).
    cbn [rest_of_line]. change (line_terminator ".") with false. cbv iota.
    f_equal. by apply IH.
Qed.

Lemma seperateParentFromChildren_app k rest :
  sep_free k = true → rest ≠ EmptyString → rest_of_line rest = rest →
  seperateParentFromChildren (k +:+ "." +:+ rest) = (k, Some rest).
Proof.
  intros Hk Hne Hrest.
  induction k as [|c k IH]; rewrite ?(append_String c k); cbn [seperateParentFromChildren].
  - change (EmptyString +:+ "." +:+ rest) with (String "." rest).
    cbn [seperateParentFromChildren]. destruct rest as [|d rest]; [done|].
    cbn [rest_of_line] in Hrest. destruct (line_terminator d) eqn:Hd; [done|].
    cbn [rest_of_line]. rewrite Hd. cbn. congruence.
  - cbn [sep_free] in Hk. apply andb_true_iff in Hk as [[Hc _]%andb_true_iff Hk].
    apply negb_true_iff in Hc. rewrite Hc. cbn [andb]. by rewrite (IH Hk).
Qed.

Lemma seperateParentFromChildren_trailing k :
  sep_free k = true →
  seperateParentFromChildren (k +:+ ".") = (k +:+ ".", None).
Proof.
  induction k as [|c k IH]; [done|]. rewrite (append_String c k); cbn [seperateParentFromChildren sep_free].
  intros [[Hc _]%andb_true_iff Hk]%andb_true_iff.
  apply negb_true_iff in Hc. rewrite Hc. cbn [andb]. by rewrite (IH Hk).
Qed.

(** How a listed path of two keys or more is cut. *)
Lemma seperateParentFromChildren_dotted k t :
  chain_ok (k :: t) → t ≠ [] →
  seperateParentFromChildren (dotted (k :: t)) =
  if decide (t = [EmptyString]) then (k +:+ ".", None) else (k, Some (dotted t)).
Proof.
  intros [_ [Hk Ht]%Forall_cons] Hne. rewrite dotted_cons by done.
  case_decide as Hempty.
  - subst t. cbn. by apply seperateParentFromChildren_trailing.
  - apply seperateParentFromChildren_app; [done| |by apply rest_of_line_dotted].
    intros [?|?]%dotted_empty; done.
Qed.

(** ** The secrets of a list of chains *)

Lemma elem_of_below k chains t :
  t ∈ below k chains ↔ t ≠ [] ∧ k :: t ∈ chains.
Proof.
  unfold below. rewrite list_elem_of_bind. split.
  - intros (c & Hin & Hc). destruct c as [|k' [|k'' t']]; try by apply elem_of_nil in Hin.
    case_decide as Hk; [|by apply elem_of_nil in Hin].
    apply list_elem_of_singleton in Hin as ->. by subst.
  - intros [Hne Hin]. exists (k :: t). split; [|done].
    destruct t as [|k' t]; [done|]. rewrite decide_True by done. by left.
Qed.

Lemma below_ok k chains :
  Forall chain_ok chains → Forall chain_ok (below k chains).
Proof.
  rewrite !Forall_forall. intros Hall t [Hne Hin]%elem_of_below.
  destruct (Hall _ Hin) as [_ [_ Ht]%Forall_cons]. done.
Qed.

Lemma flat_of_chains chains k :
  Forall chain_ok chains →
  k ∈ (seperateSecretsByNestLevel (dotted <$> chains)).1 ↔ [k] ∈ chains.
Proof.
  intros Hall. cbn [seperateSecretsByNestLevel fst].
  rewrite list_elem_of_filter, list_elem_of_filter, list_elem_of_fmap.
  rewrite Forall_forall in Hall. split.
  - intros [Hnot (c & -> & Hin)].
    assert (¬ 1 < length c) as Hlen.
    { intros Hlen. apply Hnot. split; [|by exists c].
      by apply nested_dotted; [apply Hall|]. }
    destruct (Hall _ Hin) as [Hne _].
    destruct c as [|k [|k' t]]; [done|done|]. cbn in Hlen. lia.
  - intros Hin. split; [|by exists [k]].
    intros [Hnested _]. apply (nested_dotted [k]) in Hnested; [cbn in Hnested; lia|].
    by apply Hall.
Qed.

Lemma deep_of_chains k chains :
  Forall chain_ok chains →
  (∀ k', [k'; EmptyString] ∉ chains) →
  children_of k (seperateParentFromChildren <$>
                   (seperateSecretsByNestLevel (dotted <$> chains)).2)
  = (λ t, Some (dotted t)) <$> below k chains.
Proof.
  cbn [seperateSecretsByNestLevel snd].
  induction chains as [|c chains IH]; intros Hall Htrail; [done|].
  apply Forall_cons in Hall as [Hc Hall].
  assert (∀ k', [k'; EmptyString] ∉ chains) as Htrail'.
  { intros k' Hin. apply (Htrail k'). by right. }
  specialize (IH Hall Htrail').
  rewrite fmap_cons, filter_cons. unfold below. rewrite bind_cons. fold (below k chains).
  rewrite fmap_app, <- IH. clear IH.
  destruct c as [|k1 [|k2 t]].
  - by destruct Hc.
  - rewrite decide_False; [done|]. rewrite (nested_dotted [k1]) by done. cbn. lia.
  - rewrite decide_True by (rewrite nested_dotted by done; cbn; lia).
    rewrite fmap_cons, seperateParentFromChildren_dotted by done.
    rewrite decide_False.
    2:{ intros [= -> ->]. apply (Htrail k1). by left. }
    case_decide as Hk.
    + subst k1. by rewrite children_of_cons_eq.
    + by rewrite children_of_cons_ne.
Qed.

(** A chain that ends in an empty key after another key has a path
    that ends in [.], for which [children] is [undefined]: no call
    returns with it. *)
Lemma returns_no_trailing self chains grouped config0 (nested : gmap string MappedConfig) :
  Forall chain_ok chains →
  groupedNestedSecrets (seperateSecretsByNestLevel (dotted <$> chains)).2
    = Returns grouped →
  merge (call_for self) grouped config0 = Returns <$> nested →
  ∀ k, [k; EmptyString] ∉ chains.
Proof.
  intros Hall Hg Hm k Hin. rewrite Forall_forall in Hall.
  pose proof (Hall _ Hin) as Hok.
  assert ((k +:+ ".", None) ∈ seperateParentFromChildren <$>
            (seperateSecretsByNestLevel (dotted <$> chains)).2) as Hcut.
  { apply list_elem_of_fmap. exists (dotted [k; EmptyString]). split.
    - rewrite seperateParentFromChildren_dotted by done. by rewrite decide_True.
    - cbn [seperateSecretsByNestLevel snd]. apply list_elem_of_filter. split.
      + rewrite nested_dotted by done. cbn. lia.
      + by apply list_elem_of_fmap_2. }
  apply elem_of_children_of in Hcut.
  pose proof (groupedNestedSecrets_Returns _ _ Hg (k +:+ ".")) as Hk.
  pose proof (calls_lookup _ _ _ _ (k +:+ ".") Hm) as Hcall.
  destruct (children_of _ _) as [|c0 cs0] eqn:Hch; [by apply elem_of_nil in Hcut|].
  rewrite Hk in Hcall. destruct Hcall as (cs' & _ & Hdef%all_defined_Some & _).
  rewrite Hdef in Hcut. apply list_elem_of_fmap in Hcut as (? & ? & _). done.
Qed.

(** ** The redactor redacts along the chains *)

Lemma defined_children (l : list chain) cs' :
  (λ t, Some (dotted t)) <$> l = Some <$> cs' → cs' = dotted <$> l.
Proof.
  revert cs'. induction l as [|t l IH]; intros [|c cs']; try done.
  rewrite !fmap_cons. intros [= <- H]. f_equal. by apply IH.
Qed.

Lemma recursiveToString_upto_redact n chains config0 out :
  Forall chain_ok chains →
  recursiveToString_upto n (dotted <$> chains) (VObj config0) = Returns out →
  VObj out = redact chains (VObj config0).
Proof.
  revert chains config0 out. induction n as [|n IH]; intros chains config0 out Hall; [done|].
  cbn [recursiveToString_upto]. intros H.
  apply recursiveToString_body_VObj in H as (grouped & nested & Hg & Hm & ->).
  pose proof (returns_no_trailing _ _ _ _ _ Hall Hg Hm) as Htrail.
  cbn [redact]. f_equal. apply map_eq. intros k.
  rewrite lookup_assembled, map_lookup_imap.
  pose proof (calls_lookup _ _ _ _ k Hm) as Hcall.
  rewrite (groupedNestedSecrets_Returns _ _ Hg), deep_of_chains in Hcall by done.
  destruct (below k chains) as [|d ds] eqn:Hb; cbn [fmap list_fmap] in Hcall.
  - rewrite Hcall. destruct (config0 !! k) as [x|]; [|done].
    cbn [fmap option_fmap option_map mbind option_bind]. f_equal.
    pose proof (flat_of_chains chains k Hall) as Hflat.
    destruct (decide (k ∈ _)), (decide ([k] ∈ chains)); try done; tauto.
  - destruct Hcall as (cs' & c & Hdef & Hself & ->).
    apply all_defined_Some in Hdef.
    apply (defined_children (d :: ds)) in Hdef as ->.
    destruct n as [|n']; [done|].
    destruct (recursiveToString_body_Returns _ _ _ _ Hself) as [c0 Hc0].
    destruct (config0 !! k) as [x|]; simpl in Hc0; [|done]. subst x.
    cbn [mbind option_bind]. f_equal. apply IH in Hself; [done|].
    rewrite <- Hb. by apply below_ok.
Qed.

(** ** Reading the redacted object *)

Lemma get_path_VUndef keys : get_path keys VUndef = VUndef.
Proof. by destruct keys. Qed.

Lemma json_copy_VUndef v : json_copy v = VUndef ↔ v = VUndef.
Proof. by destruct v. Qed.

Lemma get_path_json_copy keys v :
  get_path keys (json_copy v) = json_copy (get_path keys v).
Proof.
  revert v. induction keys as [|k rest IH]; intros v; [done|].
  destruct v as [| | | | | |props]; try done.
  cbn [json_copy get_path]. rewrite lookup_omap.
  destruct (props !! k) as [x|]; [|done]. cbn [mbind option_bind].
  rewrite <- IH. destruct x; try done. by rewrite get_path_VUndef.
Qed.

Lemma lookup_redact chains props k :
  match redact chains (VObj props) with
  | VObj props' =>
      props' !! k =
      (λ x, match below k chains with
            | [] => if decide ([k] ∈ chains) then marker else x
            | deeper => redact deeper x
            end) <$> props !! k
  | _ => False
  end.
Proof. cbn [redact]. rewrite map_lookup_imap. by destruct (props !! k). Qed.

Lemma get_path_redact_cons chains props k rest :
  get_path (k :: rest) (redact chains (VObj props)) =
  match props !! k with
  | Some x =>
      get_path rest
        match below k chains with
        | [] => if decide ([k] ∈ chains) then marker else x
        | deeper => redact deeper x
        end
  | None => VUndef
  end.
Proof.
  pose proof (lookup_redact chains props k) as H. cbn [redact] in *.
  cbn [get_path]. rewrite H. by destruct (props !! k).
Qed.

Lemma separate_below k chains : separate chains → separate (below k chains).
Proof.
  intros Hsep c c' [_ Hc]%elem_of_below [_ Hc']%elem_of_below Hpre.
  assert (k :: c = k :: c') as [= ->]; [|done].
  apply Hsep; [done..|]. by apply prefix_cons.
Qed.

(** A value under a listed chain shows as the marker. *)
Lemma redact_listed_above chains keys v :
  [] ∉ chains → separate chains →
  listed_above chains keys → get_path keys v ≠ VUndef →
  ∃ p, p ≠ [] ∧ p `prefix_of` keys ∧ get_path p (redact chains v) = marker.
Proof.
  revert chains v. induction keys as [|k rest IH]; intros chains v Hnil Hsep (p & Hp & Hpre) Hv.
  { apply prefix_nil_inv in Hpre as ->. done. }
  destruct p as [|k' p']; [done|].
  pose proof (prefix_cons_inv_1 _ _ _ _ Hpre) as ->.
  apply prefix_cons_inv_2 in Hpre.
  destruct v as [| | | | | |props]; try done.
  cbn [get_path] in Hv. destruct (props !! k) as [x|] eqn:Hk; [|done].
  destruct p' as [|k2 p2].
  - exists [k]. split; [done|]. split; [by apply prefix_cons, prefix_nil|].
    rewrite get_path_redact_cons, Hk.
    destruct (below k chains) as [|d ds] eqn:Hb.
    + by rewrite decide_True.
    + assert (d ∈ below k chains) as [Hd Hin]%elem_of_below by (rewrite Hb; by left).
      specialize (Hsep [k] (k :: d) Hp Hin (prefix_cons _ _ _ (prefix_nil _))).
      by injection Hsep as <-.
  - assert (k2 :: p2 ∈ below k chains) as Hin by by apply elem_of_below.
    destruct (IH (below k chains) x) as (q & Hq & Hqpre & Hm).
    + by intros [? _]%elem_of_below.
    + by apply separate_below.
    + by exists (k2 :: p2).
    + done.
    + exists (k :: q). split; [done|]. split; [by apply prefix_cons|].
      rewrite get_path_redact_cons, Hk.
      destruct (below k chains); [by apply elem_of_nil in Hin|done].
Qed.

(** A value with no listed chain above it, at it or below it is as it was. *)
Lemma redact_not_listed chains keys v :
  keys ≠ [] → ¬ listed_above chains keys → ¬ listed_below chains keys →
  get_path keys (redact chains v) = get_path keys v.
Proof.
  revert chains v. induction keys as [|k rest IH]; intros chains v Hne Habove Hbelow; [done|].
  destruct v as [| | | | | |props]; try done.
  rewrite get_path_redact_cons. cbn [get_path].
  destruct (props !! k) as [x|]; [|done].
  destruct (below k chains) as [|d ds] eqn:Hb.
  - rewrite decide_False; [done|]. intros Hin. apply Habove.
    exists [k]. split; [done|]. by apply prefix_cons, prefix_nil.
  - destruct rest as [|k2 rest2].
    + exfalso. apply Hbelow.
      assert (d ∈ below k chains) as [Hd Hin]%elem_of_below by (rewrite Hb; by left).
      exists (k :: d). split; [done|]. split; [by apply prefix_cons, prefix_nil|].
      intros [= <-]. done.
    + rewrite <- Hb. apply IH; [done| |].
      * intros (p & [Hp Hin]%elem_of_below & Hpre). apply Habove.
        exists (k :: p). split; [done|]. by apply prefix_cons.
      * intros (c & [Hc Hin]%elem_of_below & Hpre & Hneq). apply Hbelow.
        exists (k :: c). split; [done|]. split; [by apply prefix_cons|]. congruence.
Qed.
(** ** The copy of a copy *)

Fixpoint value_size (v : value) : nat :=
  match v with
  | VArr xs => S (foldr (λ x n, value_size x + n) 0 xs)
  | VObj props => S (map_fold (λ _ x n, value_size x + n) 0 props)
  | _ => 0
  end.

Lemma value_size_property (props : MappedConfig) k x :
  props !! k = Some x → value_size x < value_size (VObj props).
Proof.
  intros Hk. cbn [value_size].
  rewrite <- (insert_delete_id props k x) by done.
  rewrite map_fold_insert_L.
  - lia.
  - intros. lia.
  - apply lookup_delete_eq.
Qed.

Lemma value_size_element xs x :
  x ∈ xs → value_size x < value_size (VArr xs).
Proof.
  cbn [value_size]. induction xs as [|y xs IH]; [by intros ?%elem_of_nil|].
  intros [->|Hin]%elem_of_cons; cbn; [lia|]. specialize (IH Hin). lia.
Qed.

(** Induction on a value, through the properties of an object and the
    elements of an array. *)
Lemma value_induction (P : value → Prop) :
  (∀ v,
     (∀ props k x, v = VObj props → props !! k = Some x → P x) →
     (∀ xs x, v = VArr xs → x ∈ xs → P x) →
     P v) →
  ∀ v, P v.
Proof.
  intros Hstep v. remember (S (value_size v)) as n eqn:Hn.
  assert (value_size v < n) as Hlt by lia. clear Hn. revert v Hlt.
  induction n as [|n IH]; intros v Hlt; [lia|]. apply Hstep.
  - intros props k x -> Hk. apply IH.
    pose proof (value_size_property _ _ _ Hk). lia.
  - intros xs x -> Hx. apply IH.
    pose proof (value_size_element _ _ Hx). lia.
Qed.

Lemma json_copy_idempotent v : json_copy (json_copy v) = json_copy v.
Proof.
  induction v as [v IHobj IHarr] using value_induction.
  destruct v as [| | | | |xs|props]; try done.
  - cbn [json_copy]. f_equal. rewrite map_map. apply map_ext_in.
    intros x Hx%list_elem_of_In. specialize (IHarr xs x eq_refl Hx).
    destruct x; try done; exact IHarr.
  - cbn [json_copy]. f_equal. apply map_eq. intros k. rewrite !lookup_omap.
    destruct (props !! k) as [x|] eqn:Hk; [|done]. cbn.
    specialize (IHobj props k x eq_refl Hk).
    destruct x; try done; cbn [mbind option_bind]; f_equal; exact IHobj.
Qed.

(** An object that serialization leaves as it is. *)
Definition json_clean (c : MappedConfig) : Prop := json_copy (VObj c) = VObj c.

Lemma json_clean_lookup (c : MappedConfig) :
  json_clean c ↔ ∀ k x, c !! k = Some x → x ≠ VUndef ∧ json_copy x = x.
Proof.
  unfold json_clean. cbn [json_copy]. split.
  - intros [= Hc] k x Hk. apply (f_equal (.!! k)) in Hc.
    rewrite lookup_omap, Hk in Hc. cbn [mbind option_bind] in Hc.
    split; [by intros ->|]. destruct x; try done; congruence.
  - intros Hc. f_equal. apply map_eq. intros k. rewrite lookup_omap.
    destruct (c !! k) as [x|] eqn:Hk; [|done]. cbn.
    destruct (Hc _ _ Hk) as [Hne ->]. by destruct x.
Qed.

Lemma recursiveToString_body_clean self secrets0 (c out : MappedConfig) :
  (∀ cs v o, json_copy v = v → self cs v = Returns o → json_clean o) →
  json_clean c →
  recursiveToString_body self secrets0 (VObj c) = Returns out →
  json_clean out.
Proof.
  intros Hself Hc (grouped & nested & Hg & Hm & ->)%recursiveToString_body_VObj.
  rewrite json_clean_lookup in Hc. apply json_clean_lookup. intros k x.
  rewrite lookup_assembled. pose proof (calls_lookup _ _ _ _ k Hm) as Hk.
  destruct (nested !! k) as [o|] eqn:Hn.
  - intros [= <-]. split; [done|].
    destruct (grouped !! k) as [cs|]; [|done].
    destruct Hk as (cs' & o' & _ & Hcall & [= <-]).
    apply Hself in Hcall; [done|].
    destruct (c !! k) as [x|] eqn:Hx; [|done]. by destruct (Hc k x Hx).
  - destruct (c !! k) as [y|] eqn:Hy; [|done]. cbn.
    destruct (decide _); intros [= <-]; [done|]. by apply (Hc k).
Qed.

Lemma recursiveToString_upto_clean n secrets0 v out :
  json_copy v = v →
  recursiveToString_upto n secrets0 v = Returns out →
  json_clean out.
Proof.
  revert secrets0 v out. induction n as [|n IH]; intros secrets0 v out Hv; [done|].
  cbn [recursiveToString_upto]. intros Hout.
  destruct (recursiveToString_body_Returns _ _ _ _ Hout) as [c ->].
  by apply (recursiveToString_body_clean (recursiveToString_upto n) secrets0 c).
Qed.

(** C8.  The redactor is idempotent: redacting what it returned, with
    the same secret paths, returns the same object again.  This holds
    for one level of the recursion, [recursiveToString], from any
    value, and for the closure [toStringCurried] with its serialization
    round trip. *)
Theorem redaction_is_idempotent secrets0 :
  (∀ cfg out,
     recursiveToString secrets0 cfg = Returns out →
     recursiveToString secrets0 (VObj out) = Returns out)
  ∧ (∀ config0 out,
       toStringCurried secrets0 config0 = Returns out →
       toStringCurried secrets0 out = Returns out).
Proof.
  split.
  - intros cfg out. apply recursiveToString_upto_idempotent.
  - intros config0 out Hout. unfold toStringCurried in *.
    assert (json_clean out) as ->.
    { eapply recursiveToString_upto_clean; [|exact Hout]. apply json_copy_idempotent. }
    by apply recursiveToString_upto_idempotent in Hout.
Qed.
(** ** When the redactor returns *)

Lemma recursiveToString_body_returns self secrets0 config0 grouped :
  groupedNestedSecrets (seperateSecretsByNestLevel secrets0).2 = Returns grouped →
  (∀ k cs, grouped !! k = Some cs →
     ∃ cs' o, all_defined cs = Some cs'
              ∧ self cs' (default VUndef (config0 !! k)) = Returns o) →
  ∃ out, recursiveToString_body self secrets0 (VObj config0) = Returns out.
Proof.
  intros Hg Hcalls. eexists. apply recursiveToString_body_VObj.
  exists grouped, (omap returned (merge (call_for self) grouped config0)).
  split; [done|]. split; [|done].
  apply map_eq. intros k. rewrite lookup_fmap, lookup_omap, lookup_merge.
  destruct (grouped !! k) as [cs|] eqn:Hk; [|by destruct (config0 !! k)].
  destruct (Hcalls _ _ Hk) as (cs' & o & Hdef & Hself).
  destruct (config0 !! k); cbn in *; by rewrite Hdef, Hself.
Qed.

Lemma length_dotted_cons k t :
  t ≠ [] → String.length (dotted (k :: t)) = String.length k + 1 + String.length (dotted t).
Proof.
  intros Hne. rewrite dotted_cons by done. induction k as [|c k IH]; [done|].
  rewrite append_String. cbn [String.length]. rewrite IH. lia.
Qed.

Lemma through_objects_below k t chains v :
  t ∈ below k chains →
  Forall (λ c, through_objects c v) chains →
  (k ∉ object_prototype_members)
  ∧ ∃ props o, v = VObj props ∧ props !! k = Some (VObj o) ∧ through_objects t (VObj o).
Proof.
  intros [Hne Hin]%elem_of_below Hall. rewrite Forall_forall in Hall.
  specialize (Hall _ Hin). destruct t as [|k2 t]; [done|].
  cbn [through_objects] in Hall. destruct Hall as [Hk Hv]. split; [done|].
  destruct v as [| | | | | |props]; try done.
  destruct (props !! k) as [[| | | | | |o]|] eqn:Hpk; try done. eauto.
Qed.

Lemma recursiveToString_upto_returns n chains config0 :
  Forall chain_ok chains →
  Forall (Forall (λ k, k ≠ EmptyString)) chains →
  Forall (λ c, through_objects c (VObj config0)) chains →
  (∀ c, c ∈ chains → String.length (dotted c) < n) → 0 < n →
  ∃ out, recursiveToString_upto n (dotted <$> chains) (VObj config0) = Returns out.
Proof.
  revert chains config0. induction n as [|n IH]; intros chains config0 Hok Hne Hthrough Hlen Hn;
    [lia|].
  cbn [recursiveToString_upto].
  assert (∀ k, [k; EmptyString] ∉ chains) as Htrail.
  { intros k Hin. rewrite Forall_forall in Hne. specialize (Hne _ Hin).
    by apply Forall_cons in Hne as [_ [? _]%Forall_cons]. }
  assert (∀ k t, t ∈ below k chains →
            (k ∉ object_prototype_members)
            ∧ ∃ o, config0 !! k = Some (VObj o) ∧ through_objects t (VObj o)) as Hbelow.
  { intros k t Ht.
    destruct (through_objects_below _ _ _ _ Ht Hthrough) as (? & props & o & [= <-] & ? & ?).
    eauto. }
  destruct (foldl_group_step_total
              (seperateParentFromChildren <$>
                 (seperateSecretsByNestLevel (dotted <$> chains)).2) ∅) as [grouped Hg].
  { apply Forall_forall. intros [p c] Hpc. cbn [fst].
    apply elem_of_children_of in Hpc. rewrite deep_of_chains in Hpc by done.
    apply list_elem_of_fmap in Hpc as (t & _ & Ht). by destruct (Hbelow _ _ Ht). }
  apply (recursiveToString_body_returns _ _ _ grouped); [done|].
  intros k cs Hk. rewrite (groupedNestedSecrets_Returns _ _ Hg), deep_of_chains in Hk by done.
  destruct (below k chains) as [|t ts] eqn:Hb; [done|]. injection Hk as <-.
  exists (dotted <$> (t :: ts)).
  assert (∀ t', t' ∈ t :: ts → t' ∈ below k chains) as Hin by by rewrite Hb.
  destruct (Hbelow k t) as (_ & o & Hko & _); [apply Hin; by left|].
  destruct (IH (t :: ts) o) as [out Hout].
  - rewrite <- Hb. by apply below_ok.
  - apply Forall_forall. intros t' Ht'. apply Hin, elem_of_below in Ht' as [Ht' Hkt].
    rewrite Forall_forall in Hne. specialize (Hne _ Hkt).
    by apply Forall_cons in Hne as [_ ?].
  - apply Forall_forall. intros t' Ht'. apply Hin in Ht'.
    destruct (Hbelow _ _ Ht') as (_ & o' & Hko' & ?). congruence.
  - intros t' Ht'. apply Hin, elem_of_below in Ht' as [Ht' Hkt]. specialize (Hlen _ Hkt).
    rewrite length_dotted_cons in Hlen by done. lia.
  - assert (t ∈ below k chains) as [Ht Hkt]%elem_of_below by (apply Hin; by left).
    specialize (Hlen _ Hkt). rewrite length_dotted_cons in Hlen by done. lia.
  - exists out. split.
    + apply all_defined_Some. rewrite <- list_fmap_compose. done.
    + by rewrite Hko.
Qed.

Lemma through_objects_json_copy keys v :
  through_objects keys v → through_objects keys (json_copy v).
Proof.
  revert v. induction keys as [|k rest IH]; intros v; [done|].
  destruct rest as [|k2 rest]; [done|]. cbn [through_objects].
  intros [Hk Hv]. split; [done|].
  destruct v as [| | | | | |props]; try done. cbn [json_copy]. rewrite lookup_omap.
  destruct (props !! k) as [[| | | | | |o]|]; try done. cbn [mbind option_bind].
  by apply (IH (VObj o)).
Qed.

(** The redactor returns when the listed chains run through objects
    of the configuration. *)
Lemma toStringCurried_returns chains input :
  Forall chain_ok chains →
  Forall (Forall (λ k, k ≠ EmptyString)) chains →
  Forall (λ c, through_objects c (VObj input)) chains →
  ∃ out, toStringCurried (dotted <$> chains) input = Returns out.
Proof.
  intros Hok Hne Hthrough. unfold toStringCurried, recursiveToString.
  assert (∃ c, json_copy (VObj input) = VObj c) as [c Hc] by (cbn; eauto).
  rewrite Hc. apply recursiveToString_upto_returns; try done.
  - rewrite <- Hc. eapply Forall_impl; [done|]. intros ch. apply through_objects_json_copy.
  - intros ch Hin. apply depth_bound_above. by apply list_elem_of_fmap_2.
  - unfold depth_bound. lia.
Qed.
(** * The redactor on the heap *)

Lemma all_Some_Some {A} (m : gmap string (option A)) r :
  all_Some m = Some r ↔ m = Some <$> r.
Proof.
  unfold all_Some. split.
  - destruct (decide _) as [Hall|]; [|done]. intros [= <-].
    apply map_eq. intros k. rewrite lookup_fmap, lookup_omap.
    destruct (m !! k) as [o|] eqn:Hk; [|done]. cbn.
    destruct (Hall k o Hk) as [a ->]. done.
  - intros ->. rewrite decide_True.
    + f_equal. apply map_eq. intros k. rewrite lookup_omap, lookup_fmap.
      by destruct (r !! k).
    + intros k o. rewrite lookup_fmap. destruct (r !! k); intros [= <-]. by eexists.
Qed.

Lemma reify_Prim n h p : reify n h (Prim p) = Some (value_of_prim p).
Proof. by destruct n. Qed.

(** Reading an object: its properties, slot by slot. *)
Lemma reify_Obj n h l (props : MappedConfig) :
  reify n h (Ref l) = Some (VObj props) ↔
  ∃ n' config0, n = S n' ∧ h !! l = Some (Obj config0)
                ∧ reify n' h <$> config0 = Some <$> props.
Proof.
  split.
  - destruct n as [|n']; [done|]. cbn [reify].
    destruct (h !! l) as [[config0|elems]|]; [| |done].
    + destruct (all_Some _) as [r|] eqn:Hr; [|done]. intros [= <-].
      apply all_Some_Some in Hr. eauto.
    + by destruct (mapM _ _).
  - intros (n' & config0 & -> & Hl & Hprops). cbn [reify]. rewrite Hl.
    apply all_Some_Some in Hprops. by rewrite Hprops.
Qed.

Lemma reify_VObj_inv n h s (props : MappedConfig) :
  reify n h s = Some (VObj props) → ∃ l, s = Ref l.
Proof. destruct s as [p|l]; [|eauto]. rewrite reify_Prim. by destruct p. Qed.

(** Allocation keeps what was read. *)
Lemma reify_prefix n (h h' : heap) s v :
  h `prefix_of` h' → reify n h s = Some v → reify n h' s = Some v.
Proof.
  intros Hpre. revert s v. induction n as [|n IH]; intros [p|l] v; try done.
  cbn [reify]. destruct (h !! l) as [c|] eqn:Hl; [|done].
  rewrite (prefix_lookup_Some _ _ _ _ Hl Hpre). destruct c as [props|elems].
  - destruct (all_Some (reify n h <$> props)) as [r|] eqn:Hr; [|done].
    intros [= <-]. apply all_Some_Some in Hr.
    assert (reify n h' <$> props = Some <$> r) as Hr'.
    { apply map_eq. intros k. apply (f_equal (.!! k)) in Hr.
      rewrite !lookup_fmap in *. destruct (props !! k) as [s|]; [|done].
      destruct (r !! k) as [x|]; [|done]. cbn in *. injection Hr as Hr.
      by rewrite (IH _ _ Hr). }
    apply all_Some_Some in Hr'. by rewrite Hr'.
  - destruct (mapM (reify n h) elems) as [r|] eqn:Hr; [|done].
    intros [= <-]. apply mapM_Some in Hr.
    assert (mapM (reify n h') elems = Some r) as ->; [|done].
    apply mapM_Some. eapply Forall2_impl; [done|]. intros s x. apply IH.
Qed.

Lemma reach_Prim h p l : ¬ reach h (Prim p) l.
Proof. inversion 1. Qed.

(** In a closed heap, allocation adds nothing to what a slot reaches. *)
Lemma reach_prefix (h h' : heap) s l :
  closed h → h `prefix_of` h' → valid h s → reach h' s l → reach h s l.
Proof.
  intros Hclosed Hpre Hvalid Hreach. induction Hreach as [l|l c l' l'' Hl Hp _ IH].
  - constructor.
  - cbn in Hvalid. apply lookup_lt_is_Some in Hvalid as [c0 Hc0].
    pose proof (prefix_lookup_Some _ _ _ _ Hc0 Hpre) as Hl'.
    assert (c0 = c) as -> by congruence.
    eapply reach_step; [done..|]. apply IH. cbn. by eapply Hclosed.
Qed.

Lemma closed_alloc (h : heap) c :
  closed h → (∀ l, points c l → l < length h) → closed (h ++ [c]).
Proof.
  intros Hclosed Hc l c' l' Hl Hp. rewrite length_app. cbn.
  destruct (decide (l < length h)) as [Hlt|Hge].
  - rewrite lookup_app_l in Hl by done. specialize (Hclosed _ _ _ Hl Hp). lia.
  - assert (c' = c) as ->.
    { apply lookup_lt_Some in Hl as Hlen. rewrite length_app in Hlen. cbn in Hlen.
      assert (l = length h) as -> by lia.
      rewrite lookup_app_r, Nat.sub_diag in Hl by lia. by injection Hl. }
    specialize (Hc _ Hp). lia.
Qed.

(** What a call on the heap does when the call on values returns [out]:
    it returns a location in a heap that extends [h] and is closed; from
    that location only new cells and cells within reach of [cfg] are
    reached; and the object there reads as [out]. *)
Definition call_ok (h : heap) (cfg : slot) (m : nat) (out : MappedConfig)
    (res : outcome (nat * heap)) : Prop :=
  ∃ lo h', res = Returns (lo, h')
    ∧ h `prefix_of` h' ∧ closed h' ∧ lo < length h'
    ∧ (∀ l, reach h' (Ref lo) l → length h ≤ l ∨ reach h cfg l)
    ∧ reify m h' (Ref lo) = Some (VObj out).

Definition simulates
    (self : list string → value → outcome MappedConfig)
    (self_at : list string → slot → heap → outcome (nat * heap)) : Prop :=
  ∀ secrets0 cfg h m v out,
    closed h → valid h cfg → reify m h cfg = Some v →
    self secrets0 v = Returns out →
    call_ok h cfg m out (self_at secrets0 cfg h).

Section nested_calls.
Variable self : list string → value → outcome MappedConfig.
Variable self_at : list string → slot → heap → outcome (nat * heap).
Hypothesis Hself : simulates self self_at.
Variables (h : heap) (l0 : nat) (config0 : gmap string slot) (m0 : nat).
Variables (props : MappedConfig) (grouped : gmap string (list (option string))).
Variable nested_v : gmap string MappedConfig.
Hypothesis Hclosed : closed h.
Hypothesis Hl0 : h !! l0 = Some (Obj config0).
Hypothesis Hprops : reify m0 h <$> config0 = Some <$> props.
Hypothesis Hcalls : merge (call_for self) grouped props = Returns <$> nested_v.

(** The state of the reduction: the results so far. *)
Definition nested_inv (nested : gmap string nat) (hc : heap) : Prop :=
  h `prefix_of` hc ∧ closed hc
  ∧ ∀ p lp, nested !! p = Some lp →
      lp < length hc
      ∧ (∀ l, reach hc (Ref lp) l → length h ≤ l ∨ reach h (Ref l0) l)
      ∧ ∃ c, nested_v !! p = Some c ∧ reify m0 hc (Ref lp) = Some (VObj c).

Lemma slot_of_config0 k :
  reify m0 h (default (Prim PUndef) (config0 !! k)) = Some (default VUndef (props !! k))
  ∧ valid h (default (Prim PUndef) (config0 !! k)).
Proof using Hclosed Hl0 Hprops.
  pose proof (f_equal (.!! k) Hprops) as Hk. rewrite !lookup_fmap in Hk.
  destruct (config0 !! k) as [s|] eqn:Hs, (props !! k) as [x|]; try done; cbn in *.
  - split; [congruence|]. destruct s as [p|l]; [done|]. cbn.
    eapply Hclosed; [done|]. by exists k.
  - split; [|done]. by rewrite reify_Prim.
Qed.

Lemma reach_config0 k l :
  reach h (default (Prim PUndef) (config0 !! k)) l → reach h (Ref l0) l.
Proof using Hl0.
  destruct (config0 !! k) as [[p|l1]|] eqn:Hk; cbn;
    [by intros ?%reach_Prim| |by intros ?%reach_Prim].
  intros Hreach. eapply reach_step; [done| |done]. by exists k.
Qed.

Lemma fold_nested_calls (entries : list (string * list (option string))) nested hc :
  nested_inv nested hc →
  (∀ e, e ∈ entries → grouped !! e.1 = Some e.2) →
  ∃ nested' hf,
    foldl (nested_step self_at config0) (Returns (nested, hc)) entries
      = Returns (nested', hf)
    ∧ nested_inv nested' hf
    ∧ dom nested' = dom nested ∪ list_to_set entries.*1.
Proof using Hself Hclosed Hl0 Hprops Hcalls.
  revert nested hc. induction entries as [|[p cs] entries IH]; intros nested hc Hinv Hin.
  { exists nested, hc. split; [done|]. split; [done|]. set_solver. }
  destruct Hinv as (Hpre & Hclosed_c & Hnested).
  pose proof (calls_lookup _ _ _ _ p Hcalls) as Hp.
  pose proof (Hin (p, cs) ltac:(by left)) as Hg. cbn [fst snd] in Hg.
  rewrite Hg in Hp.
  destruct Hp as (cs' & c & Hdef & Hcall & Hc).
  destruct (slot_of_config0 p) as [Hreify Hvalid].
  destruct (Hself cs' (default (Prim PUndef) (config0 !! p)) hc m0
              (default VUndef (props !! p)) c)
    as (lo & h' & Hres & Hpre' & Hclosed' & Hlo & Hfresh & Hout); [done| | |done|].
  { destruct (default (Prim PUndef) (config0 !! p)) as [?|l1]; [done|].
    cbn in Hvalid |- *. apply prefix_length in Hpre. lia. }
  { by eapply reify_prefix. }
  destruct (IH (<[ p := lo ]> nested) h') as (nested' & hf & Hfold & Hinv' & Hdom).
  - split; [by etrans|]. split; [done|]. intros q lq Hq.
    destruct (decide (p = q)) as [<-|Hne].
    + rewrite lookup_insert_eq in Hq. injection Hq as <-.
      split; [done|]. split; [|by exists c].
      intros l Hl. destruct (Hfresh l Hl) as [Hnew|Hold].
      * left. apply prefix_length in Hpre. lia.
      * right. apply reach_config0 with p. by apply (reach_prefix h hc).
    + rewrite lookup_insert_ne in Hq by done.
      destruct (Hnested q lq Hq) as (Hlt & Hreach & c' & Hc' & Hreify').
      split; [apply prefix_length in Hpre'; lia|]. split.
      * intros l Hl. apply Hreach. by apply (reach_prefix hc h').
      * exists c'. split; [done|]. by eapply reify_prefix.
  - intros e He. apply Hin. by right.
  - exists nested', hf. split; [|split; [done|]].
    + cbn [foldl nested_step fst snd]. by rewrite Hdef, Hres.
    + rewrite Hdom, dom_insert_L. set_solver.
Qed.

End nested_calls.

Lemma lookup_snoc (h : heap) c : (h ++ [c]) !! length h = Some c.
Proof. by rewrite lookup_app_r, Nat.sub_diag by lia. Qed.

Lemma recursiveToString_body_simulates self self_at :
  simulates self self_at →
  simulates (recursiveToString_body self) (recursiveToString_at_body self_at).
Proof.
  intros Hself secrets0 cfg h m v out Hclosed Hvalid Hreify Hpure.
  destruct (recursiveToString_body_Returns _ _ _ _ Hpure) as [props ->].
  destruct (reify_VObj_inv _ _ _ _ Hreify) as [l0 ->].
  apply reify_Obj in Hreify as (m0 & config0 & -> & Hl0 & Hprops).
  apply recursiveToString_body_VObj in Hpure as (grouped & nested_v & Hg & Hcalls & ->).
  destruct (fold_nested_calls self self_at Hself h l0 config0 m0 props grouped nested_v
              Hclosed Hl0 Hprops Hcalls (map_to_list grouped) ∅ h)
    as (nested & hf & Hfold & (Hpre & Hclosed_f & Hnested) & Hdom).
  { split; [done|]. split; [done|]. intros p lp. by rewrite lookup_empty. }
  { intros [p cs] He. by apply elem_of_map_to_list. }
  unfold recursiveToString_at_body.
  change (seperateSecretsByNestLevel secrets0) with
    ((seperateSecretsByNestLevel secrets0).1, (seperateSecretsByNestLevel secrets0).2).
  cbv beta iota. rewrite Hl0, Hg, Hfold.
  set (flat := (seperateSecretsByNestLevel secrets0).1).
  set (newprops := (Ref <$> nested) ∪ _).
  assert (∀ k, newprops !! k =
               match nested !! k with
               | Some lp => Some (Ref lp)
               | None => (λ s, if decide (k ∈ flat) then Prim (PStr "[secret]") else s)
                           <$> config0 !! k
               end) as Hnew by (intros k; apply lookup_spread).
  assert (∀ k, nested !! k = None → nested_v !! k = None) as Hnone.
  { intros k Hk. pose proof (calls_lookup _ _ _ _ k Hcalls) as Hc.
    destruct (grouped !! k) as [cs|] eqn:Hgk; [|done].
    apply not_elem_of_dom in Hk. destruct Hk. rewrite Hdom.
    apply elem_of_union_r, elem_of_list_to_set, list_elem_of_fmap.
    exists (k, cs). split; [done|]. by apply elem_of_map_to_list. }
  assert (∀ k l, config0 !! k = Some (Ref l) → l < length h) as Hold.
  { intros k l Hk. eapply Hclosed; [done|]. by exists k. }
  exists (length hf), (hf ++ [Obj newprops]). split; [done|].
  assert (h `prefix_of` hf ++ [Obj newprops]) as Hpre' by by apply prefix_app_r.
  split; [done|]. split; [|split; [|split]].
  - apply closed_alloc; [done|]. intros l [k Hk]. rewrite Hnew in Hk.
    destruct (nested !! k) as [lp|] eqn:Hn.
    + injection Hk as ->. by destruct (Hnested _ _ Hn).
    + destruct (config0 !! k) as [s|] eqn:Hs; [|done]. cbn in Hk.
      destruct (decide _); [done|]. injection Hk as ->.
      apply prefix_length in Hpre. specialize (Hold _ _ Hs). lia.
  - rewrite length_app. cbn. lia.
  - intros l Hl. inversion Hl as [|? c l1 ? Hc Hp Hreach]; subst.
    { left. by apply prefix_length. }
    rewrite lookup_snoc in Hc. injection Hc as <-. destruct Hp as [k Hk].
    rewrite Hnew in Hk. destruct (nested !! k) as [lp|] eqn:Hn.
    + injection Hk as ->. destruct (Hnested _ _ Hn) as (Hlt & Hfresh & _).
      apply Hfresh. apply (reach_prefix hf (hf ++ [Obj newprops])); try done.
      by apply prefix_app_r.
    + destruct (config0 !! k) as [s|] eqn:Hs; [|done]. cbn in Hk.
      destruct (decide _); [done|]. injection Hk as ->. right.
      eapply reach_step; [done|by exists k|].
      apply (reach_prefix h (hf ++ [Obj newprops])); try done.
      cbn. by eapply Hold.
  - apply reify_Obj. exists m0, newprops. split; [done|]. split; [apply lookup_snoc|].
    apply map_eq. intros k. rewrite !lookup_fmap, Hnew, lookup_assembled.
    destruct (nested !! k) as [lp|] eqn:Hn.
    + destruct (Hnested _ _ Hn) as (_ & _ & c & -> & Hc). cbn.
      f_equal. eapply reify_prefix; [|done]. by apply prefix_app_r.
    + rewrite (Hnone _ Hn).
      pose proof (f_equal (.!! k) Hprops) as Hk. rewrite !lookup_fmap in Hk.
      destruct (config0 !! k) as [s|], (props !! k) as [x|]; try done. cbn in *.
      fold flat. destruct (decide (k ∈ flat)).
      * by rewrite reify_Prim.
      * injection Hk as Hk. f_equal. by eapply reify_prefix.
Qed.

Lemma recursiveToString_upto_simulates n :
  simulates (recursiveToString_upto n) (recursiveToString_at_upto n).
Proof.
  induction n as [|n IH]; [by intros ? ? ? ? ? ? ? ? ? ?|].
  by apply recursiveToString_body_simulates.
Qed.

(** The call on the heap, for a call on values that returns. *)
Theorem recursiveToString_at_copies secrets0 cfg h m v out :
  closed h → valid h cfg → reify m h cfg = Some v →
  recursiveToString secrets0 v = Returns out →
  ∃ lo h',
    recursiveToString_at secrets0 cfg h = Returns (lo, h')
    ∧ h `prefix_of` h'
    ∧ (∀ l, reach h' (Ref lo) l → length h ≤ l ∨ reach h cfg l)
    ∧ reify m h' (Ref lo) = Some (VObj out).
Proof.
  intros Hclosed Hvalid Hreify Hpure.
  destruct (recursiveToString_upto_simulates _ _ _ _ _ _ _ Hclosed Hvalid Hreify Hpure)
    as (lo & h' & Hres & Hpre & _ & _ & Hfresh & Hout).
  by exists lo, h'.
Qed.
(** * The guarantee of the redactor *)

(** What the redactor returns is redacted along the chains. *)
Lemma toStringCurried_exact chains input out :
  Forall chain_ok chains → separate chains →
  toStringCurried (dotted <$> chains) input = Returns out →
  redaction_exact chains input out.
Proof.
  intros Hall Hsep Hout. unfold toStringCurried, recursiveToString in Hout.
  assert (∃ c, json_copy (VObj input) = VObj c) as [c Hc] by (cbn; eauto).
  rewrite Hc in Hout. apply recursiveToString_upto_redact in Hout; [|done].
  intros keys Hne. rewrite Hout, <- get_path_json_copy, Hc. split.
  - intros Habove Hv.
    assert ([] ∉ chains) as Hnil.
    { intros Hin. rewrite Forall_forall in Hall. by destruct (Hall _ Hin). }
    destruct (redact_listed_above chains keys (VObj c) Hnil Hsep Habove)
      as (p & Hp & Hpre & Hm).
    + rewrite <- Hc, get_path_json_copy. by rewrite json_copy_VUndef.
    + exists p. by rewrite Hout.
  - intros Habove Hbelow. by apply redact_not_listed.
Qed.


(** * The secret paths of the resolver *)

Lemma split_dot_dotted c : chain_ok c → split_dot (dotted c) = c.
Proof.
  intros [Hne Hall]. induction c as [|k c IH]; [done|].
  apply Forall_cons in Hall as [Hk Hall]. destruct c as [|k' c].
  - by apply split_dot_sep_free.
  - rewrite dotted_cons, split_dot_app by done. f_equal. by apply IH.
Qed.

Lemma dotted_inj c1 c2 : chain_ok c1 → chain_ok c2 → dotted c1 = dotted c2 → c1 = c2.
Proof.
  intros H1 H2 Heq. rewrite <- (split_dot_dotted c1), <- (split_dot_dotted c2) by done.
  by rewrite Heq.
Qed.

(** What [secrets_on_leaves] says of the value of an entry. *)
Definition good_node (n : node) : Prop :=
  ∀ sub, n = Nested sub → secrets_on_leaves sub.

Lemma secrets_on_leaves_NoDup props :
  secrets_on_leaves props → NoDup props.*1.
Proof. by intros [props' Hnd _ _]. Qed.

Lemma good_node_entry props k ms :
  secrets_on_leaves props → (k, ms) ∈ props →
  plain_key k ∧ good_node (payload ms)
  ∧ (∀ sub, payload ms = Nested sub → is_secret ms = false).
Proof.
  intros [props' Hnd Hplain Hsub] Hin. split; [|split].
  - rewrite Forall_forall in Hplain. apply Hplain.
    apply list_elem_of_fmap. by exists (k, ms).
  - intros sub Hn. by destruct (Hsub _ _ _ Hin Hn).
  - intros sub Hn. by destruct (Hsub _ _ _ Hin Hn).
Qed.

Lemma elem_of_leaf_chains_Nested w props c :
  c ∈ leaf_chains w (Nested props) ↔
  ∃ k ms c', c = k :: c' ∧ (k, ms) ∈ props ∧ c' ∈ leaf_chains (is_secret ms) (payload ms).
Proof.
  cbn [leaf_chains]. rewrite list_elem_of_In, in_concat. split.
  - intros (l & ([k ms] & <- & Hin)%in_map_iff & Hc).
    apply list_elem_of_In, list_elem_of_fmap in Hc as (c' & -> & Hc').
    exists k, ms, c'. by rewrite list_elem_of_In.
  - intros (k & ms & c' & -> & Hin & Hc').
    exists (cons k <$> leaf_chains (is_secret ms) (payload ms)). split.
    + apply in_map_iff. exists (k, ms). by rewrite <- list_elem_of_In.
    + apply list_elem_of_In. by apply list_elem_of_fmap_2.
Qed.

(** The recorded paths are the dotted paths of the chains of the secret
    leaves. *)
Lemma secret_leaves_chains n parents w :
  good_node n → Forall plain_key parents →
  secret_leaves (dotted parents) w n =
  (λ c, dotted (parents ++ c)) <$> leaf_chains w n.
Proof.
  revert parents w. induction n as [v|envKey fn|name|props IH] using node_induction;
    intros parents w Hgood Hparents;
    try (cbn [secret_leaves leaf_chains]; destruct w; cbn; by rewrite ?app_nil_r).
  specialize (Hgood props eq_refl).
  cbn [secret_leaves leaf_chains].
  assert (∀ e, e ∈ props → plain_key e.1 ∧ good_node (payload e.2)) as Hentries.
  { intros [k ms] Hin. destruct (good_node_entry _ _ _ Hgood Hin) as (? & ? & _). done. }
  clear Hgood. induction IH as [|e props Hhd Htl IHprops]; [done|].
  cbn [map concat]. rewrite fmap_app. f_equal.
  - destruct (Hentries e ltac:(by left)) as [Hk He].
    rewrite subPathOf_dotted by by apply plain_keys_nonempty. rewrite Hhd; [|done|].
    + rewrite <- list_fmap_compose. apply list_fmap_ext. intros ? c _. cbn.
      by rewrite <- app_assoc.
    + apply Forall_app. split; [done|]. by apply Forall_singleton.
  - apply IHprops. intros e' Hin. apply Hentries. by right.
Qed.

Lemma secrets_are_secret_chains env cfg :
  secrets_on_leaves cfg →
  secrets (schema_result env cfg EmptyString) = dotted <$> secret_chains cfg.
Proof.
  intros Hgood.
  pose proof (node_result_secrets env EmptyString EmptyString false (Nested cfg)) as H.
  rewrite node_result_Nested in H. cbn [snd] in H. rewrite H.
  change EmptyString with (dotted []).
  rewrite secret_leaves_chains; [done| |done]. by intros sub [= <-].
Qed.

Lemma leaf_chains_plain n w c :
  good_node n → c ∈ leaf_chains w n → Forall plain_key c.
Proof.
  revert w c. induction n as [v|envKey fn|name|props IH] using node_induction;
    intros w c Hgood Hc;
    try (cbn in Hc; destruct w; [apply list_elem_of_singleton in Hc as ->; done
                               |by apply elem_of_nil in Hc]).
  apply elem_of_leaf_chains_Nested in Hc as (k & ms & c' & -> & Hin & Hc').
  destruct (good_node_entry _ _ _ (Hgood _ eq_refl) Hin) as (Hk & Hn & _).
  apply Forall_cons. split; [done|].
  rewrite Forall_forall in IH. by apply (IH _ Hin (is_secret ms)).
Qed.

Lemma plain_chain_ok c : c ≠ [] → Forall plain_key c → chain_ok c.
Proof. intros Hne Hall. split; [done|]. eapply Forall_impl; [done|]. by intros k [_ ?]. Qed.

Lemma secret_chains_ok cfg :
  secrets_on_leaves cfg → Forall chain_ok (secret_chains cfg).
Proof.
  intros Hgood. apply Forall_forall. intros c Hc. unfold secret_chains in Hc.
  apply plain_chain_ok.
  - apply elem_of_leaf_chains_Nested in Hc as (k & ms & c' & -> & _ & _). done.
  - apply (leaf_chains_plain (Nested cfg) false); [|done]. by intros sub [= <-].
Qed.

Lemma NoDup_fst_unique {A B} (l : list (A * B)) k a b :
  NoDup l.*1 → (k, a) ∈ l → (k, b) ∈ l → a = b.
Proof.
  induction l as [|[k' x] l IH]; [by intros _ ?%elem_of_nil|].
  rewrite fmap_cons. intros [Hnotin Hnd]%NoDup_cons.
  intros [[= -> ->]|Ha]%elem_of_cons [[= <-]|Hb]%elem_of_cons; try done.
  - destruct Hnotin. apply list_elem_of_fmap. by exists (k', b).
  - destruct Hnotin. apply list_elem_of_fmap. by exists (k, a).
  - by apply IH.
Qed.

(** No chain of a leaf runs through another leaf. *)
Lemma leaf_chains_separate n w :
  good_node n → separate (leaf_chains w n).
Proof.
  revert w. induction n as [v|envKey fn|name|props IH] using node_induction;
    intros w Hgood c c' Hc Hc' Hpre;
    try (cbn in Hc, Hc'; destruct w;
         [apply list_elem_of_singleton in Hc as ->;
          apply list_elem_of_singleton in Hc' as ->; done
         |by apply elem_of_nil in Hc]).
  apply elem_of_leaf_chains_Nested in Hc as (k & ms & c1 & -> & Hin & Hc1).
  apply elem_of_leaf_chains_Nested in Hc' as (k' & ms' & c1' & -> & Hin' & Hc1').
  pose proof (prefix_cons_inv_1 _ _ _ _ Hpre) as <-.
  apply prefix_cons_inv_2 in Hpre.
  pose proof (secrets_on_leaves_NoDup _ (Hgood _ eq_refl)) as Hnd.
  assert (ms = ms') as <- by by eapply NoDup_fst_unique.
  f_equal. rewrite Forall_forall in IH.
  destruct (good_node_entry _ _ _ (Hgood _ eq_refl) Hin) as (_ & Hnode & _).
  exact (IH _ Hin (is_secret ms) Hnode c1 c1' Hc1 Hc1' Hpre).
Qed.

Lemma secret_chains_separate cfg :
  secrets_on_leaves cfg → separate (secret_chains cfg).
Proof. intros Hgood. apply leaf_chains_separate. by intros sub [= <-]. Qed.

(** The chain of a secret leaf leads to its key in the resolved object. *)
Lemma leaf_chains_has_path env n :
  ∀ sub, n = Nested sub → secrets_on_leaves sub →
  ∀ path c, c ∈ secret_chains sub →
  has_path c (VObj (config (schema_result env sub path))).
Proof.
  induction n as [v|envKey fn|name|props IH] using node_induction;
    intros sub Hn Hgood path c Hc; try discriminate.
  injection Hn as <-. unfold secret_chains in Hc.
  apply elem_of_leaf_chains_Nested in Hc as (k & ms & c' & -> & Hin & Hc').
  pose proof (secrets_on_leaves_NoDup _ Hgood) as Hnd.
  cbn [has_path]. rewrite (schema_result_lookup _ _ _ _ _ Hnd Hin).
  rewrite entry_result_eq.
  destruct (good_node_entry _ _ _ Hgood Hin) as (_ & Hnode & Hplain).
  rewrite Forall_forall in IH. specialize (IH _ Hin).
  destruct (payload ms) as [v|envKey fn|name|sub] eqn:Hp.
  - cbn [node_result fst]. rewrite lookup_singleton_eq.
    cbn in Hc'. destruct (is_secret ms); [|by apply elem_of_nil in Hc'].
    by apply list_elem_of_singleton in Hc' as ->.
  - cbn [node_result]. destruct (lookup_result _ _ _).
    cbn [fst]. rewrite lookup_singleton_eq.
    cbn in Hc'. destruct (is_secret ms); [|by apply elem_of_nil in Hc'].
    by apply list_elem_of_singleton in Hc' as ->.
  - cbn [node_result]. destruct (lookup_result _ _ _).
    cbn [fst]. rewrite lookup_singleton_eq.
    cbn in Hc'. destruct (is_secret ms); [|by apply elem_of_nil in Hc'].
    by apply list_elem_of_singleton in Hc' as ->.
  - rewrite node_result_Nested. cbn [fst]. rewrite lookup_singleton_eq.
    apply (IH sub Hp); [by apply Hnode|].
    unfold secret_chains. by rewrite (Hplain sub eq_refl) in Hc'.
Qed.

Lemma schema_result_recorded_paths env cfg :
  secrets_on_leaves cfg →
  recorded_paths_reference_keys (schema_result env cfg EmptyString)
  ∧ ∀ path key leaf,
      (∀ sub, leaf ≠ Nested sub) →
      (entry_result env path (key, secret leaf)).2 = [subPathOf path key].
Proof.
  intros Hgood. split.
  - intros p Hp. rewrite secrets_are_secret_chains in Hp by done.
    apply list_elem_of_fmap in Hp as (c & -> & Hc).
    pose proof (secret_chains_ok _ Hgood) as Hok. rewrite Forall_forall in Hok.
    exists c. split; [by destruct (Hok _ Hc)|]. split; [done|]. split.
    { by apply (leaf_chains_has_path env (Nested cfg)). }
    split; [by apply nested_dotted, Hok|].
    intros q Hq Hpre Hne. rewrite secrets_are_secret_chains by done.
    intros (c2 & Heq & Hc2)%list_elem_of_fmap.
    apply dotted_inj in Heq; [| |by apply Hok].
    + subst c2. apply Hne. by apply (secret_chains_separate _ Hgood).
    + split; [done|]. destruct Hpre as [t ->].
      destruct (Hok _ Hc) as [_ [? _]%Forall_app]. done.
  - intros path key leaf Hleaf. rewrite entry_result_eq. cbn [payload secret].
    destruct leaf as [v|envKey fn|name|sub]; cbn [node_result].
    + done.
    + by destruct (lookup_result _ _ _).
    + by destruct (lookup_result _ _ _).
    + by destruct (Hleaf sub).
Qed.


(** * The rendering that [verify] attaches *)

Lemma keys_not_inherited_entry props k ms :
  keys_not_inherited props → (k, ms) ∈ props →
  (k ∉ object_prototype_members)
  ∧ ∀ sub, payload ms = Nested sub → keys_not_inherited sub.
Proof.
  intros [props' Hkeys Hsub] Hin. split.
  - rewrite Forall_forall in Hkeys. apply Hkeys.
    apply list_elem_of_fmap. by exists (k, ms).
  - intros sub Hn. by apply (Hsub _ _ _ Hin).
Qed.

(** The chain of a secret leaf runs through objects of the resolved
    configuration. *)
Lemma leaf_chains_through_objects env n :
  ∀ sub, n = Nested sub → secrets_on_leaves sub → keys_not_inherited sub →
  ∀ path c, c ∈ secret_chains sub →
  through_objects c (VObj (config (schema_result env sub path))).
Proof.
  induction n as [v|envKey fn|name|props IH] using node_induction;
    intros sub Hn Hgood Hkeys path c Hc; try discriminate.
  injection Hn as <-. unfold secret_chains in Hc.
  apply elem_of_leaf_chains_Nested in Hc as (k & ms & c' & -> & Hin & Hc').
  destruct c' as [|k2 c2]; [done|].
  pose proof (secrets_on_leaves_NoDup _ Hgood) as Hnd.
  destruct (good_node_entry _ _ _ Hgood Hin) as (_ & Hnode & Hplain).
  destruct (keys_not_inherited_entry _ _ _ Hkeys Hin) as [Hk Hsub].
  cbn [through_objects]. split; [done|].
  rewrite (schema_result_lookup _ _ _ _ _ Hnd Hin), entry_result_eq.
  rewrite Forall_forall in IH. specialize (IH _ Hin).
  destruct (payload ms) as [v|envKey fn|name|sub] eqn:Hp.
  - cbn in Hc'. destruct (is_secret ms); [|by apply elem_of_nil in Hc'].
    by apply list_elem_of_singleton in Hc'.
  - cbn in Hc'. destruct (is_secret ms); [|by apply elem_of_nil in Hc'].
    by apply list_elem_of_singleton in Hc'.
  - cbn in Hc'. destruct (is_secret ms); [|by apply elem_of_nil in Hc'].
    by apply list_elem_of_singleton in Hc'.
  - rewrite node_result_Nested. cbn [fst]. rewrite lookup_singleton_eq.
    change (through_objects (k2 :: c2)
              (VObj (config (schema_result env sub (subPathOf path k))))).
    apply (IH sub Hp); [by apply Hnode|by apply (Hsub sub)|].
    unfold secret_chains. by rewrite (Hplain sub eq_refl) in Hc'.
Qed.

Lemma schema_result_rendering env cfg :
  secrets_on_leaves cfg → keys_not_inherited cfg →
  let r := schema_result env cfg EmptyString in
  ∃ out, toStringCurried (secrets r) (config r) = Returns out
         ∧ redaction_exact (secret_chains cfg) (config r) out.
Proof.
  intros Hgood Hkeys r. subst r. rewrite secrets_are_secret_chains by done.
  pose proof (secret_chains_ok _ Hgood) as Hok.
  destruct (toStringCurried_returns (secret_chains cfg)
              (config (schema_result env cfg EmptyString))) as [out Hout]; [done| |  |].
  - apply Forall_forall. intros c Hc. apply plain_keys_nonempty.
    apply (leaf_chains_plain (Nested cfg) false); [|done]. by intros sub [= <-].
  - apply Forall_forall. intros c Hc.
    by apply (leaf_chains_through_objects env (Nested cfg)).
  - exists out. split; [done|]. apply toStringCurried_exact; [done| |done].
    by apply secret_chains_separate.
Qed.

(** * Further properties of the resolver *)

Lemma schema_result_secret_leaves env cfg path :
  secrets (schema_result env cfg path) = secret_leaves_of path cfg.
Proof.
  pose proof (node_result_secrets env EmptyString path false (Nested cfg)) as H.
  rewrite node_result_Nested in H. exact H.
Qed.

Lemma filter_sublist_impl {A} (P Q : A → Prop) `{∀ x, Decision (P x)} `{∀ x, Decision (Q x)}
    (l : list A) :
  (∀ x, P x → Q x) → filter P l `sublist_of` filter Q l.
Proof.
  intros HPQ. induction l as [|x l IH]; [done|].
  rewrite !filter_cons. destruct (decide (P x)) as [HP|HP].
  - rewrite decide_True by auto. by apply sublist_skip.
  - destruct (decide (Q x)); [by apply sublist_cons|done].
Qed.

Lemma schema_result_errors_lookups env cfg path :
  errors (schema_result env cfg path) =
  error_of <$> filter (λ l, missing env l.1) (lookups_of path cfg).
Proof.
  pose proof (node_result_errors env EmptyString path [] (Nested cfg)) as H.
  by rewrite node_result_Nested in H.
Qed.

Lemma foldl_reduceConf_acc ms acc :
  foldl reduceConf acc ms =
  {| config := config (foldl reduceConf emptyVerified ms) ∪ config acc;
     errors := errors acc ++ errors (foldl reduceConf emptyVerified ms);
     secrets := secrets acc ++ secrets (foldl reduceConf emptyVerified ms) |}.
Proof.
  revert acc. induction ms as [|m ms IH]; intros acc.
  - cbn. rewrite (left_id_L ∅ (∪)), !app_nil_r. by destruct acc.
  - cbn [foldl]. rewrite IH, (IH (reduceConf emptyVerified m)).
    destruct m as [[c e] s]. cbn.
    rewrite (right_id_L ∅ (∪)), !app_assoc, (assoc_L (∪)). done.
Qed.

Lemma descend_cons path k rest : descend path (k :: rest) = descend (subPathOf path k) rest.
Proof. done. Qed.

Lemma schema_result_at_path env cfg path keys ms :
  unique_keys cfg → at_path keys cfg ms →
  let found := λ k, if decide (missing env k) then None else env !! k in
  get_path keys (VObj (config (schema_result env cfg path))) =
  match payload ms with
  | Insert v => v
  | EnvKey name => from_option VStr VUndef (found name)
  | Transform envKey transformFn =>
      from_option (λ s, call_result (transformFn s)) VUndef (found envKey)
  | Nested sub => VObj (config (schema_result env sub (descend path keys)))
  end.
Proof.
  intros Hu Hat found. revert path Hu.
  induction Hat as [k ms cfg Hin | k ms sub rest cfg target Hin Hsub Hat IH]; intros path Hu.
  - destruct Hu as [cfg Hnd _]. cbn [get_path].
    rewrite (schema_result_lookup _ _ _ _ _ Hnd Hin), entry_result_eq.
    destruct (payload ms) as [v|envKey fn|name|sub] eqn:Hp.
    + cbn [node_result fst]. by rewrite lookup_singleton_eq.
    + cbn [node_result]. subst found. cbn beta. destruct (decide (missing env envKey)) as [Hm|Hm].
      * rewrite lookup_result_missing by done. cbn. by rewrite lookup_singleton_eq.
      * apply not_missing in Hm as (s & Hs & Hne).
        rewrite (lookup_result_present _ _ _ s) by done. cbn [fst].
        rewrite lookup_singleton_eq, Hs. cbn. by destruct s.
    + cbn [node_result]. subst found. cbn beta. destruct (decide (missing env name)) as [Hm|Hm].
      * rewrite lookup_result_missing by done. cbn. by rewrite lookup_singleton_eq.
      * apply not_missing in Hm as (s & Hs & Hne).
        rewrite (lookup_result_present _ _ _ s) by done. cbn [fst].
        by rewrite lookup_singleton_eq, Hs.
    + rewrite node_result_Nested. cbn [fst]. by rewrite lookup_singleton_eq.
  - destruct Hu as [cfg Hnd Hrec]. 
    assert (rest ≠ []) as Hne by (by destruct Hat).
    destruct rest as [|k' rest']; [done|].
    change (get_path (k :: k' :: rest') ?v) with
      (match v with
       | VObj props => match props !! k with
                       | Some x => get_path (k' :: rest') x
                       | None => VUndef
                       end
       | _ => VUndef
       end).
    cbn match. rewrite (schema_result_lookup _ _ _ _ _ Hnd Hin), entry_result_eq.
    rewrite Hsub, node_result_Nested. cbn [fst]. rewrite lookup_singleton_eq.
    rewrite descend_cons. apply IH. by apply (Hrec k ms).
Qed.

(** * Further properties of the redactor *)

Lemma split_dot_length s : 1 < length (split_dot s) ↔ contains_dot s = true.
Proof.
  induction s as [|c s IH]; cbn [split_dot contains_dot].
  - cbn. split; [lia|done].
  - destruct (Ascii.eqb c ".") eqn:Hc; cbn [orb].
    + pose proof (split_dot_nonempty s). destruct (split_dot s); [done|]. cbn. split; [done|lia].
    + rewrite <- IH. pose proof (split_dot_nonempty s).
      destruct (split_dot s) as [|h t]; [done|]. done.
Qed.

Lemma elem_of_nestedSecrets secrets0 s :
  s ∈ (seperateSecretsByNestLevel secrets0).2 ↔ s ∈ secrets0 ∧ contains_dot s = true.
Proof.
  cbn [seperateSecretsByNestLevel snd]. rewrite list_elem_of_filter, split_dot_length. tauto.
Qed.

Lemma filter_ext_elem {A} (P Q : A → Prop) `{∀ x, Decision (P x)} `{∀ x, Decision (Q x)}
    (l : list A) :
  (∀ x, x ∈ l → P x ↔ Q x) → filter P l = filter Q l.
Proof.
  induction l as [|x l IH]; intros HPQ; [done|].
  rewrite !filter_cons.
  rewrite IH by (intros y Hy; apply HPQ; by right).
  destruct (decide (P x)) as [HP|HP], (decide (Q x)) as [HQ|HQ]; try done.
  - destruct HQ. apply HPQ; [by left|done].
  - destruct HP. apply HPQ; [by left|done].
Qed.

Lemma seperateSecretsByNestLevel_eq secrets0 :
  seperateSecretsByNestLevel secrets0 =
  (filter (λ s, contains_dot s = false) secrets0,
   filter (λ s, contains_dot s = true) secrets0).
Proof.
  unfold seperateSecretsByNestLevel. f_equal.
  - apply filter_ext_elem. intros s Hs.
    rewrite list_elem_of_filter, split_dot_length.
    destruct (contains_dot s); naive_solver.
  - apply list_filter_iff. intros s. apply split_dot_length.
Qed.

(** X10.  [seperateSecretsByNestLevel] splits the secret paths by the
    presence of a [.]: the first list holds the paths without one and
    the second the paths with one, each in the order of the input, and
    together they hold every path of the input exactly as often as
    the input does. *)
Theorem seperateSecretsByNestLevel_partitions secrets0 :
  seperateSecretsByNestLevel secrets0 =
    (filter (λ s, contains_dot s = false) secrets0,
     filter (λ s, contains_dot s = true) secrets0)
  ∧ (seperateSecretsByNestLevel secrets0).1 ++ (seperateSecretsByNestLevel secrets0).2
      ≡ₚ secrets0.
Proof.
  split; [apply seperateSecretsByNestLevel_eq|].
  rewrite seperateSecretsByNestLevel_eq. cbn [fst snd].
  induction secrets0 as [|s l IH]; [done|].
  rewrite !filter_cons. destruct (contains_dot s) eqn:Hs.
  - rewrite decide_False, decide_True by done.
    rewrite <- Permutation_middle. by f_equiv.
  - rewrite decide_True, decide_False by done. cbn. by f_equiv.
Qed.

Lemma rest_of_line_rejoins s : ∃ rest, s = rest_of_line s +:+ rest.
Proof.
  induction s as [|c s [rest IH]]; [by exists EmptyString|].
  cbn [rest_of_line]. destruct (line_terminator c).
  - by eexists.
  - exists rest. rewrite append_String. by rewrite <- IH.
Qed.


Lemma descend_dotted keys :
  Forall (λ k, k ≠ EmptyString) keys → descend EmptyString keys = dotted keys.
Proof.
  induction keys as [|k keys IH] using rev_ind; intros Hne; [done|].
  apply Forall_app in Hne as [Hkeys _].
  unfold descend in *. rewrite foldl_app. cbn [foldl]. rewrite IH by done.
  by apply subPathOf_dotted.
Qed.

(** X12.  The redactor cuts a path where the resolver joined it: for
    non-empty keys without separators, the path that the resolver
    builds on its way down a chain of at least two keys is cut into
    the first key and the path it builds down the rest. *)
Theorem cut_inverts_descent k rest :
  plain_key k → Forall plain_key rest → rest ≠ [] →
  seperateParentFromChildren (descend EmptyString (k :: rest)) =
  (k, Some (descend EmptyString rest)).
Proof.
  intros Hk Hrest Hne.
  rewrite !descend_dotted
    by (apply plain_keys_nonempty; try constructor; done).
  rewrite seperateParentFromChildren_dotted; [| |done].
  - rewrite decide_False; [done|]. intros ->.
    apply Forall_cons in Hrest as [[? _] _]. done.
  - apply plain_chain_ok; [done|]. by constructor.
Qed.

Lemma recursiveToString_no_object secrets0 v :
  v = VUndef ∨ v = VNull → recursiveToString secrets0 v = TypeError.
Proof.
  intros Hv. rewrite recursiveToString_unfold. unfold recursiveToString_body.
  destruct (seperateSecretsByNestLevel secrets0). by destruct Hv as [-> | ->].
Qed.

(** The calls that a returning call has made: one per parent of a
    nested secret, on an object of the configuration. *)
Lemma recursiveToString_Returns secrets0 config0 out :
  recursiveToString secrets0 (VObj config0) = Returns out →
  ∃ grouped (nested : gmap string MappedConfig),
    groupedNestedSecrets (seperateSecretsByNestLevel secrets0).2 = Returns grouped
    ∧ (∀ k, match grouped !! k with
            | None => nested !! k = None
            | Some cs =>
                ∃ cs' c o, all_defined cs = Some cs'
                  ∧ config0 !! k = Some (VObj c)
                  ∧ recursiveToString cs' (VObj c) = Returns o
                  ∧ nested !! k = Some o
            end)
    ∧ ∀ k, out !! k =
           match nested !! k with
           | Some o => Some (VObj o)
           | None => (λ v, if decide (k ∈ (seperateSecretsByNestLevel secrets0).1)
                           then marker else v) <$> config0 !! k
           end.
Proof.
  rewrite recursiveToString_unfold. intros Hout.
  apply recursiveToString_body_VObj in Hout as (grouped & nested & Hg & Hcalls & ->).
  exists grouped, nested. split; [done|]. split; [|intros k; apply lookup_assembled].
  intros k. pose proof (calls_lookup _ _ _ _ k Hcalls) as Hk.
  destruct (grouped !! k) as [cs|]; [|done].
  destruct Hk as (cs' & o & Hdef & Hcall & Hn).
  destruct (recursiveToString_body_Returns recursiveToString cs'
              (default VUndef (config0 !! k)) o) as [c Hc].
  { by rewrite <- recursiveToString_unfold. }
  exists cs', c, o. rewrite Hc in Hcall. split; [done|]. split; [|done].
  destruct (config0 !! k) as [x|]; cbn in Hc; by subst.
Qed.

(** X13.  The redactor adds and removes no key: the object that
    [recursiveToString] returns has the keys of its configuration, and
    the object that [toStringCurried] prints has the keys of the
    configuration whose value is not [undefined]. *)
Theorem redaction_keeps_the_keys secrets0 config0 out :
  (recursiveToString secrets0 (VObj config0) = Returns out → dom out = dom config0)
  ∧ (toStringCurried secrets0 config0 = Returns out →
     ∀ k, k ∈ dom out ↔ ∃ v, config0 !! k = Some v ∧ v ≠ VUndef).
Proof.
  assert (∀ c o, recursiveToString secrets0 (VObj c) = Returns o → dom o = dom c) as Hdom.
  { intros c o (grouped & nested & _ & Hcalls & Hout)%recursiveToString_Returns.
    apply set_eq. intros k. rewrite !elem_of_dom, Hout.
    specialize (Hcalls k). destruct (grouped !! k) as [cs|].
    - destruct Hcalls as (cs' & c' & o' & _ & -> & _ & ->). split; eauto.
    - rewrite Hcalls. by rewrite fmap_is_Some. }
  split; [apply Hdom|].
  unfold toStringCurried. cbn [json_copy]. intros Hout%Hdom k.
  rewrite Hout, elem_of_dom. unfold is_Some. setoid_rewrite lookup_omap_Some.
  split.
  - intros (x & v & Hx & Hv). exists v. split; [done|]. by destruct v.
  - intros (v & Hv & Hne). exists (json_copy v), v. split; [|done]. by destruct v.
Qed.

Lemma filter_all {A} (P : A → Prop) `{∀ x, Decision (P x)} (l : list A) :
  Forall P l → filter P l = l.
Proof.
  induction 1 as [|x l Hx _ IH]; [done|]. by rewrite filter_cons, decide_True, IH.
Qed.

Lemma filter_none {A} (P : A → Prop) `{∀ x, Decision (P x)} (l : list A) :
  Forall (λ x, ¬ P x) l → filter P l = [].
Proof.
  induction 1 as [|x l Hx _ IH]; [done|]. by rewrite filter_cons, decide_False.
Qed.

(** X14.  With secret paths that hold no [.], [recursiveToString]
    returns for every object: each listed key that the object has
    holds the marker, every other key holds its value, and a listed
    path that is no key adds nothing.  With no secret path at all the
    object is returned as it is. *)
Theorem top_level_secrets_are_masked secrets0 config0 :
  (∀ s, s ∈ secrets0 → contains_dot s = false) →
  ∃ out,
    recursiveToString secrets0 (VObj config0) = Returns out
    ∧ (∀ k, out !! k = (λ v, if decide (k ∈ secrets0) then marker else v) <$> config0 !! k)
    ∧ (secrets0 = [] → out = config0).
Proof.
  intros Hflat.
  pose proof (seperateSecretsByNestLevel_eq secrets0) as Hsep.
  assert (filter (λ s, contains_dot s = true) secrets0 = []) as Hdeep.
  { apply filter_none, Forall_forall. intros s Hs. by rewrite (Hflat s Hs). }
  assert (filter (λ s, contains_dot s = false) secrets0 = secrets0) as Hflat'.
  { apply filter_all. by apply Forall_forall. }
  rewrite Hdeep, Hflat' in Hsep.
  destruct (recursiveToString_body_returns recursiveToString secrets0 config0 ∅) as [out Hout].
  { by rewrite Hsep. }
  { intros k cs Hk. by rewrite lookup_empty in Hk. }
  rewrite <- recursiveToString_unfold in Hout.
  exists out. split; [done|].
  destruct (recursiveToString_Returns _ _ _ Hout) as (grouped & nested & Hg & Hcalls & Hlook).
  rewrite Hsep in Hg, Hlook. cbn [fst snd] in Hg, Hlook. injection Hg as <-.
  assert (∀ k, out !! k = (λ v, if decide (k ∈ secrets0) then marker else v) <$> config0 !! k)
    as Hk.
  { intros k. rewrite Hlook. specialize (Hcalls k). rewrite lookup_empty in Hcalls.
    by rewrite Hcalls. }
  split; [done|]. intros ->. apply map_eq. intros k. rewrite Hk.
  destruct (config0 !! k); [|done]. cbn. by rewrite decide_False by set_solver.
Qed.

Lemma foldl_group_step_inherited cut acc grouped :
  foldl group_step (Returns acc) cut = Returns grouped →
  ∀ pc, pc ∈ cut → pc.1 ∈ object_prototype_members → is_Some (acc !! pc.1).
Proof.
  revert acc. induction cut as [|[p c] cut IH]; intros acc Hg pc Hin Hm.
  { by apply elem_of_nil in Hin. }
  cbn [foldl group_step] in Hg.
  assert (p ∈ object_prototype_members → is_Some (acc !! p)) as Hp.
  { intros Hpm. destruct (acc !! p) as [cs|]; [by eexists|].
    rewrite bool_decide_eq_true_2 in Hg by done.
    by rewrite foldl_group_step_TypeError in Hg. }
  apply elem_of_cons in Hin as [->|Hin]; [by apply Hp|].
  destruct (acc !! p) as [cs|] eqn:Hacc.
  - specialize (IH _ Hg pc Hin Hm).
    destruct (decide (pc.1 = p)) as [->|Hne]; [by rewrite Hacc|].
    by rewrite lookup_insert_ne in IH.
  - destruct (bool_decide (p ∈ object_prototype_members)) eqn:Hb.
    { by rewrite foldl_group_step_TypeError in Hg. }
    specialize (IH _ Hg pc Hin Hm).
    destruct (decide (pc.1 = p)) as [Heq|Hne].
    + rewrite Heq in Hm. apply bool_decide_eq_false in Hb. done.
    + by rewrite lookup_insert_ne in IH.
Qed.

Lemma grouped_of_secret secrets0 grouped s :
  groupedNestedSecrets (seperateSecretsByNestLevel secrets0).2 = Returns grouped →
  s ∈ secrets0 → contains_dot s = true →
  ∃ cs, grouped !! (seperateParentFromChildren s).1 = Some cs
        ∧ (seperateParentFromChildren s).2 ∈ cs.
Proof.
  intros Hg Hs Hdot.
  rewrite (groupedNestedSecrets_Returns _ _ Hg).
  assert ((seperateParentFromChildren s).2 ∈
          children_of (seperateParentFromChildren s).1
            (seperateParentFromChildren <$> (seperateSecretsByNestLevel secrets0).2)) as Hin.
  { apply elem_of_children_of. rewrite <- surjective_pairing.
    apply list_elem_of_fmap. exists s. split; [done|]. by apply elem_of_nestedSecrets. }
  destruct (children_of _ _) as [|c cs]; [by apply elem_of_nil in Hin|]. eauto.
Qed.

(** X15.  A secret path with a [.] that cannot be cut into a parent
    and children (every [.] is followed by the end of the line), or
    whose parent is a name that [Object.prototype] has, makes the
    redactor fail for every configuration: it returns no object. *)
Theorem secret_path_that_cannot_be_cut_raises secrets0 s :
  s ∈ secrets0 → contains_dot s = true →
  (seperateParentFromChildren s).2 = None
  ∨ (seperateParentFromChildren s).1 ∈ object_prototype_members →
  ∀ config0, returned (recursiveToString secrets0 (VObj config0)) = None.
Proof.
  intros Hs Hdot Hbad config0.
  destruct (recursiveToString secrets0 (VObj config0)) as [out| |] eqn:Hout; [|done|done].
  exfalso.
  destruct (recursiveToString_Returns _ _ _ Hout) as (grouped & nested & Hg & Hcalls & _).
  destruct Hbad as [Hnone|Hmember].
  - destruct (grouped_of_secret _ _ _ Hg Hs Hdot) as (cs & Hk & Hin).
    specialize (Hcalls (seperateParentFromChildren s).1). rewrite Hk in Hcalls.
    destruct Hcalls as (cs' & _ & _ & Hdef & _).
    apply all_defined_Some in Hdef as ->. rewrite Hnone in Hin.
    apply list_elem_of_fmap in Hin as (? & ? & _). done.
  - unfold groupedNestedSecrets in Hg.
    eapply (foldl_group_step_inherited _ ∅ _ Hg (seperateParentFromChildren s)) in Hmember.
    + rewrite lookup_empty in Hmember. by destruct Hmember.
    + apply list_elem_of_In, in_map, list_elem_of_In. by apply elem_of_nestedSecrets.
Qed.

(** X16.  A secret path with a [.] whose parent is no key of the
    configuration, or a key that holds [undefined] or [null], makes
    the redactor fail: it returns no object. *)
Theorem secret_below_absent_key_raises secrets0 config0 s :
  s ∈ secrets0 → contains_dot s = true →
  config0 !! (seperateParentFromChildren s).1 = None
  ∨ config0 !! (seperateParentFromChildren s).1 = Some VUndef
  ∨ config0 !! (seperateParentFromChildren s).1 = Some VNull →
  returned (recursiveToString secrets0 (VObj config0)) = None.
Proof.
  intros Hs Hdot Habsent.
  destruct (recursiveToString secrets0 (VObj config0)) as [out| |] eqn:Hout; [|done|done].
  exfalso.
  destruct (recursiveToString_Returns _ _ _ Hout) as (grouped & nested & Hg & Hcalls & _).
  destruct (grouped_of_secret _ _ _ Hg Hs Hdot) as (cs & Hk & _).
  specialize (Hcalls (seperateParentFromChildren s).1). rewrite Hk in Hcalls.
  destruct Hcalls as (cs' & c & _ & _ & Hc & _).
  destruct Habsent as [H|[H|H]]; congruence.
Qed.

(** * Further properties of the redactor on the heap *)

Lemma foldl_nested_step_TypeError self config0 entries :
  foldl (nested_step self config0) TypeError entries = TypeError.
Proof. by induction entries. Qed.

Lemma foldl_nested_step_OffType self config0 entries :
  foldl (nested_step self config0) OffType entries = OffType.
Proof. by induction entries. Qed.

Lemma foldl_nested_step_Returns self config0 entries nested h nested' h' :
  (∀ cs s h0 l0 h1, self cs s h0 = Returns (l0, h1) → h0 `prefix_of` h1) →
  foldl (nested_step self config0) (Returns (nested, h)) entries = Returns (nested', h') →
  h `prefix_of` h' ∧ ∀ k, k ∉ entries.*1 → nested' !! k = nested !! k.
Proof.
  intros Hself. revert nested h.
  induction entries as [|[p cs] entries IH]; intros nested h Hfold.
  { injection Hfold as <- <-. done. }
  cbn [foldl nested_step fst snd] in Hfold.
  destruct (all_defined cs) as [cs'|];
    [|by rewrite foldl_nested_step_TypeError in Hfold].
  destruct (self cs' _ h) as [[l0 h1]| |] eqn:Hcall;
    [|by rewrite foldl_nested_step_TypeError in Hfold
     |by rewrite foldl_nested_step_OffType in Hfold].
  apply IH in Hfold as [Hpre Hkeep]. split.
  - etrans; [|exact Hpre]. by eapply Hself.
  - intros k Hk. cbn in Hk. apply not_elem_of_cons in Hk as [Hne Hk].
    rewrite Hkeep by done. by rewrite lookup_insert_ne.
Qed.

Lemma recursiveToString_at_upto_prefix n secrets0 cfg h lo h' :
  recursiveToString_at_upto n secrets0 cfg h = Returns (lo, h') → h `prefix_of` h'.
Proof.
  revert secrets0 cfg h lo h'. induction n as [|n IH]; intros secrets0 cfg h lo h'; [done|].
  cbn [recursiveToString_at_upto]. unfold recursiveToString_at_body.
  destruct (seperateSecretsByNestLevel secrets0) as [flat deep].
  destruct cfg as [[]|l]; try done.
  destruct (h !! l) as [[config0|]|]; try done.
  destruct (groupedNestedSecrets deep) as [grouped| |]; try done.
  destruct (foldl _ _ _) as [[nested hf]| |] eqn:Hfold; try done.
  intros [= <- <-].
  apply foldl_nested_step_Returns in Hfold as [Hpre _]; [|exact IH].
  etrans; [exact Hpre|]. by apply prefix_app_r.
Qed.

(** X17.  On the heap, a call of [recursiveToString] that returns has
    written no cell of its caller: the heap it found is a prefix of
    the heap it leaves, and the object it returns is a new cell.
    Under a key that is no secret path and no parent of one, the new
    object holds the very slot of the configuration, so a nested
    object there is shared with the input and not copied. *)
Theorem redactor_allocates_and_shares secrets0 l config0 h lo h' :
  h !! l = Some (Obj config0) →
  recursiveToString_at secrets0 (Ref l) h = Returns (lo, h') →
  h `prefix_of` h'
  ∧ length h ≤ lo
  ∧ ∃ out, h' !! lo = Some (Obj out)
      ∧ ∀ k, k ∉ secrets0 →
             (∀ s, s ∈ secrets0 → contains_dot s = true →
                   (seperateParentFromChildren s).1 ≠ k) →
             out !! k = config0 !! k.
Proof.
  intros Hl Hres. split; [by eapply recursiveToString_at_upto_prefix|].
  unfold recursiveToString_at in Hres.
  destruct (depth_bound secrets0) as [|n]; [done|].
  cbn [recursiveToString_at_upto] in Hres. unfold recursiveToString_at_body in Hres.
  destruct (seperateSecretsByNestLevel secrets0) as [flat deep] eqn:Hsep.
  rewrite Hl in Hres.
  destruct (groupedNestedSecrets deep) as [grouped| |] eqn:Hg; try done.
  destruct (foldl _ _ _) as [[nested hf]| |] eqn:Hfold; try done.
  injection Hres as <- <-.
  apply foldl_nested_step_Returns in Hfold as [Hpre Hkeep];
    [|intros; by eapply recursiveToString_at_upto_prefix].
  split; [by apply prefix_length|].
  eexists. split; [apply lookup_snoc|].
  intros k Hk Hparent.
  assert (grouped !! k = None) as Hgk.
  { assert (deep = (seperateSecretsByNestLevel secrets0).2) as Hdeep by by rewrite Hsep.
    rewrite Hdeep in Hg. rewrite (groupedNestedSecrets_Returns _ _ Hg).
    destruct (children_of k _) as [|c cs] eqn:Hc; [done|]. exfalso.
    assert (c ∈ children_of k (seperateParentFromChildren <$>
                                 (seperateSecretsByNestLevel secrets0).2)) as Hin
      by (rewrite Hc; by left).
    apply elem_of_children_of, list_elem_of_fmap in Hin as (s & Heq & Hs).
    apply elem_of_nestedSecrets in Hs as [Hs Hdot].
    apply (Hparent s Hs Hdot). by rewrite <- Heq. }
  assert (nested !! k = None) as Hnk.
  { rewrite Hkeep; [apply lookup_empty|].
    intros Hin. apply list_elem_of_fmap in Hin as ([k' cs] & -> & Hin).
    apply elem_of_map_to_list in Hin. cbn in Hgk. congruence. }
  rewrite lookup_union_r by (by rewrite lookup_fmap, Hnk).
  rewrite lookup_union_r; [done|].
  rewrite lookup_fmap, map_lookup_filter. 
  assert (k ∉ flat) as Hflat.
  { intros Hin. apply Hk.
    assert (flat = (seperateSecretsByNestLevel secrets0).1) as -> by by rewrite Hsep.
    cbn in Hin. by apply list_elem_of_filter in Hin as [_ ?]. }
  destruct (config0 !! k) as [x|]; [|done]. cbn.
  by rewrite option_guard_False.
Qed.


(** * Runs of the resolver *)

(** ** [traverse] *)

Lemma traverse_cons {A B} (f : A → option (completion B)) x l :
  traverse f (x :: l) =
  let* y := f x in let* ys := traverse f l in Some (Return (y :: ys)).
Proof. done. Qed.

Lemma traverse_ext {A B} (f g : A → option (completion B)) l :
  (∀ x, x ∈ l → f x = g x) → traverse f l = traverse g l.
Proof.
  induction l as [|x l IH]; intros Hfg; [done|].
  rewrite !traverse_cons, IH, Hfg; [done|by left|].
  intros y Hy. apply Hfg. by right.
Qed.

Lemma traverse_app {A B} (f : A → option (completion B)) l1 l2 :
  traverse f (l1 ++ l2) =
  let* ys1 := traverse f l1 in
  let* ys2 := traverse f l2 in
  Some (Return (ys1 ++ ys2)).
Proof.
  induction l1 as [|x l1 IH]; cbn [app].
  - cbn. by destruct (traverse f l2) as [[]|].
  - rewrite !traverse_cons, IH. destruct (f x) as [[y|t]|]; cbn; [|done|done].
    destruct (traverse f l1) as [[ys1|t]|]; cbn; [|done|done].
    by destruct (traverse f l2) as [[ys2|t]|].
Qed.

Lemma traverse_map {A B C} (f : B → option (completion C)) (g : A → B) l :
  traverse f (map g l) = traverse (λ x, f (g x)) l.
Proof. induction l as [|x l IH]; [done|]. cbn [map]. by rewrite !traverse_cons, IH. Qed.

(** A traversal whose calls are those of another, each followed by [h]. *)
Lemma traverse_then {A B C} (f : A → option (completion B)) (h : B → C) l :
  traverse (λ x, let* y := f x in Some (Return (h y))) l =
  let* ys := traverse f l in Some (Return (map h ys)).
Proof.
  induction l as [|x l IH]; [done|]. rewrite !traverse_cons, IH.
  destruct (f x) as [[y|t]|]; cbn; [|done|done].
  by destruct (traverse f l) as [[ys|t]|].
Qed.

(** How a traversal ends: every call returns, or the calls before the
    first that does not return, return. *)
Lemma traverse_ends {A B} (f : A → option (completion B)) l :
  match traverse f l with
  | Some (Return ys) => Forall2 (λ x y, f x = Some (Return y)) l ys
  | Some (Throw t) =>
      ∃ l1 x l2 ys, l = l1 ++ x :: l2
        ∧ Forall2 (λ x y, f x = Some (Return y)) l1 ys ∧ f x = Some (Throw t)
  | None =>
      ∃ l1 x l2 ys, l = l1 ++ x :: l2
        ∧ Forall2 (λ x y, f x = Some (Return y)) l1 ys ∧ f x = None
  end.
Proof.
  induction l as [|x l IH]; [by constructor|]. rewrite traverse_cons.
  destruct (f x) as [[y|t]|] eqn:Hx; cbn.
  - destruct (traverse f l) as [[ys|t]|]; cbn.
    + by constructor.
    + destruct IH as (l1 & x' & l2 & ys & -> & Hall & Hx').
      exists (x :: l1), x', l2, (y :: ys). split; [done|]. split; [by constructor|done].
    + destruct IH as (l1 & x' & l2 & ys & -> & Hall & Hx').
      exists (x :: l1), x', l2, (y :: ys). split; [done|]. split; [by constructor|done].
  - exists [], x, l, []. split; [done|]. split; [constructor|done].
  - exists [], x, l, []. split; [done|]. split; [constructor|done].
Qed.

Lemma traverse_Return {A B} (f : A → option (completion B)) l ys :
  traverse f l = Some (Return ys) ↔ Forall2 (λ x y, f x = Some (Return y)) l ys.
Proof.
  split.
  - intros H. pose proof (traverse_ends f l) as He. by rewrite H in He.
  - induction 1 as [|x y l ys Hx _ IH]; [done|]. by rewrite traverse_cons, Hx, IH.
Qed.

(** ** The run and what it returns *)

Lemma getEnvValueOrErrorCurried_Some env subPath key x :
  getEnvValueOrErrorCurried env subPath key = Some x →
  x = lookup_result env subPath key ∧ (key ∈ inherited_values → is_Some (env !! key)).
Proof.
  unfold getEnvValueOrErrorCurried, lookup_result.
  destruct (env !! key) as [s|].
  - destruct (_ =? _); intros [= <-]; (split; [done|by eexists]).
  - case_bool_decide as Hk; [done|]. intros [= <-]. done.
Qed.

Lemma getEnvValueOrErrorCurried_own env subPath key :
  (key ∈ inherited_values → is_Some (env !! key)) →
  getEnvValueOrErrorCurried env subPath key = Some (lookup_result env subPath key).
Proof.
  unfold getEnvValueOrErrorCurried, lookup_result. intros Hown.
  destruct (env !! key) as [s|]; [by destruct (_ =? _)|].
  case_bool_decide as Hk; [|done]. by destruct (Hown Hk).
Qed.

Lemma getMapConfigFunction_eq env path key ms :
  getMapConfigFunction env path (key, ms) =
  dispatch env key (subPathOf path key)
    (match ms with SecretValue _ => [subPathOf path key] | Plain _ => [] end)
    (payload ms).
Proof. destruct ms; reflexivity. Qed.

Lemma dispatch_Nested env key subPath secrets0 props :
  dispatch env key subPath secrets0 (Nested props) =
  let* sub := recursiveVerify env props subPath in
  Some (Return ({[ key := VObj (config sub) ]}, errors sub, secrets sub)).
Proof.
  cbn [dispatch]. unfold recursiveVerify.
  rewrite (traverse_ext _ (getMapConfigFunction env subPath)).
  - by destruct (traverse _ props) as [[]|].
  - intros [k [v|s]] _; reflexivity.
Qed.

Lemma first_thrown_app cs1 cs2 :
  first_thrown (cs1 ++ cs2) =
  match first_thrown cs1 with Some t => Some t | None => first_thrown cs2 end.
Proof. induction cs1 as [|[v|t] cs1 IH]; cbn; done. Qed.

Lemma own_lookups_Nested env props :
  own_lookups env (Nested props) ↔
  ∀ e, e ∈ props → own_lookups env (payload e.2).
Proof.
  unfold own_lookups. cbn [lookup_chains]. split.
  - intros H e He l Hl. apply (H (l.1, e.1 :: l.2)).
    apply list_elem_of_In, in_concat. eexists. split.
    + apply in_map_iff. exists e. split; [done|]. by apply list_elem_of_In.
    + apply list_elem_of_In, list_elem_of_fmap. by exists l.
  - intros H l Hl. apply list_elem_of_In, in_concat in Hl as (ls & Hls & Hl).
    apply in_map_iff in Hls as (e & <- & He).
    apply list_elem_of_In, list_elem_of_fmap in Hl as (l' & -> & Hl').
    intros Hin. by apply (H e (proj2 (list_elem_of_In _ _) He) l' Hl').
Qed.

Lemma calls_Nested_cons env e props :
  calls env (Nested (e :: props)) = calls env (payload e.2) ++ calls env (Nested props).
Proof. done. Qed.

Lemma and_then_lookup_result env subPath envKey transformFn :
  match and_then (lookup_result env subPath envKey).1 transformFn with
  | Return v =>
      v = call_result (and_then (lookup_result env subPath envKey).1 transformFn)
      ∧ first_thrown (calls env (Transform envKey transformFn)) = None
  | Throw t => first_thrown (calls env (Transform envKey transformFn)) = Some t
  end.
Proof.
  unfold lookup_result. cbn [calls].
  destruct (env !! envKey) as [s|]; [|done].
  destruct (String.length s =? 0) eqn:Hs; [done|]. cbn [fst and_then]. rewrite Hs.
  by destruct (transformFn s).
Qed.

(** How a call of [dispatch] ends.  When it returns, it returns
    [node_result], no call of a transform function has thrown, and no
    lookup has left the model; when it throws, it throws what the first
    transform function that throws has thrown. *)
Lemma dispatch_ends env key subPath secrets0 n :
  match dispatch env key subPath secrets0 n with
  | Some (Return m) =>
      m = node_result env key subPath secrets0 n
      ∧ first_thrown (calls env n) = None
      ∧ own_lookups env n
  | Some (Throw t) => first_thrown (calls env n) = Some t
  | None => ¬ own_lookups env n
  end.
Proof.
  revert key subPath secrets0.
  induction n as [v|envKey fn|name|props IH] using node_induction;
    intros key subPath secrets0.
  - cbn. split; [done|]. split; [done|]. intros l Hl. by apply elem_of_nil in Hl.
  - cbn [dispatch node_result].
    destruct (getEnvValueOrErrorCurried env subPath envKey) as [[envValue errs]|] eqn:Hget.
    + apply getEnvValueOrErrorCurried_Some in Hget as [Hget Hown].
      pose proof (and_then_lookup_result env subPath envKey fn) as Hcall.
      rewrite <- Hget in *. cbn [fst] in Hcall.
      destruct (and_then envValue fn) as [v|t]; cbn.
      * destruct Hcall as [-> Hnone]. split; [done|]. split; [done|].
        intros l ->%list_elem_of_singleton. exact Hown.
      * done.
    + intros Hown. unfold getEnvValueOrErrorCurried in Hget.
      destruct (env !! envKey) as [s|] eqn:Hs; [by destruct (_ =? _)|].
      case_bool_decide as Hk; [|done].
      destruct (Hown (envKey, [])) as [? ?]; [by left|done|]. cbn in *. congruence.
  - cbn [dispatch node_result].
    destruct (getEnvValueOrErrorCurried env subPath name) as [[envValue errs]|] eqn:Hget.
    + apply getEnvValueOrErrorCurried_Some in Hget as [Hget Hown].
      rewrite <- Hget. split; [done|]. split; [done|].
      intros l ->%list_elem_of_singleton. exact Hown.
    + intros Hown. unfold getEnvValueOrErrorCurried in Hget.
      destruct (env !! name) as [s|] eqn:Hs; [by destruct (_ =? _)|].
      case_bool_decide as Hk; [|done].
      destruct (Hown (name, [])) as [? ?]; [by left|done|]. cbn in *. congruence.
  - cbn [dispatch node_result].
    set (f := λ entry : string * maybeSecret node,
                let sp := subPathOf subPath entry.1 in
                match entry.2 with
                | SecretValue s => dispatch env entry.1 sp [sp] s
                | Plain v => dispatch env entry.1 sp [] v
                end).
    set (g := λ entry : string * maybeSecret node,
                let sp := subPathOf subPath entry.1 in
                match entry.2 with
                | SecretValue s => node_result env entry.1 sp [sp] s
                | Plain v => node_result env entry.1 sp [] v
                end).
    assert (∀ e, e ∈ props →
              match f e with
              | Some (Return m) =>
                  m = g e ∧ first_thrown (calls env (payload e.2)) = None
                  ∧ own_lookups env (payload e.2)
              | Some (Throw t) => first_thrown (calls env (payload e.2)) = Some t
              | None => ¬ own_lookups env (payload e.2)
              end) as Hf.
    { rewrite Forall_forall in IH. intros [k ms] He. specialize (IH _ He).
      subst f g. cbn beta zeta. cbn [fst snd] in *. destruct ms as [v|s]; apply IH. }
    clear IH. pose proof (traverse_ends f props) as Hends.
    assert (∀ l ys, (∀ e, e ∈ l → e ∈ props) →
              Forall2 (λ x y, f x = Some (Return y)) l ys →
              ys = map g l ∧ first_thrown (calls env (Nested l)) = None
              ∧ ∀ e, e ∈ l → own_lookups env (payload e.2)) as Hret.
    { intros l ys Hsub Hall. induction Hall as [|e y l ys He _ IHl].
      - split; [done|]. split; [done|]. intros e He. by apply elem_of_nil in He.
      - destruct IHl as (-> & Hnone & Hown); [intros e' ?; apply Hsub; by right|].
        pose proof (Hf e (Hsub e ltac:(by left))) as Hfe. rewrite He in Hfe.
        destruct Hfe as (-> & Hnone' & Hown'). split; [done|]. split.
        + by rewrite calls_Nested_cons, first_thrown_app, Hnone'.
        + intros e' [->|He']%elem_of_cons; [done|by apply Hown]. }
    destruct (traverse f props) as [[ys|t]|]; cbn.
    + destruct (Hret props ys) as (-> & Hnone & Hown); [done|done|].
      split; [done|]. split; [done|]. by apply own_lookups_Nested.
    + destruct Hends as (l1 & x & l2 & ys & Hprops & Hall & Hx).
      assert (∀ e, e ∈ l1 ++ x :: l2 → e ∈ props) as Hsub by (by rewrite Hprops).
      destruct (Hret l1 ys) as (_ & Hnone & _); [|done|].
      { intros e He. apply Hsub, elem_of_app. by left. }
      pose proof (Hf x (Hsub x ltac:(apply elem_of_app; right; by left))) as Hfx.
      rewrite Hx in Hfx. rewrite Hprops. clear Hprops Hsub Hall.
      induction l1 as [|e l1 IHl1]; cbn [app].
      * cbn [map concat]. by rewrite first_thrown_app, Hfx.
      * cbn [calls map concat] in Hnone |- *. rewrite first_thrown_app in Hnone |- *.
        destruct (first_thrown (calls env (payload e.2))); [done|]. by apply IHl1.
    + destruct Hends as (l1 & x & l2 & ys & Hprops & Hall & Hx).
      pose proof (Hf x) as Hfx. rewrite Hx in Hfx.
      intros Hown. apply Hfx.
      * rewrite Hprops. apply elem_of_app. right. by left.
      * eapply own_lookups_Nested; [exact Hown|].
        rewrite Hprops. apply elem_of_app. right. by left.
Qed.

Lemma Verified_eq (r1 r2 : Verified) :
  config r1 = config r2 → errors r1 = errors r2 → secrets r1 = secrets r2 → r1 = r2.
Proof. destruct r1, r2. cbn. by intros -> -> ->. Qed.

Lemma recursiveVerify_ends env cfg path :
  match recursiveVerify env cfg path with
  | Some (Return r) =>
      r = schema_result env cfg path
      ∧ first_thrown (calls_of env cfg) = None
      ∧ reads_own env cfg
  | Some (Throw t) => first_thrown (calls_of env cfg) = Some t
  | None => ¬ reads_own env cfg
  end.
Proof.
  pose proof (dispatch_ends env EmptyString path [] (Nested cfg)) as H.
  rewrite dispatch_Nested in H.
  destruct (recursiveVerify env cfg path) as [[r|t]|]; cbn [after] in H; [|done|done].
  destruct H as (Hr & Hnone & Hown). split; [|done].
  rewrite node_result_Nested in Hr. cbn zeta in Hr.
  pose proof (f_equal (λ m : Mapped, m.1.1 !! EmptyString) Hr) as Hc.
  pose proof (f_equal (λ m : Mapped, m.1.2) Hr) as He.
  pose proof (f_equal (λ m : Mapped, m.2) Hr) as Hs.
  cbn [fst snd] in Hc, He, Hs. rewrite !lookup_singleton_eq in Hc. injection Hc as Hc.
  by apply Verified_eq.
Qed.

Lemma recursiveVerify_returned env cfg path r :
  recursiveVerify env cfg path = Some (Return r) →
  r = schema_result env cfg path
  ∧ first_thrown (calls_of env cfg) = None ∧ reads_own env cfg.
Proof. intros H. pose proof (recursiveVerify_ends env cfg path) as He. by rewrite H in He. Qed.

Lemma recursiveVerify_run env cfg path :
  reads_own env cfg →
  recursiveVerify env cfg path =
  Some (match first_thrown (calls_of env cfg) with
        | Some t => Throw t
        | None => Return (schema_result env cfg path)
        end).
Proof.
  intros Hown. pose proof (recursiveVerify_ends env cfg path) as He.
  destruct (recursiveVerify env cfg path) as [[r|t]|].
  - destruct He as (-> & -> & _). done.
  - by rewrite He.
  - done.
Qed.

Lemma getMapConfigFunction_returned env path e m :
  getMapConfigFunction env path e = Some (Return m) → m = entry_result env path e.
Proof.
  destruct e as [k ms]. rewrite getMapConfigFunction_eq, entry_result_eq. intros H.
  pose proof (dispatch_ends env k (subPathOf path k)
                (match ms with SecretValue _ => [subPathOf path k] | Plain _ => [] end)
                (payload ms)) as He.
  rewrite H in He. by destruct He.
Qed.

(** The entries of a run that returns have returned. *)
Lemma recursiveVerify_entry env cfg path r e :
  recursiveVerify env cfg path = Some (Return r) → e ∈ cfg →
  getMapConfigFunction env path e = Some (Return (entry_result env path e)).
Proof.
  unfold recursiveVerify. intros H He.
  destruct (traverse _ cfg) as [[ms|t]|] eqn:Ht; [|done|done].
  apply traverse_Return in Ht. clear H.
  induction Ht as [|x y l ys Hx _ IH]; [by apply elem_of_nil in He|].
  apply elem_of_cons in He as [->|He]; [|by apply IH].
  by rewrite Hx, (getMapConfigFunction_returned _ _ _ _ Hx).
Qed.

(** ** Paths and chains *)

Lemma dotted_concat keys : dotted keys = String.concat "." keys.
Proof.
  unfold dotted. induction keys as [|k [|k' rest] IH]; [done|done|].
  cbn [join String.concat] in *. by rewrite IH.
Qed.

Lemma subPathOf_nonempty path key :
  path ≠ EmptyString → subPathOf path key = path +:+ "." +:+ key.
Proof. unfold subPathOf. by destruct path. Qed.

Lemma append_nonempty a b : a ≠ EmptyString → a +:+ b ≠ EmptyString.
Proof. by destruct a. Qed.

Lemma descend_snoc path keys k : descend path (keys ++ [k]) = subPathOf (descend path keys) k.
Proof. unfold descend. by rewrite foldl_app. Qed.

Lemma descend_from_nonempty path keys :
  path ≠ EmptyString →
  descend path keys ≠ EmptyString ∧ descend path keys = dotted (path :: keys).
Proof.
  intros Hp. induction keys as [|k keys [Hne IH]] using rev_ind; [done|].
  rewrite descend_snoc, subPathOf_nonempty by done. split.
  - by apply append_nonempty.
  - rewrite IH. change (path :: keys ++ [k]) with ((path :: keys) ++ [k]).
    by rewrite dotted_snoc.
Qed.

Lemma descend_rooted keys :
  rooted keys → descend EmptyString keys = String.concat "." keys.
Proof.
  intros Hr. rewrite <- dotted_concat. destruct keys as [|k rest]; [done|].
  destruct (decide (k = EmptyString)) as [->|Hk].
  - by rewrite (Hr rest eq_refl).
  - change (descend EmptyString (k :: rest)) with (descend k rest).
    by apply descend_from_nonempty.
Qed.

Lemma concat_map_fmap {A B C} (f : B → C) (g : A → list B) (l : list A) :
  f <$> concat (map g l) = concat (map (λ x, f <$> g x) l).
Proof. induction l as [|x l IH]; [done|]. cbn. by rewrite fmap_app, IH. Qed.

Lemma lookups_chains path n :
  lookups path n = (λ l : string * chain, (l.1, descend path l.2)) <$> lookup_chains n.
Proof.
  revert path. induction n as [v|envKey fn|name|props IH] using node_induction;
    intros path; try done.
  cbn [lookups lookup_chains]. rewrite concat_map_fmap.
  f_equal. induction IH as [|e props He _ IHprops]; [done|]. cbn [map].
  rewrite IHprops, He, <- list_fmap_compose. done.
Qed.

Lemma secret_leaves_descend path wrapped n :
  secret_leaves path wrapped n = descend path <$> leaf_chains wrapped n.
Proof.
  revert path wrapped. induction n as [v|envKey fn|name|props IH] using node_induction;
    intros path wrapped; try (by destruct wrapped).
  cbn [secret_leaves leaf_chains]. rewrite concat_map_fmap.
  f_equal. induction IH as [|e props He _ IHprops]; [done|]. cbn [map].
  rewrite IHprops, He, <- list_fmap_compose. done.
Qed.

Lemma at_path_lookup keys cfg ms envKey :
  at_path keys cfg ms → looks_up (payload ms) envKey →
  (envKey, keys) ∈ lookup_chains_of cfg.
Proof.
  unfold lookup_chains_of.
  induction 1 as [k ms cfg Hin | k ms sub rest cfg target Hin Hsub Hat IH]; intros Hleaf.
  - cbn [lookup_chains]. apply list_elem_of_In, in_concat. eexists. split.
    + apply in_map_iff. exists (k, ms). split; [done|]. by apply list_elem_of_In.
    + apply list_elem_of_In, list_elem_of_fmap. exists (envKey, []). split; [done|].
      cbn [snd]. destruct Hleaf as [-> | [fn ->]]; by left.
  - cbn [lookup_chains]. apply list_elem_of_In, in_concat. eexists. split.
    + apply in_map_iff. exists (k, ms). split; [done|]. by apply list_elem_of_In.
    + apply list_elem_of_In, list_elem_of_fmap. exists (envKey, rest). split; [done|].
      cbn [snd]. rewrite Hsub. by apply IH.
Qed.

Lemma at_path_secret_chain keys cfg ms :
  at_path keys cfg ms → is_secret ms = true → (∀ sub, payload ms ≠ Nested sub) →
  keys ∈ secret_chains cfg.
Proof.
  unfold secret_chains.
  induction 1 as [k ms cfg Hin | k ms sub rest cfg target Hin Hsub Hat IH];
    intros Hsecret Hleaf.
  - apply elem_of_leaf_chains_Nested. exists k, ms, []. split; [done|]. split; [done|].
    rewrite Hsecret. destruct (payload ms) as [| | |sub]; try by left.
    by destruct (Hleaf sub).
  - apply elem_of_leaf_chains_Nested. exists k, ms, rest. split; [done|]. split; [done|].
    rewrite Hsub. assert (rest ∈ leaf_chains false (Nested sub)) as Hrest by by apply IH.
    clear -Hrest. destruct (is_secret ms); [|done].
    apply elem_of_leaf_chains_Nested in Hrest. by apply elem_of_leaf_chains_Nested.
Qed.

(** ** Leaves *)

Lemma schema_result_errors_chains env cfg :
  errors (schema_result env cfg EmptyString) =
  (λ l : string * chain, mkError (missing_message l.1 (descend EmptyString l.2))) <$>
    filter (λ l, missing env l.1) (lookup_chains_of cfg).
Proof.
  rewrite schema_result_errors_lookups.
  change (lookups_of EmptyString cfg) with (lookups EmptyString (Nested cfg)).
  rewrite lookups_chains. unfold lookup_chains_of.
  induction (lookup_chains (Nested cfg)) as [|l ls IH]; [done|].
  rewrite fmap_cons, !filter_cons. cbn [fst].
  destruct (decide (missing env l.1)); [|done]. by rewrite !fmap_cons, IH.
Qed.

Lemma missing_message_at key keys :
  rooted keys → missing_message key (descend EmptyString keys) = message_at key keys.
Proof. intros Hr. unfold missing_message, message_at. by rewrite descend_rooted. Qed.

Lemma leaf_path parents key :
  rooted (parents ++ [key]) →
  subPathOf (descend EmptyString parents) key = String.concat "." (parents ++ [key]).
Proof. intros Hr. by rewrite <- descend_snoc, descend_rooted. Qed.

(** A lookup of a name that [Object.prototype] does not have reads the
    environment's own property or nothing. *)
Lemma reads_own_plain env cfg :
  forallb (λ l : string * chain, negb (bool_decide (l.1 ∈ inherited_values)))
    (lookup_chains_of cfg) = true →
  reads_own env cfg.
Proof.
  intros Hall l Hl Hin. rewrite forallb_forall in Hall.
  apply list_elem_of_In, Hall, negb_true_iff, bool_decide_eq_false in Hl. done.
Qed.

(** C1.  A leaf that looks up an environment value (a plain key, or
    the key of a transform tuple, wrapped in [secret] or not) and lies
    at a chain of keys that does not go through an empty top-level
    key.  When the environment has no value or the empty string for
    the name, and the name is not one under which [Object.prototype]
    has a value, the leaf yields exactly one error, whose message is
    [environment value <key> is missing from config object at] followed
    by the dotted path of the chain; in a run that returns, the
    resolved configuration holds [undefined] at the chain and the error
    is among the errors of the run.  When the value is there and not
    empty, the leaf yields no error. *)
Theorem missing_value_one_error env cfg parents key ms envKey :
  unique_keys cfg → at_path (parents ++ [key]) cfg ms → looks_up (payload ms) envKey →
  rooted (parents ++ [key]) →
  (envKey ∈ inherited_values → is_Some (env !! envKey)) →
  let leaf := getMapConfigFunction env (descend EmptyString parents) (key, ms) in
  let error :=
    mkError ("environment value " +:+ envKey +:+ " is missing from config object at " +:+
             String.concat "." (parents ++ [key])) in
  (missing env envKey →
     (∃ recorded, leaf = Some (Return ({[ key := VUndef ]}, [error], recorded)))
     ∧ ∀ r, recursiveVerify env cfg EmptyString = Some (Return r) →
         get_path (parents ++ [key]) (VObj (config r)) = VUndef ∧ error ∈ errors r)
  ∧ (∀ s, env !! envKey = Some s → s ≠ EmptyString →
       ∀ m, leaf = Some (Return m) → m.1.2 = []).
Proof.
  intros Hu Hat Hleaf Hroot Hown leaf error. subst leaf. split.
  - intros Hm. split.
    + eexists. rewrite getMapConfigFunction_eq, (leaf_path _ _ Hroot).
      destruct Hleaf as [-> | [fn ->]]; cbn [dispatch];
        rewrite getEnvValueOrErrorCurried_own, lookup_result_missing by done; done.
    + intros r (-> & _ & _)%recursiveVerify_returned. split.
      * rewrite (schema_result_at_path _ _ _ _ _ Hu Hat). cbn zeta.
        destruct Hleaf as [-> | [fn ->]]; by rewrite decide_True.
      * rewrite schema_result_errors_chains.
        apply list_elem_of_fmap. exists (envKey, parents ++ [key]). split.
        -- cbn [fst snd]. by rewrite missing_message_at.
        -- apply list_elem_of_filter. split; [done|]. by eapply at_path_lookup.
  - intros s Hs Hne m Hret. apply getMapConfigFunction_returned in Hret as ->.
    rewrite entry_result_eq.
    destruct Hleaf as [-> | [fn ->]]; cbn [node_result];
      by rewrite (lookup_result_present _ _ _ s).
Qed.

(** C1 as stated fails in two places.  Below an empty key: the path of
    the leaf [a] in the nested schema under the top-level key [""]
    restarts at [a], where the dotted path of the chain is [.a].  For a
    name that [Object.prototype] has: in an empty environment the
    lookup of [constructor] reads the inherited function, so the leaf
    does not resolve to [undefined] with an error. *)
Lemma missing_value_not_as_claimed :
  ¬ (∀ r,
       recursiveVerify ∅ [(EmptyString, Plain (Nested [("a", Plain (EnvKey "A"))]))]
         EmptyString = Some (Return r) →
       missing ∅ "A" →
       map message (errors r) = [message_at "A" [EmptyString; "a"]])
  ∧ ¬ (missing ∅ "constructor" →
       ∃ recorded,
         getMapConfigFunction ∅ EmptyString ("k", Plain (EnvKey "constructor")) =
         Some (Return ({[ "k" := VUndef ]}, [mkError (message_at "constructor" ["k"])],
                       recorded))).
Proof.
  split.
  - intros H. specialize (H _ eq_refl (or_introl (lookup_empty _))). by vm_compute in H.
  - intros H. destruct H as [recorded H]; [by left|]. by vm_compute in H.
Qed.

(** C6.  A transform tuple at a chain of keys that does not go through
    an empty top-level key.  When the environment has no value or the
    empty string for its name, and the name is not one under which
    [Object.prototype] has a value, the function is not called: whatever
    it is, also one that always throws, the leaf resolves to
    [undefined] with the one error that names the key and the dotted
    path of the chain.  When the value is there and not empty, the
    function is called on that string: the leaf resolves to what it
    returns, without error, and throws what it throws.  In both cases
    the dotted path is recorded as secret exactly when the tuple is
    wrapped. *)
Theorem transform_only_on_present_value env parents key (wrapped : bool) envKey transformFn :
  rooted (parents ++ [key]) →
  (envKey ∈ inherited_values → is_Some (env !! envKey)) →
  let wrap := λ n, if wrapped then secret n else Plain n in
  let path := descend EmptyString parents in
  let recorded := if wrapped then [String.concat "." (parents ++ [key])] else [] in
  (missing env envKey →
     ∀ anyFn,
       getMapConfigFunction env path (key, wrap (Transform envKey anyFn)) =
       Some (Return ({[ key := VUndef ]},
                     [mkError ("environment value " +:+ envKey +:+
                               " is missing from config object at " +:+
                               String.concat "." (parents ++ [key]))],
                     recorded)))
  ∧ (∀ raw, env !! envKey = Some raw → raw ≠ EmptyString →
       getMapConfigFunction env path (key, wrap (Transform envKey transformFn)) =
       Some (match transformFn raw with
             | Return v => Return ({[ key := v ]}, [], recorded)
             | Throw t => Throw t
             end)).
Proof.
  intros Hroot Hown wrap path recorded. subst path. split.
  - intros Hm anyFn. rewrite getMapConfigFunction_eq, (leaf_path _ _ Hroot).
    replace (payload (wrap (Transform envKey anyFn))) with (Transform envKey anyFn)
      by by destruct wrapped.
    cbn [dispatch]. rewrite getEnvValueOrErrorCurried_own, lookup_result_missing by done.
    subst recorded wrap. by destruct wrapped.
  - intros raw Hraw Hne. rewrite getMapConfigFunction_eq, (leaf_path _ _ Hroot).
    replace (payload (wrap (Transform envKey transformFn)))
      with (Transform envKey transformFn) by by destruct wrapped.
    cbn [dispatch].
    rewrite getEnvValueOrErrorCurried_own, (lookup_result_present _ _ _ raw) by done.
    subst recorded wrap. destruct raw; [done|]. cbn [and_then String.length Nat.eqb].
    destruct (transformFn _); by destruct wrapped.
Qed.

(** C6 as stated fails in two places.  Below an empty key: the error
    of the transform tuple [k] in the nested schema under the top-level
    key [""] names the path [k], where the path of the leaf is [.k].
    For a name that [Object.prototype] has: in an empty environment the
    lookup of [constructor] reads the inherited function, so the tuple
    does not resolve to [undefined] with an error. *)
Lemma transform_leaf_not_as_claimed :
  ¬ (∀ r,
       recursiveVerify ∅
         [(EmptyString, Plain (Nested [("k", Plain (Transform "X" (λ s, Return (VStr s))))]))]
         EmptyString = Some (Return r) →
       missing ∅ "X" →
       map message (errors r) = [message_at "X" [EmptyString; "k"]])
  ∧ ¬ (missing ∅ "constructor" →
       ∃ recorded,
         getMapConfigFunction ∅ EmptyString
           ("k", Plain (Transform "constructor" (λ s, Return (VStr s)))) =
         Some (Return ({[ "k" := VUndef ]}, [mkError (message_at "constructor" ["k"])],
                       recorded))).
Proof.
  split.
  - intros H. specialize (H _ eq_refl (or_introl (lookup_empty _))). by vm_compute in H.
  - intros H. destruct H as [recorded H]; [by left|]. by vm_compute in H.
Qed.

(** C10.  A literal wrapped as [secret (insert v)] at a chain of keys
    that does not go through an empty top-level key resolves to [v]
    whatever the environment holds, with no error, and records the
    dotted path of the chain as secret; in a run that returns, the
    resolved configuration holds [v] at the chain and the dotted path is
    among the recorded secrets. *)
Theorem secret_insert_resolves env cfg parents key v :
  unique_keys cfg → at_path (parents ++ [key]) cfg (secret (insert v)) →
  rooted (parents ++ [key]) →
  (∀ anyEnv,
     getMapConfigFunction anyEnv (descend EmptyString parents) (key, secret (insert v)) =
     Some (Return ({[ key := v ]}, [], [String.concat "." (parents ++ [key])])))
  ∧ ∀ r, recursiveVerify env cfg EmptyString = Some (Return r) →
      get_path (parents ++ [key]) (VObj (config r)) = v
      ∧ String.concat "." (parents ++ [key]) ∈ secrets r.
Proof.
  intros Hu Hat Hroot. split.
  - intros anyEnv. rewrite getMapConfigFunction_eq, (leaf_path _ _ Hroot). done.
  - intros r (-> & _ & _)%recursiveVerify_returned. split.
    + by rewrite (schema_result_at_path _ _ _ _ _ Hu Hat).
    + rewrite schema_result_secret_leaves.
      change (secret_leaves_of EmptyString cfg)
        with (secret_leaves EmptyString false (Nested cfg)).
      rewrite secret_leaves_descend. apply list_elem_of_fmap.
      exists (parents ++ [key]). split; [by rewrite descend_rooted|].
      by apply (at_path_secret_chain _ _ _ Hat).
Qed.

(** C10 as stated fails below an empty key: the path recorded for [k]
    in the nested schema under the top-level key [""] is [k], and the
    dotted path [.k] is not recorded. *)
Lemma secret_insert_below_an_empty_key :
  ¬ (∀ r,
       recursiveVerify ∅
         [(EmptyString, Plain (Nested [("k", secret (insert (VBool true)))]))]
         EmptyString = Some (Return r) →
       String.concat "." [EmptyString; "k"] ∈ secrets r).
Proof.
  intros H. specialize (H _ eq_refl). vm_compute in H.
  by apply list_elem_of_singleton in H.
Qed.

(** ** The traversal *)

(** A run returns exactly when no lookup leaves the model and no call
    of a transform function throws. *)
Lemma recursiveVerify_returns env cfg path :
  (∃ r, recursiveVerify env cfg path = Some (Return r)) ↔
  reads_own env cfg ∧ first_thrown (calls_of env cfg) = None.
Proof.
  split.
  - intros [r (_ & ? & ?)%recursiveVerify_returned]. done.
  - intros [Hown Hnone]. rewrite (recursiveVerify_run _ _ _ Hown), Hnone. eauto.
Qed.

(** C2.  The resolved configuration has the shape of the schema: at
    every level it has exactly the keys of the schema, and under the
    key of a nested schema an object that again has the shape of that
    schema.  This holds of every run that returns, and a run returns
    when no transform function throws and no lookup reads a member of
    [Object.prototype]. *)
Theorem resolved_keys_are_schema_keys env cfg path :
  unique_keys cfg →
  (reads_own env cfg → first_thrown (calls_of env cfg) = None →
   ∃ r, recursiveVerify env cfg path = Some (Return r))
  ∧ ∀ r, recursiveVerify env cfg path = Some (Return r) → same_keys cfg (config r).
Proof.
  intros Hu. split.
  - intros Hown Hnone. by apply recursiveVerify_returns.
  - intros r (-> & _ & _)%recursiveVerify_returned. by apply schema_result_same_keys.
Qed.

(** C4.  The resolver throws only what a transform function throws:
    when no lookup reads a member of [Object.prototype], a run returns
    exactly when every call of a transform function returns, and
    otherwise throws what the first of them that throws, in the order
    of the traversal, has thrown.  What a run returns accounts for the
    whole schema: the errors are exactly those of the lookups that find
    nothing, in the order of a depth-first traversal along the keys, so
    a failure stops nothing after it; the recorded secret paths are
    those of the wrapped leaves in that order; and every key of the
    schema is resolved.  The paths are the dotted paths of the chains
    of keys that do not go through an empty top-level key. *)
Theorem resolution_collects_in_traversal_order env cfg :
  (reads_own env cfg →
   ((∃ r, recursiveVerify env cfg EmptyString = Some (Return r)) ↔
    first_thrown (calls_of env cfg) = None)
   ∧ ∀ t, recursiveVerify env cfg EmptyString = Some (Throw t) ↔
          first_thrown (calls_of env cfg) = Some t)
  ∧ ∀ r, recursiveVerify env cfg EmptyString = Some (Return r) →
      let absent := filter (λ l, missing env l.1) (lookup_chains_of cfg) in
      errors r =
        (λ l : string * chain,
           mkError ("environment value " +:+ l.1 +:+
                    " is missing from config object at " +:+ descend EmptyString l.2))
          <$> absent
      ∧ (Forall (λ l, rooted l.2) absent →
         map message (errors r) =
           (λ l : string * chain,
              "environment value " +:+ l.1 +:+ " is missing from config object at " +:+
              String.concat "." l.2) <$> absent)
      ∧ secrets r = descend EmptyString <$> secret_chains cfg
      ∧ (Forall rooted (secret_chains cfg) →
         secrets r = String.concat "." <$> secret_chains cfg)
      ∧ dom (config r) = list_to_set cfg.*1.
Proof.
  split.
  - intros Hown. rewrite (recursiveVerify_run _ _ _ Hown).
    destruct (first_thrown (calls_of env cfg)) as [t|]; split.
    + split; [by intros [r ?]|done].
    + intros t'. split; congruence.
    + split; [done|eauto].
    + intros t'. split; congruence.
  - intros r (-> & _ & _)%recursiveVerify_returned absent.
    assert (secrets (schema_result env cfg EmptyString)
            = descend EmptyString <$> secret_chains cfg) as Hs.
    { rewrite schema_result_secret_leaves.
      change (secret_leaves_of EmptyString cfg)
        with (secret_leaves EmptyString false (Nested cfg)).
      apply secret_leaves_descend. }
    split; [apply schema_result_errors_chains|]. split; [|split; [done|split]].
    + intros Hroot. rewrite schema_result_errors_chains. fold absent.
      rewrite <- list_fmap_compose. apply list_fmap_ext.
      intros i l Hl. cbn. rewrite Forall_forall in Hroot.
      rewrite descend_rooted; [done|]. apply Hroot. by eapply list_elem_of_lookup_2.
    + intros Hroot. rewrite Hs.
      apply list_fmap_ext. intros i c Hc. rewrite Forall_forall in Hroot.
      apply descend_rooted, Hroot. by eapply list_elem_of_lookup_2.
    + apply schema_result_dom.
Qed.

(** C4 as stated fails in two places.  For a transform function that
    throws: the resolver throws what the function has thrown, and
    returns no list of errors.  For a name that [Object.prototype] has:
    in an empty environment the lookup of [constructor] finds no
    environment value, and no run returns an error for it. *)
Lemma resolution_raises_or_hides_a_failure :
  let cfg : ConfigWithEnvKeys :=
    [("port", Plain (Transform "PORT" (λ _, Throw (ErrorThrown "not a number"))));
     ("host", Plain (EnvKey "HOST"))] in
  let env : Env := {[ "PORT" := "eighty" ]} in
  (recursiveVerify env cfg EmptyString = Some (Throw (ErrorThrown "not a number"))
   ∧ ¬ ∃ r, recursiveVerify env cfg EmptyString = Some (Return r))
  ∧ ¬ ∃ r, recursiveVerify ∅ [("k", Plain (EnvKey "constructor"))] EmptyString
             = Some (Return r)
           ∧ errors r = [mkError (message_at "constructor" ["k"])].
Proof.
  split; [split; [reflexivity|by intros [r Hr]]|]. by intros (r & Hr & _).
Qed.

(** ** Secret paths *)

(** C9, for schemas whose keys are unique, non-empty and free of
    separators at every depth and in which [secret] wraps leaves only.
    Every secret path that a run records names a key that the resolved
    configuration has: it is the dotted path of a chain of keys that
    leads to one, a path without [.] for a top-level key and a path
    with [.] for a key inside objects none of which is recorded as
    secret.  A wrapped leaf records exactly one path, its own. *)
Theorem recorded_paths_of_secret_leaves env cfg :
  secrets_on_leaves cfg →
  (∀ r, recursiveVerify env cfg EmptyString = Some (Return r) →
        recorded_paths_reference_keys r)
  ∧ ∀ path key leaf m,
      (∀ sub, leaf ≠ Nested sub) →
      getMapConfigFunction env path (key, secret leaf) = Some (Return m) →
      m.2 = [subPathOf path key].
Proof.
  intros Hgood. destruct (schema_result_recorded_paths env cfg Hgood) as [Hrec Hleaf].
  split.
  - by intros r (-> & _ & _)%recursiveVerify_returned.
  - intros path key leaf m Hl ->%getMapConfigFunction_returned. by apply Hleaf.
Qed.

(** C9 as stated fails for a key that holds a [.]: the path recorded
    for the top-level key [a.b] has a [.], and no chain of keys with
    that dotted path and the matching depth leads to a key of the
    resolved configuration. *)
Lemma dotted_key_is_not_referenced :
  ¬ (∀ r,
       recursiveVerify {[ "X" := "x" ]} [("a.b", secret (EnvKey "X"))] EmptyString
         = Some (Return r) →
       recorded_paths_reference_keys r).
Proof.
  intros H. specialize (H _ eq_refl).
  destruct (H "a.b") as (keys & Hne & Hd & Hpath & Hlen & _).
  { vm_compute. by left. }
  destruct keys as [|k rest]; [done|].
  change (config _) with ({[ "a.b" := VStr "x" ]} : MappedConfig) in Hpath.
  cbn [has_path] in Hpath.
  destruct (decide (k = "a.b")) as [->|Hk].
  - rewrite lookup_singleton_eq in Hpath. destruct rest; [|done].
    cbn in Hlen. lia.
  - by rewrite lookup_singleton_ne in Hpath.
Qed.

(** ** The entry points *)

Lemma join_concat sep l : join sep l = String.concat sep l.
Proof.
  induction l as [|x [|y l] IH]; [done|done|].
  cbn [join String.concat] in *. by rewrite IH.
Qed.

Lemma verify_of_run cfg env r :
  verify cfg env r =
  match recursiveVerify env cfg EmptyString with
  | None => None
  | Some (Throw t) => Some (Throw t, r)
  | Some (Return v) =>
      if decide (secrets v = []) then
        Some (Return {| built := config v; messages := message <$> errors v |}, r)
      else
        match config v !! "__proto__" with
        | None =>
            Some (Return {| built := config v; messages := message <$> errors v |},
                  {| ObjectPrototype_toString := Some (mkClosure (secrets v) (config v)) |})
        | Some VUndef | Some VNull => Some (Throw TypeErrorThrown, r)
        | Some _ => None
        end
  end.
Proof.
  unfold verify. destruct (recursiveVerify env cfg EmptyString) as [[v|t]|]; [|done|done].
  by destruct (secrets v).
Qed.

(** C5.  [strictVerify] throws what [verify] throws, and it throws
    [Missing configuration values: ] followed by the messages joined
    by line feeds when [verify] returns at least one message; it
    returns exactly when [verify] returns no message, and then it
    returns the configuration that [verify] has built.  What [verify]
    returns is what the run of the resolver over the whole schema has
    returned: its configuration and the messages of all its errors.
    Either call leaves the realm that [verify] leaves. *)
Theorem strictVerify_raises_iff_errors cfg env r :
  (∀ t r', strictVerify cfg env r = Some (Throw t, r') ↔
     verify cfg env r = Some (Throw t, r')
     ∨ ∃ res, verify cfg env r = Some (Return res, r') ∧ messages res ≠ [] ∧
              t = ErrorThrown
                    ("Missing configuration values: " +:+
                     String.concat (String (Ascii.ascii_of_nat 10) EmptyString)
                       (messages res)))
  ∧ (∀ c r', strictVerify cfg env r = Some (Return c, r') ↔
       ∃ res, verify cfg env r = Some (Return res, r') ∧ messages res = [] ∧ c = built res)
  ∧ (strictVerify cfg env r = None ↔ verify cfg env r = None)
  ∧ (∀ res r', verify cfg env r = Some (Return res, r') →
       ∃ v, recursiveVerify env cfg EmptyString = Some (Return v)
            ∧ built res = config v ∧ messages res = message <$> errors v)
  ∧ (∀ v, recursiveVerify env cfg EmptyString = Some (Return v) →
       secrets v = [] ∨ "__proto__" ∉ cfg.*1 →
       ∃ r', verify cfg env r =
             Some (Return {| built := config v; messages := message <$> errors v |}, r')).
Proof.
  split; [|split; [|split; [|split]]].
  - intros t r'. unfold strictVerify.
    destruct (verify cfg env r) as [[[res|t0] r1]|] eqn:Hv.
    + destruct (messages res) as [|m ms] eqn:Hm; cbn [length Nat.ltb Nat.leb].
      * split; [done|]. intros [?|(res' & [= <- <-] & Hne & _)]; congruence.
      * rewrite join_concat. split.
        -- intros [= <- <-]. right. exists res. by rewrite Hm.
        -- intros [?|(res' & [= <- <-] & _ & ->)]; [done|]. by rewrite Hm.
    + split.
      * intros [= <- <-]. by left.
      * intros [[= <- <-]|(res' & ? & _)]; done.
    + split; [done|]. intros [?|(res' & ? & _)]; done.
  - intros c r'. unfold strictVerify.
    destruct (verify cfg env r) as [[[res|t0] r1]|] eqn:Hv.
    + destruct (messages res) as [|m ms] eqn:Hm; cbn [length Nat.ltb Nat.leb].
      * split.
        -- intros [= <- <-]. by exists res.
        -- intros (res' & [= <- <-] & _ & ->). done.
      * split; [done|]. intros (res' & [= <- <-] & Hnil & _). congruence.
    + split; [done|]. intros (res' & ? & _). done.
    + split; [done|]. intros (res' & ? & _). done.
  - unfold strictVerify. destruct (verify cfg env r) as [[[res|t0] r1]|]; [|done|done].
    by destruct (0 <? _).
  - intros res r'. rewrite verify_of_run.
    destruct (recursiveVerify env cfg EmptyString) as [[v|t]|]; [|done|done].
    case_decide.
    + intros [= <- <-]. by exists v.
    + destruct (config v !! "__proto__") as [[]|]; try done.
      intros [= <- <-]. by exists v.
  - intros v Hv Hok. rewrite verify_of_run, Hv.
    case_decide as Hs; [by eexists|]. destruct Hok as [?|Hp]; [done|].
    apply recursiveVerify_returned in Hv as (-> & _ & _).
    rewrite schema_result_lookup_notin by done. by eexists.
Qed.

(** C5 as stated fails when [verify] itself throws: for a transform
    function that throws, [strictVerify] throws although [verify]
    returns no list of errors. *)
Lemma strictVerify_throws_without_errors :
  let cfg : ConfigWithEnvKeys :=
    [("port", Plain (Transform "PORT" (λ _, Throw (ErrorThrown "not a number"))))] in
  let env : Env := {[ "PORT" := "eighty" ]} in
  ¬ ((∃ t r', strictVerify cfg env initial_realm = Some (Throw t, r')) ↔
     (∃ res r', verify cfg env initial_realm = Some (Return res, r') ∧ messages res ≠ [])).
Proof.
  intros cfg env [Hthrows _].
  destruct Hthrows as (res & r' & Hv & _); [by eexists _, _|]. done.
Qed.

(** C7.  [verify] changes state outside its result.  Started in a
    fresh realm with a schema that holds a secret, it leaves another
    realm behind: [Object.prototype.toString] is now the closure of
    that call.  A later call with a schema without secrets returns the
    same result as it does in a fresh realm, but the [toString] of the
    object it returns now renders the configuration of the first call,
    where in a fresh realm it is the built-in one. *)
Theorem verify_writes_the_shared_prototype :
  let first : ConfigWithEnvKeys := [("password", secret (EnvKey "DB_PASSWORD"))] in
  let second : ConfigWithEnvKeys := [("baseUrl", Plain (EnvKey "BASE_URL"))] in
  let env : Env := {[ "DB_PASSWORD" := "x"; "BASE_URL" := "u" ]} in
  let alone := {| built := {[ "baseUrl" := VStr "u" ]}; messages := [] |} in
  verify second env initial_realm = Some (Return alone, initial_realm)
  ∧ call_toString initial_realm (built alone) = BuiltIn
  ∧ ∃ res1 r1,
      verify first env initial_realm = Some (Return res1, r1)
      ∧ r1 ≠ initial_realm
      ∧ verify second env r1 = Some (Return alone, r1)
      ∧ call_toString r1 (built alone) = Sanitized (Returns {[ "password" := marker ]}).
Proof.
  cbn zeta. split; [by vm_compute|]. split; [by vm_compute|].
  eexists _, _. split; [by vm_compute|]. split; [done|].
  split; by vm_compute.
Qed.

(** * Further properties of the resolver *)

(** X1.  The secret paths that a run records are exactly the paths of
    the leaves wrapped in [secret] (a string, a transform tuple or an
    inserted value), in the order of the traversal, so they are the
    same for every environment with which the run returns; they are the
    dotted paths of the chains of keys of these leaves when no chain
    goes through an empty top-level key. *)
Theorem recorded_secrets_are_the_wrapped_leaves env cfg r :
  recursiveVerify env cfg EmptyString = Some (Return r) →
  secrets r = descend EmptyString <$> secret_chains cfg
  ∧ (Forall rooted (secret_chains cfg) →
     secrets r = String.concat "." <$> secret_chains cfg).
Proof.
  intros (-> & _ & _)%recursiveVerify_returned.
  assert (secrets (schema_result env cfg EmptyString)
          = descend EmptyString <$> secret_chains cfg) as Hs.
  { rewrite schema_result_secret_leaves.
    change (secret_leaves_of EmptyString cfg)
      with (secret_leaves EmptyString false (Nested cfg)).
    apply secret_leaves_descend. }
  split; [done|]. intros Hroot. rewrite Hs.
  apply list_fmap_ext. intros i c Hc. rewrite Forall_forall in Hroot.
  apply descend_rooted, Hroot. by eapply list_elem_of_lookup_2.
Qed.

Lemma secret_on_nested_is_dropped env path key sub :
  getMapConfigFunction env path (key, secret (Nested sub)) =
  getMapConfigFunction env path (key, Plain (Nested sub)).
Proof. rewrite !getMapConfigFunction_eq. cbn [payload secret]. by rewrite !dispatch_Nested. Qed.

(** X2.  [secret] around a nested schema changes nothing: anywhere in
    a schema, the entry resolves to the same configuration, errors and
    secret paths as the nested schema without the wrapper. *)
Theorem secret_around_object_is_ignored env path before key sub after :
  recursiveVerify env (before ++ (key, secret (Nested sub)) :: after) path =
  recursiveVerify env (before ++ (key, Plain (Nested sub)) :: after) path.
Proof.
  unfold recursiveVerify. rewrite !traverse_app, !traverse_cons.
  by rewrite secret_on_nested_is_dropped.
Qed.


Lemma getEnvValueOrErrorCurried_ext env env' subPath key :
  env !! key = env' !! key →
  getEnvValueOrErrorCurried env subPath key = getEnvValueOrErrorCurried env' subPath key.
Proof. unfold getEnvValueOrErrorCurried. by intros ->. Qed.

Lemma dispatch_ext env env' key subPath secrets0 n :
  (∀ l, l ∈ lookups subPath n → env !! l.1 = env' !! l.1) →
  dispatch env key subPath secrets0 n = dispatch env' key subPath secrets0 n.
Proof.
  revert key subPath secrets0.
  induction n as [v|envKey fn|name|props IH] using node_induction;
    intros key subPath secrets0 Hagree.
  - done.
  - cbn [dispatch]. rewrite (getEnvValueOrErrorCurried_ext env env'); [done|].
    apply (Hagree (envKey, subPath)). cbn. by left.
  - cbn [dispatch]. rewrite (getEnvValueOrErrorCurried_ext env env'); [done|].
    apply (Hagree (name, subPath)). cbn. by left.
  - rewrite !dispatch_Nested.
    assert (recursiveVerify env props subPath = recursiveVerify env' props subPath) as ->;
      [|done].
    unfold recursiveVerify.
    assert (traverse (getMapConfigFunction env subPath) props
            = traverse (getMapConfigFunction env' subPath) props) as ->; [|done].
    cbn [lookups] in Hagree.
    induction IH as [|e props Hhd Htl IHprops]; [done|]. destruct e as [k ms].
    rewrite !traverse_cons. cbn [map concat] in Hagree.
    rewrite IHprops by (intros l Hl; apply Hagree, elem_of_app; by right).
    rewrite !getMapConfigFunction_eq, Hhd; [done|].
    intros l Hl. apply Hagree, elem_of_app. by left.
Qed.

(** X4.  The resolver reads the environment only at the keys that the
    schema looks up: with two environments that agree on these keys,
    the run ends in the same way, with the same configuration, errors
    and secret paths. *)
Theorem resolution_reads_only_the_looked_up_keys env env' cfg path :
  (∀ l, l ∈ lookups_of path cfg → env !! l.1 = env' !! l.1) →
  recursiveVerify env cfg path = recursiveVerify env' cfg path.
Proof.
  intros Hagree.
  pose proof (dispatch_ext env env' EmptyString path [] (Nested cfg) Hagree) as H.
  rewrite !dispatch_Nested in H.
  destruct (recursiveVerify env cfg path) as [[r|t]|],
           (recursiveVerify env' cfg path) as [[r'|t']|]; cbn [after] in H;
    try done; try (by injection H as ->).
  assert (∀ a b : Mapped, Some (Return a) = Some (Return b) → a = b) as Hinj
    by (by intros a b [= ->]).
  apply Hinj in H. f_equal. f_equal.
  pose proof (f_equal (λ m : Mapped, m.1.1 !! EmptyString) H) as Hc.
  pose proof (f_equal (λ m : Mapped, m.1.2) H) as He.
  pose proof (f_equal (λ m : Mapped, m.2) H) as Hs.
  cbn [fst snd] in Hc, He, Hs. rewrite !lookup_singleton_eq in Hc. injection Hc as Hc.
  by apply Verified_eq.
Qed.

(** X5.  Resolving a schema in two parts: the run over the whole is
    the run over the first part followed by the run over the second;
    the errors and the secret paths of the whole are those of the
    first part followed by those of the second, and the configuration
    is the union of the two configurations, in which the second part
    wins. *)
Theorem recursiveVerify_app env first second path :
  recursiveVerify env (first ++ second) path =
  let* r1 := recursiveVerify env first path in
  let* r2 := recursiveVerify env second path in
  Some (Return {| config := config r2 ∪ config r1;
                  errors := errors r1 ++ errors r2;
                  secrets := secrets r1 ++ secrets r2 |}).
Proof.
  unfold recursiveVerify. rewrite traverse_app.
  destruct (traverse _ first) as [[ms1|t]|]; cbn [after]; [|done|done].
  destruct (traverse _ second) as [[ms2|t]|]; cbn [after]; [|done|done].
  by rewrite foldl_app, foldl_reduceConf_acc.
Qed.

(** X6.  For a schema without a top-level key [__proto__], when no
    lookup reads a member of [Object.prototype], no transform function
    throws and no leaf that finds nothing lies below an empty top-level
    key: [verify] reports one message per lookup of the schema that
    finds nothing, in the order of the traversal, each naming the key
    and the dotted path of the leaf; [strictVerify] in the same realm
    returns the resolved configuration when there is none and otherwise
    throws [Missing configuration values: ] followed by these messages,
    one per line; both leave the same realm behind. *)
Theorem strictVerify_by_lookups cfg env r :
  "__proto__" ∉ cfg.*1 → reads_own env cfg → first_thrown (calls_of env cfg) = None →
  let absent := filter (λ l, missing env l.1) (lookup_chains_of cfg) in
  Forall (λ l, rooted l.2) absent →
  let lines :=
    (λ l : string * chain,
       "environment value " +:+ l.1 +:+ " is missing from config object at " +:+
       String.concat "." l.2) <$> absent in
  ∃ c r',
    verify cfg env r = Some (Return {| built := c; messages := lines |}, r')
    ∧ strictVerify cfg env r =
      Some (match absent with
            | [] => Return c
            | _ => Throw (ErrorThrown
                            ("Missing configuration values: " +:+
                             String.concat (String (Ascii.ascii_of_nat 10) EmptyString) lines))
            end, r').
Proof.
  intros Hp Hown Hnone absent Hroot lines.
  assert (message <$> errors (schema_result env cfg EmptyString) = lines) as Hlines.
  { rewrite schema_result_errors_chains. fold absent. subst lines.
    rewrite <- list_fmap_compose. apply list_fmap_ext.
    intros i l Hl. cbn. rewrite Forall_forall in Hroot.
    unfold missing_message. rewrite descend_rooted; [done|].
    apply Hroot. by eapply list_elem_of_lookup_2. }
  unfold strictVerify. rewrite verify_of_run, (recursiveVerify_run _ _ _ Hown), Hnone.
  rewrite schema_result_lookup_notin by done. rewrite Hlines.
  clear Hlines. clearbody absent. subst lines.
  case_decide; eexists _, _; (split; [done|]); cbn [messages built];
    rewrite join_concat; by destruct absent.
Qed.

(** X7.  For a schema without a top-level key [__proto__]: [verify]
    throws what the run of the resolver throws, without a change of
    the realm; what it returns does not depend on the realm it runs
    in, and the realm it leaves is the one it found when no leaf of
    the schema is wrapped in [secret]; otherwise
    [Object.prototype.toString] is replaced, whatever it was, by the
    closure over the recorded paths and the resolved configuration. *)
Theorem verify_installs_toString_for_wrapped_leaves cfg env r :
  "__proto__" ∉ cfg.*1 →
  verify cfg env r =
  match recursiveVerify env cfg EmptyString with
  | None => None
  | Some (Throw t) => Some (Throw t, r)
  | Some (Return v) =>
      Some (Return {| built := config v; messages := message <$> errors v |},
            match secret_leaves_of EmptyString cfg with
            | [] => r
            | paths =>
                {| ObjectPrototype_toString := Some (mkClosure paths (config v)) |}
            end)
  end.
Proof.
  intros Hp. rewrite verify_of_run.
  destruct (recursiveVerify env cfg EmptyString) as [[v|t]|] eqn:Hv; [|done|done].
  apply recursiveVerify_returned in Hv as (-> & _ & _).
  rewrite schema_result_lookup_notin by done. rewrite schema_result_secret_leaves.
  case_decide as Hs; [by rewrite Hs|]. by destruct (secret_leaves_of EmptyString cfg).
Qed.

Lemma foldl_reduceConf_strip (ms : list Mapped) :
  foldl reduceConf emptyVerified (map (λ m : Mapped, (m.1, [])) ms) =
  {| config := config (foldl reduceConf emptyVerified ms);
     errors := errors (foldl reduceConf emptyVerified ms);
     secrets := [] |}.
Proof.
  apply Verified_eq; cbn [config errors secrets].
  - rewrite !foldl_reduceConf_config. generalize (config emptyVerified).
    induction ms as [|m ms IH]; intros c; [done|]. cbn. apply IH.
  - rewrite !foldl_reduceConf_errors. f_equal. f_equal. by rewrite map_map.
  - rewrite foldl_reduceConf_secrets. cbn. rewrite map_map. cbn.
    induction ms as [|m ms IH]; done.
Qed.

Lemma dispatch_unwrapped env key subPath secrets0 n :
  dispatch env key subPath [] (unwrapped n) =
  let* m := dispatch env key subPath secrets0 n in Some (Return (m.1, [])).
Proof.
  revert key subPath secrets0.
  induction n as [v|envKey fn|name|props IH] using node_induction;
    intros key subPath secrets0.
  - done.
  - cbn [dispatch unwrapped]. destruct (getEnvValueOrErrorCurried _ _ _) as [[ev errs]|]; [|done].
    cbn. by destruct (and_then ev fn).
  - cbn [dispatch unwrapped]. by destruct (getEnvValueOrErrorCurried _ _ _) as [[ev errs]|].
  - cbn [dispatch unwrapped]. rewrite traverse_map.
    set (f := λ entry : string * maybeSecret node,
                let sp := subPathOf subPath entry.1 in
                match entry.2 with
                | SecretValue s => dispatch env entry.1 sp [sp] s
                | Plain v => dispatch env entry.1 sp [] v
                end).
    rewrite (traverse_ext _ (λ e, let* m := f e in Some (Return (m.1, [])))).
    + rewrite traverse_then. destruct (traverse f props) as [[ms|t]|]; cbn [after]; [|done|done].
      by rewrite foldl_reduceConf_strip.
    + intros [k ms] He. rewrite Forall_forall in IH. specialize (IH _ He).
      subst f. cbn beta zeta. cbn [fst snd payload] in *. destruct ms as [v|s]; apply IH.
Qed.

(** X8.  [secret] affects the recorded paths only: the schema with
    every wrapper taken off is resolved by a run that ends in the same
    way, with the same configuration and the same errors, and records
    no secret path. *)
Theorem secret_changes_only_the_recorded_paths env cfg path :
  recursiveVerify env (unwrapped_of cfg) path =
  let* r := recursiveVerify env cfg path in
  Some (Return {| config := config r; errors := errors r; secrets := [] |}).
Proof.
  pose proof (dispatch_unwrapped env EmptyString path [] (Nested cfg)) as H.
  cbn [unwrapped] in H. rewrite !dispatch_Nested in H.
  fold (unwrapped_of cfg) in H.
  destruct (recursiveVerify env cfg path) as [[r|t]|],
           (recursiveVerify env (unwrapped_of cfg) path) as [[r'|t']|]; cbn [after] in H |- *;
    try done; try (by injection H as ->).
  assert (∀ a b : Mapped, Some (Return a) = Some (Return b) → a = b) as Hinj
    by (by intros a b [= ->]).
  apply Hinj in H. f_equal. f_equal.
  pose proof (f_equal (λ m : Mapped, m.1.1 !! EmptyString) H) as Hc.
  pose proof (f_equal (λ m : Mapped, m.1.2) H) as He.
  pose proof (f_equal (λ m : Mapped, m.2) H) as Hs.
  cbn [fst snd] in Hc, He, Hs. rewrite !lookup_singleton_eq in Hc. injection Hc as Hc.
  by apply Verified_eq.
Qed.

Lemma recursiveVerify_lookup env cfg path r k ms :
  recursiveVerify env cfg path = Some (Return r) → NoDup cfg.*1 → (k, ms) ∈ cfg →
  ∃ m, dispatch env k (subPathOf path k)
         (match ms with SecretValue _ => [subPathOf path k] | Plain _ => [] end)
         (payload ms) = Some (Return m)
       ∧ config r !! k = m.1.1 !! k.
Proof.
  intros Hr Hnd Hin. pose proof (recursiveVerify_entry _ _ _ _ _ Hr Hin) as He.
  apply recursiveVerify_returned in Hr as (-> & _ & _).
  rewrite getMapConfigFunction_eq in He. eexists. split; [exact He|].
  by apply schema_result_lookup.
Qed.


(** * From the schema to the rendering *)


(** * Instances

    The theorems above at small configurations. *)

Lemma missing_value_one_error_witness :
  let cfg : ConfigWithEnvKeys :=
    [("db", Plain (Nested [("host", Plain (EnvKey "DB_HOST"))]))] in
  let error :=
    mkError "environment value DB_HOST is missing from config object at db.host" in
  ((∃ recorded,
      getMapConfigFunction ∅ "db" ("host", Plain (EnvKey "DB_HOST")) =
      Some (Return ({[ "host" := VUndef ]}, [error], recorded)))
   ∧ ∀ r, recursiveVerify ∅ cfg EmptyString = Some (Return r) →
       get_path ["db"; "host"] (VObj (config r)) = VUndef ∧ error ∈ errors r).
Proof.
  intros cfg error.
  refine (proj1 (missing_value_one_error ∅ cfg ["db"] "host" (Plain (EnvKey "DB_HOST"))
                   "DB_HOST" _ _ _ _ _) _).
  - constructor.
    + cbn. repeat constructor; set_solver.
    + intros k ms sub [= -> ->]%list_elem_of_singleton [= <-]. constructor.
      * cbn. repeat constructor; set_solver.
      * intros k' ms' sub' [= -> ->]%list_elem_of_singleton. done.
  - eapply at_path_below; [by left|done|]. constructor. by left.
  - by left.
  - intros rest. done.
  - intros Hin. apply (bool_decide_eq_true_2 ("DB_HOST" ∈ inherited_values)) in Hin.
    by vm_compute in Hin.
  - by left.
Defined.

Lemma resolved_keys_are_schema_keys_witness :
  let cfg : ConfigWithEnvKeys :=
    [("db", Plain (Nested [("name", Plain (EnvKey "DB_NAME"))]));
     ("baseUrl", Plain (EnvKey "BASE_URL"))] in
  let env : Env := {[ "DB_NAME" := "prod" ]} in
  (reads_own env cfg → first_thrown (calls_of env cfg) = None →
   ∃ r, recursiveVerify env cfg EmptyString = Some (Return r))
  ∧ ∀ r, recursiveVerify env cfg EmptyString = Some (Return r) → same_keys cfg (config r).
Proof.
  intros cfg env. apply resolved_keys_are_schema_keys. constructor.
  - cbn. repeat constructor; set_solver.
  - intros k ms sub Hin Hsub.
    apply elem_of_cons in Hin as [[= -> ->]|Hin].
    + injection Hsub as <-. constructor.
      * cbn. repeat constructor; set_solver.
      * intros k' ms' sub' [= -> ->]%list_elem_of_singleton. done.
    + apply list_elem_of_singleton in Hin as [= -> ->]. done.
Defined.

Lemma transform_only_on_present_value_witness :
  getMapConfigFunction {[ "PORT" := "80" ]} "db"
    ("port", Plain (Transform "PORT" (λ s, Return (VStr (s +:+ "80"))))) =
  Some (Return ({[ "port" := VStr "8080" ]}, [], [])).
Proof.
  refine (proj2 (transform_only_on_present_value {[ "PORT" := "80" ]} ["db"] "port" false
                   "PORT" (λ s, Return (VStr (s +:+ "80"))) _ _) "80" _ _).
  - by intros rest.
  - intros _. by exists "80".
  - done.
  - done.
Defined.

Lemma recorded_paths_of_secret_leaves_witness :
  let cfg : ConfigWithEnvKeys :=
    [("db", Plain (Nested [("password", secret (EnvKey "DB_PASSWORD"))]))] in
  secrets_on_leaves cfg
  ∧ ∀ r, recursiveVerify {[ "DB_PASSWORD" := "x" ]} cfg EmptyString = Some (Return r) →
         recorded_paths_reference_keys r.
Proof.
  intros cfg.
  assert (secrets_on_leaves cfg) as Hleaves.
  { constructor.
    - cbn. repeat constructor; set_solver.
    - cbn. repeat constructor; done.
    - intros k ms sub [= -> ->]%list_elem_of_singleton [= <-]. split; [done|].
      constructor.
      + cbn. repeat constructor; set_solver.
      + cbn. repeat constructor; done.
      + intros k' ms' sub' [= -> ->]%list_elem_of_singleton. done. }
  split; [done|].
  exact (proj1 (recorded_paths_of_secret_leaves {[ "DB_PASSWORD" := "x" ]} cfg Hleaves)).
Defined.

Lemma secret_insert_resolves_witness :
  let cfg : ConfigWithEnvKeys :=
    [("features", Plain (Nested [("flag", secret (insert (VBool true)))]))] in
  rooted ["features"; "flag"]
  ∧ ∀ r, recursiveVerify ∅ cfg EmptyString = Some (Return r) →
         get_path ["features"; "flag"] (VObj (config r)) = VBool true
         ∧ "features.flag" ∈ secrets r.
Proof.
  intros cfg.
  assert (rooted ["features"; "flag"]) as Hrooted by (by intros rest).
  split; [done|].
  refine (proj2 (secret_insert_resolves ∅ cfg ["features"] "flag" (VBool true) _ _ Hrooted)).
  - constructor.
    + cbn. repeat constructor; set_solver.
    + intros k ms sub [= -> ->]%list_elem_of_singleton [= <-]. constructor.
      * cbn. repeat constructor; set_solver.
      * intros k' ms' sub' [= -> ->]%list_elem_of_singleton. done.
  - eapply at_path_below; [by left|done|]. constructor. by left.
Defined.

Lemma resolution_collects_in_traversal_order_witness :
  let cfg : ConfigWithEnvKeys :=
    [("db", Plain (Nested [("name", Plain (EnvKey "DB_NAME"));
                           ("password", secret (EnvKey "DB_PASSWORD"))]));
     ("port", Plain (Transform "PORT" (λ s, Return (VStr s))))] in
  let env : Env := {[ "DB_NAME" := "prod" ]} in
  ∃ r, recursiveVerify env cfg EmptyString = Some (Return r)
       ∧ map message (errors r) =
         ["environment value DB_PASSWORD is missing from config object at db.password";
          "environment value PORT is missing from config object at port"]
       ∧ secrets r = ["db.password"].
Proof.
  intros cfg env.
  assert (∃ r, recursiveVerify env cfg EmptyString = Some (Return r)) as [r Hr]
    by (by eexists).
  exists r. split; [done|].
  pose proof (proj2 (resolution_collects_in_traversal_order env cfg) r Hr) as H.
  cbn zeta in H. destruct H as (_ & Hmessages & _ & Hsecrets & _).
  rewrite Hmessages, Hsecrets.
  - split; by vm_compute.
  - repeat constructor. by intros rest.
  - vm_compute. repeat constructor; by intros rest.
Defined.

Lemma strictVerify_raises_iff_errors_witness :
  let cfg : ConfigWithEnvKeys :=
    [("name", Plain (EnvKey "DB_NAME")); ("host", Plain (EnvKey "DB_HOST"))] in
  strictVerify cfg ∅ initial_realm =
  Some (Throw (ErrorThrown
                 ("Missing configuration values: "
                  +:+ "environment value DB_NAME is missing from config object at name"
                  +:+ String (Ascii.ascii_of_nat 10)
                        "environment value DB_HOST is missing from config object at host")),
        initial_realm).
Proof.
  intros cfg.
  apply (proj1 (strictVerify_raises_iff_errors cfg ∅ initial_realm)).
  right. eexists. split; [reflexivity|]. split; [done|]. by vm_compute.
Defined.

Lemma recorded_secrets_are_the_wrapped_leaves_witness :
  let cfg : ConfigWithEnvKeys :=
    [("db", Plain (Nested [("password", secret (EnvKey "DB_PASSWORD"))]))] in
  let env : Env := {[ "DB_PASSWORD" := "x" ]} in
  ∃ r, recursiveVerify env cfg EmptyString = Some (Return r)
       ∧ secrets r = ["db.password"].
Proof.
  intros cfg env.
  assert (∃ r, recursiveVerify env cfg EmptyString = Some (Return r)) as [r Hr]
    by (by eexists).
  exists r. split; [done|].
  rewrite (proj2 (recorded_secrets_are_the_wrapped_leaves env cfg r Hr)); [done|].
  repeat constructor. by intros rest.
Defined.


Lemma resolution_reads_only_the_looked_up_keys_witness :
  recursiveVerify {[ "DB_NAME" := "prod" ]} [("name", Plain (EnvKey "DB_NAME"))] EmptyString =
  recursiveVerify {[ "DB_NAME" := "prod"; "HOME" := "/root" ]}
    [("name", Plain (EnvKey "DB_NAME"))] EmptyString.
Proof.
  apply resolution_reads_only_the_looked_up_keys.
  intros l Hl. cbn in Hl. apply list_elem_of_singleton in Hl as ->. done.
Defined.

Lemma strictVerify_by_lookups_witness :
  let cfg : ConfigWithEnvKeys :=
    [("name", Plain (EnvKey "DB_NAME")); ("host", Plain (EnvKey "DB_HOST"))] in
  let env : Env := {[ "DB_NAME" := "prod" ]} in
  ∃ c r',
    verify cfg env initial_realm =
      Some (Return {| built := c;
                      messages :=
                        ["environment value DB_HOST is missing from config object at host"] |},
            r')
    ∧ strictVerify cfg env initial_realm =
      Some (Throw (ErrorThrown "Missing configuration values: environment value DB_HOST is missing from config object at host"),
            r').
Proof.
  intros cfg env.
  assert ("__proto__" ∉ cfg.*1) as Hproto by (cbn; set_solver).
  assert (reads_own env cfg) as Hown by (by apply reads_own_plain).
  assert (first_thrown (calls_of env cfg) = None) as Hnone by done.
  pose proof (strictVerify_by_lookups cfg env initial_realm Hproto Hown Hnone) as H.
  cbn zeta in H. destruct H as (c & r' & Hv & Hs).
  - vm_compute. repeat constructor. by intros rest.
  - exists c, r'. rewrite Hv, Hs. split; by vm_compute.
Defined.

Lemma verify_installs_toString_for_wrapped_leaves_witness :
  verify [("password", secret (EnvKey "DB_PASSWORD"))] {[ "DB_PASSWORD" := "x" ]}
    initial_realm =
  Some (Return {| built := {[ "password" := VStr "x" ]}; messages := [] |},
        {| ObjectPrototype_toString :=
             Some (mkClosure ["password"] {[ "password" := VStr "x" ]}) |}).
Proof.
  pose proof (verify_installs_toString_for_wrapped_leaves
                [("password", secret (EnvKey "DB_PASSWORD"))] {[ "DB_PASSWORD" := "x" ]}
                initial_realm) as H.
  rewrite H by (cbn; set_solver). by vm_compute.
Defined.



Lemma redaction_is_idempotent_witness :
  recursiveToString ["db.password"]
    (VObj {[ "db" := VObj {[ "password" := marker; "name" := VStr "y" ]} ]})
  = Returns {[ "db" := VObj {[ "password" := marker; "name" := VStr "y" ]} ]}.
Proof.
  apply (proj1 (redaction_is_idempotent ["db.password"])
           (VObj {[ "db" := VObj {[ "password" := VStr "x"; "name" := VStr "y" ]} ]})).
  by vm_compute.
Defined.


Lemma cut_inverts_descent_witness :
  seperateParentFromChildren (descend EmptyString ["db"; "auth"; "password"]) =
  ("db", Some (descend EmptyString ["auth"; "password"])).
Proof.
  apply cut_inverts_descent; [done| |done]. repeat constructor; done.
Defined.

Lemma redaction_keeps_the_keys_witness :
  dom ({[ "name" := VStr "prod"; "password" := marker ]} : MappedConfig) =
  dom ({[ "name" := VStr "prod"; "password" := VStr "x" ]} : MappedConfig).
Proof.
  apply (proj1 (redaction_keeps_the_keys ["password"]
                  {[ "name" := VStr "prod"; "password" := VStr "x" ]}
                  {[ "name" := VStr "prod"; "password" := marker ]})).
  by vm_compute.
Defined.

Lemma top_level_secrets_are_masked_witness :
  ∃ out,
    recursiveToString ["password"] (VObj {[ "name" := VStr "prod"; "password" := VStr "x" ]})
      = Returns out
    ∧ (∀ k, out !! k =
            (λ v, if decide (k ∈ ["password"]) then marker else v) <$>
              ({[ "name" := VStr "prod"; "password" := VStr "x" ]} : MappedConfig) !! k)
    ∧ (["password"] = [] → out = {[ "name" := VStr "prod"; "password" := VStr "x" ]}).
Proof.
  apply top_level_secrets_are_masked.
  intros s ->%list_elem_of_singleton. done.
Defined.

Lemma secret_path_that_cannot_be_cut_raises_witness :
  returned (recursiveToString ["db."] (VObj {[ "db" := VObj {[ EmptyString := VStr "x" ]} ]})) = None.
Proof.
  apply (secret_path_that_cannot_be_cut_raises ["db."] "db."); [by left|done|by left].
Defined.

Lemma secret_below_absent_key_raises_witness :
  returned (recursiveToString ["a.b"] (VObj {[ "a.b" := VStr "x" ]})) = None.
Proof.
  apply (secret_below_absent_key_raises ["a.b"] {[ "a.b" := VStr "x" ]} "a.b");
    [by left|done|by left].
Defined.

Lemma redactor_allocates_and_shares_witness :
  let h := [Obj {[ "host" := Prim (PStr "h") ]};
            Obj {[ "db" := Ref 0; "password" := Prim (PStr "x") ]}] in
  let h' := h ++ [Obj {[ "db" := Ref 0; "password" := Prim (PStr "[secret]") ]}] in
  h `prefix_of` h'
  ∧ 2 ≤ 2
  ∧ ∃ out, h' !! 2 = Some (Obj out)
      ∧ ∀ k, k ∉ ["password"] →
             (∀ s, s ∈ ["password"] → contains_dot s = true →
                   (seperateParentFromChildren s).1 ≠ k) →
             out !! k = ({[ "db" := Ref 0; "password" := Prim (PStr "x") ]}
                           : gmap string slot) !! k.
Proof.
  intros h h'.
  apply (redactor_allocates_and_shares ["password"] 1
           {[ "db" := Ref 0; "password" := Prim (PStr "x") ]} h 2 h'); [done|].
  by vm_compute.
Defined.
